(** * Edge search of PLgpt-circuits: a shallow embedding of
    [circuits/search/edges.py] and the properties of its importance maps.

    Conventions of the embedding.
    - Floating-point magnitudes and errors are exact rationals ([Q]); equality
      of two values is [Qeq] ([==]).  A value that has no rational counterpart
      (the mean of an empty tensor) stops the computation with [NotANumber].
    - A Python [frozenset] or [set] that the code iterates over is a list, the
      list order being the iteration order; sets built by the code itself are
      iterated in insertion order.  A set that is used as a dictionary key
      ([frozenset[Node]], the node set of a [Circuit]) is a [gset].
    - A Python [dict] is an association list in insertion order.
    - Exceptions are values of [Err]; the external collaborators (model,
      ablator, downstream recomputation, feature profile) are the fields of
      the class [EdgeSearch], and every call to one of them is recorded in
      the trace of the world. *)

From Stdlib Require Import ZArith QArith Qminmax Lqa Lia List.
From stdpp Require Import base decidable countable list gmap sets.
Import ListNotations.
Local Open Scope Z_scope.
Set Warnings "-clear-no-such-hyp".

(** ** Data model *)

(** Modelled from the spec: [Node] of the package [circuits] (its source is
    not part of the files at hand): one feature activation at a (layer, token
    position, feature index) triple, compared and ordered by its three
    fields. *)
Record Node := mkNode { layer_idx : Z; token_idx : Z; feature_idx : Z }.

(** Modelled from the spec: [Edge] of the package [circuits]: an ordered pair
    of an upstream and a downstream node. *)
Record Edge := mkEdge { upstream : Node; downstream : Node }.

(** Modelled from the spec: [EdgeGroup] of the package [circuits]: all edges
    from one upstream token to one downstream token. *)
Record EdgeGroup := mkEdgeGroup {
  upstream_layer_idx : Z;
  upstream_token_idx : Z;
  downstream_token_idx : Z }.

#[global] Instance Node_eq_dec : EqDecision Node.
Proof. solve_decision. Defined.

#[global] Instance Edge_eq_dec : EqDecision Edge.
Proof. solve_decision. Defined.

#[global] Instance EdgeGroup_eq_dec : EqDecision EdgeGroup.
Proof. solve_decision. Defined.

#[global] Instance Node_countable : Countable Node.
Proof.
  refine (inj_countable' (fun n => (layer_idx n, token_idx n, feature_idx n))
            (fun '(l, t, f) => mkNode l t f) _).
  by intros [].
Defined.

#[global] Instance Edge_countable : Countable Edge.
Proof.
  refine (inj_countable' (fun e => (upstream e, downstream e))
            (fun '(u, d) => mkEdge u d) _).
  by intros [].
Defined.

(** Modelled from the spec: [Circuit] of the package [circuits]: a set of
    nodes and a set of edges (empty when not given); two circuits are equal
    iff both sets are. *)
Record Circuit := mkCircuit { nodes : gset Node; edges : gset Edge }.

#[global] Instance Circuit_eq_dec : EqDecision Circuit.
Proof. solve_decision. Defined.

(** [EdgeSearchResult]: the two importance maps. *)
Record EdgeSearchResult := mkEdgeSearchResult {
  edge_importance : list (Edge * Q);
  token_importance : list (EdgeGroup * Q) }.

(** The order of nodes (by layer, token, feature) and of edges (by upstream
    node, then downstream node) that [sorted] uses. *)
Definition node_leb (a b : Node) : bool :=
  if layer_idx a =? layer_idx b then
    if token_idx a =? token_idx b then feature_idx a <=? feature_idx b
    else token_idx a <? token_idx b
  else layer_idx a <? layer_idx b.

Definition edge_leb (a b : Edge) : bool :=
  if bool_decide (upstream a = upstream b)
  then node_leb (downstream a) (downstream b)
  else node_leb (upstream a) (upstream b).

(** ** Python containers *)

Section Containers.
Context {A : Type}.

Fixpoint insert_sorted (leb : A -> A -> bool) (x : A) (l : list A) : list A :=
  match l with
  | [] => [x]
  | y :: l' => if leb x y then x :: l else y :: insert_sorted leb x l'
  end.

(** [sorted(l)]: a stable sort. *)
Definition sorted (leb : A -> A -> bool) (l : list A) : list A :=
  foldr (insert_sorted leb) [] l.

Context `{EqDecision A}.

(** [s.add(x)] on a set kept in insertion order. *)
Definition set_add (x : A) (s : list A) : list A :=
  if bool_decide (x ∈ s) then s else s ++ [x].

(** A set comprehension [{f(y) for y in l}]. *)
Definition set_of_list (l : list A) : list A :=
  fold_left (fun s x => set_add x s) l [].
End Containers.

Section Dict.
Context {K V : Type} `{EqDecision K}.

(** [d[k]], or nothing when the key is missing. *)
Fixpoint dget (d : list (K * V)) (k : K) : option V :=
  match d with
  | [] => None
  | (k', v) :: d' => if bool_decide (k' = k) then Some v else dget d' k
  end.

(** [d[k] = f(d[k])] for a [defaultdict] whose missing values are [dflt];
    a new key goes to the end. *)
Fixpoint dupd (k : K) (f : V -> V) (dflt : V) (d : list (K * V)) : list (K * V) :=
  match d with
  | [] => [(k, f dflt)]
  | (k', v) :: d' =>
      if bool_decide (k' = k) then (k', f v) :: d' else (k', v) :: dupd k f dflt d'
  end.

(** [d[k] = v]. *)
Definition dset (k : K) (v : V) (d : list (K * V)) : list (K * V) :=
  dupd k (fun _ => v) v d.

Definition keys (d : list (K * V)) : list K := d.*1.
Definition values (d : list (K * V)) : list V := d.*2.
End Dict.

Section NestedDictOps.
Context {K1 K2 X : Type} `{EqDecision K1, EqDecision K2}.

(** [D[a][b]] on a dictionary of dictionaries. *)
Definition dget2 (D : list (K1 * list (K2 * X))) (a : K1) (b : K2) : option X :=
  dget D a ≫= fun inner => dget inner b.

(** No key occurs twice, at either level. *)
Definition wf2 (D : list (K1 * list (K2 * X))) : Prop :=
  NoDup (keys D) ∧ ∀ a inner, dget D a = Some inner → NoDup (keys inner).
End NestedDictOps.

(** Indexing with Python's rule for negative indices. *)
Definition py_index {A} (l : list A) (i : Z) : option A :=
  let n := Z.of_nat (length l) in
  if (0 <=? i) && (i <? n) then l !! Z.to_nat i
  else if (- n <=? i) && (i <? 0) then l !! Z.to_nat (n + i)
  else None.

(** ** Arithmetic on magnitudes *)

(** [max(a, b)] and [min(a, b)] of Python: the first argument unless the
    second is strictly better. *)
Definition py_max (a b : Q) : Q := if Qlt_le_dec a b then b else a.
Definition py_min (a b : Q) : Q := if Qlt_le_dec b a then b else a.

(** [max(l, default=d)] and [min(l, default=d)]. *)
Definition py_max_list (l : list Q) (d : Q) : Q :=
  match l with [] => d | x :: l' => fold_left py_max l' x end.
Definition py_min_list (l : list Q) (d : Q) : Q :=
  match l with [] => d | x :: l' => fold_left py_min l' x end.

Definition Qsum (l : list Q) : Q := fold_left Qplus l 0%Q.

(** The floor of the divisor in both normalizations, [1e-6]. *)
Definition epsilon : Q := 1 # 1000000.

(** ** Exceptions, the world and the two monads *)

Inductive Err :=
| AssertionError | StopIteration | KeyError | IndexError
| ZeroDivisionError | NameError | NotANumber | ExternalError.

Inductive Result (A : Type) :=
| Ok (a : A)
| Raise (e : Err).
Arguments Ok {A} a.
Arguments Raise {A} e.

Definition rbind {A B} (c : Result A) (f : A -> Result B) : Result B :=
  match c with Ok a => f a | Raise e => Raise e end.

Notation "'let?' x := c 'in' k" := (rbind c (fun x => k))
  (at level 10, x pattern, c at level 100, k at level 200).

Definition of_option {A} (e : Err) (o : option A) : Result A :=
  match o with Some a => Ok a | None => Raise e end.

(** A [for] loop that may raise. *)
Fixpoint rfold {A B} (f : B -> A -> Result B) (l : list A) (b : B) : Result B :=
  match l with
  | [] => Ok b
  | x :: l' => let? b' := f b x in rfold f l' b'
  end.

Fixpoint rmap {A B} (f : A -> Result B) (l : list A) : Result (list B) :=
  match l with
  | [] => Ok []
  | x :: l' => let? y := f x in let? ys := rmap f l' in Ok (y :: ys)
  end.

Definition py_assert (b : bool) : Result unit :=
  if b then Ok tt else Raise AssertionError.

(** [next(iter(s))]. *)
Definition next_iter {A} (s : list A) : Result A :=
  match s with [] => Raise StopIteration | x :: _ => Ok x end.

(** [a / b] on Python floats: a zero divisor raises. *)
Definition py_div (a b : Q) : Result Q :=
  if Qeq_bool b 0 then Raise ZeroDivisionError else Ok (a / b)%Q.

(** [sum(l) / len(l)]. *)
Definition py_average (l : list Q) : Result Q :=
  py_div (Qsum l) (inject_Z (Z.of_nat (length l))).

Definition Tensor2 : Type := list (list Q).
Definition Tensor3 : Type := list Tensor2.

(** [torch.mean(t).item()] of a one-dimensional tensor.  The mean of an
    empty tensor is NaN, which no rational stands for. *)
Definition torch_mean (t : list Q) : Result Q :=
  match t with
  | [] => Raise NotANumber
  | _ => Ok (Qsum t / inject_Z (Z.of_nat (length t)))%Q
  end.

(** [magnitudes[:, t, f]]. *)
Definition select (magnitudes : Tensor3) (t f : Z) : Result (list Q) :=
  rmap (fun sample : Tensor2 =>
          let? row := of_option IndexError (py_index sample t) in
          of_option IndexError (py_index row f)) magnitudes.

(** [t[i] = x] on a one-dimensional tensor. *)
Definition tensor_set (t : list Q) (i : Z) (x : Q) : Result (list Q) :=
  if (0 <=? i) && (i <? Z.of_nat (length t)) then Ok (<[Z.to_nat i := x]> t)
  else Raise IndexError.

Definition enumerate {A} (l : list A) : list (Z * A) :=
  zip (Z.of_nat <$> seq 0 (length l)) l.

(** [k or d] for an optional integer [k]. *)
Definition py_or (k : option Z) (d : Z) : Z :=
  match k with
  | Some k' => if k' =? 0 then d else k'
  | None => d
  end.

(** The candidate edges: the double loop of [search] and [get_placeholders]. *)
Definition causal_edges (upstream_nodes downstream_nodes : list Node) : list Edge :=
  fold_left (fun all_edges up =>
    fold_left (fun all_edges down =>
      if token_idx up <=? token_idx down
      then set_add (mkEdge up down) all_edges else all_edges)
      (sorted node_leb downstream_nodes) all_edges)
    (sorted node_leb upstream_nodes) [].

(** A dict comprehension [{k: f(k) for k in l}]. *)
Definition dict_of {K V} `{EqDecision K} (f : K -> V) (l : list K) : list (K * V) :=
  fold_left (fun d k => dset k (f k) d) l [].

(** [get_placeholders]. *)
Definition get_placeholders (upstream_nodes downstream_nodes : list Node)
  : EdgeSearchResult :=
  let edges := causal_edges upstream_nodes downstream_nodes in
  let upstream_blocks :=
    set_of_list ((fun node => (layer_idx node, token_idx node)) <$> upstream_nodes) in
  let edge_groups :=
    fold_left (fun edge_groups '(up_layer, up_token) =>
      let downstream_token_idxs :=
        set_of_list (token_idx <$>
          filter (fun n => up_token <= token_idx n) downstream_nodes) in
      fold_left (fun edge_groups down_token =>
        set_add (mkEdgeGroup up_layer up_token down_token) edge_groups)
        downstream_token_idxs edge_groups)
      upstream_blocks [] in
  mkEdgeSearchResult (dict_of (fun _ => 1%Q) edges) (dict_of (fun _ => 0%Q) edge_groups).

(** ** The engine *)

(** What the engine asks of its collaborators, in the order of the calls. *)
Inductive Event :=
| EvForward (tokens : list Z)
| EvPatch (layer target : Z) (variants : list Circuit) (num_samples : Z)
| EvRecompute (layer : Z).

(** The engine and its collaborators: the fields of [EdgeSearch] that the
    methods read, and the functions of the packages [circuits.search] and
    [models] that they call. *)
Class EdgeSearch := {
  (** The state of the ablator's sampler. *)
  RNG : Type;
  (** [self.model(input).feature_magnitudes[layer]] without its batch axis. *)
  model_feature_magnitudes : list Z -> Z -> option Tensor2;
  (** [patch_feature_magnitudes(self.upstream_ablator, layer, target,
      variants, magnitudes, num_samples)]: a batch of samples per variant. *)
  patch_feature_magnitudes :
    RNG -> Z -> Z -> list Circuit -> Tensor2 -> Z ->
    option (list (Circuit * Tensor3) * RNG);
  (** [compute_downstream_magnitudes(self.model, layer, patched)]. *)
  compute_downstream_magnitudes : Z -> Tensor3 -> option Tensor3;
  (** [self.model_profile[layer]], then [layer_profile[feature].max]. *)
  model_profile : Z -> option (Z -> option Q);
  num_samples : Z;
  (** [self.upstream_ablator.k_nearest]: [None] when the pool is unbounded. *)
  k_nearest : option Z }.

Section Engine.
Context {self : EdgeSearch}.

Record World := mkWorld { rng : RNG; trace : list Event }.

Definition M (A : Type) : Type := World -> Result A * World.

Definition ret {A} (a : A) : M A := fun w => (Ok a, w).

Definition bind {A B} (c : M A) (f : A -> M B) : M B :=
  fun w => match c w with
           | (Ok a, w') => f a w'
           | (Raise e, w') => (Raise e, w')
           end.

Definition lift {A} (r : Result A) : M A := fun w => (r, w).

Notation "'let*' x := c 'in' k" := (bind c (fun x => k))
  (at level 10, x pattern, c at level 100, k at level 200).

(** A [for] loop whose body calls the collaborators. *)
Fixpoint foldM {A B} (f : B -> A -> M B) (l : list A) (b : B) : M B :=
  match l with
  | [] => ret b
  | x :: l' => let* b' := f b x in foldM f l' b'
  end.

Definition log (e : Event) (w : World) : World :=
  mkWorld (rng w) (trace w ++ [e]).

Definition call_model (tokens : list Z) (layer : Z) : M Tensor2 :=
  fun w => (of_option ExternalError (model_feature_magnitudes tokens layer),
            log (EvForward tokens) w).

Definition call_patch (layer target : Z) (variants : list Circuit)
    (magnitudes : Tensor2) (n : Z) : M (list (Circuit * Tensor3)) :=
  fun w =>
    let w' := log (EvPatch layer target variants n) w in
    match patch_feature_magnitudes (rng w) layer target variants magnitudes n with
    | Some (patched, g) => (Ok patched, mkWorld g (trace w'))
    | None => (Raise ExternalError, w')
    end.

Definition call_recompute (layer : Z) (patched : Tensor3) : M Tensor3 :=
  fun w => (of_option ExternalError (compute_downstream_magnitudes layer patched),
            log (EvRecompute layer) w).

(** The upstream nodes a downstream node depends on under [edges]. *)
Definition dependencies (edges : list Edge) (node : Node) : gset Node :=
  list_to_set (upstream <$> filter (fun edge => downstream edge = node) edges).

Definition node_to_dependencies (downstream_nodes : list Node) (edges : list Edge)
  : list (Node * gset Node) :=
  fold_left (fun d node => dset node (dependencies edges node) d) downstream_nodes [].

Definition dependencies_to_nodes (n2d : list (Node * gset Node))
  : list (gset Node * list Node) :=
  fold_left (fun d '(node, deps) => dupd deps (set_add node) [] d) n2d [].

(** [sample_downstream_feature_magnitudes]. *)
Definition sample_downstream_feature_magnitudes
    (downstream_nodes : list Node) (edges : list Edge)
    (upstream_magnitudes : Tensor2) (target_token_idx n : Z)
  : M (list (Node * list Q)) :=
  let d2n := dependencies_to_nodes (node_to_dependencies downstream_nodes edges) in
  let circuit_variants := (fun deps => mkCircuit deps ∅) <$> keys d2n in
  let* first := lift (next_iter downstream_nodes) in
  let up_layer := layer_idx first - 1 in
  let* patched :=
    call_patch up_layer target_token_idx circuit_variants upstream_magnitudes n in
  let* sampled_downstream_magnitudes :=
    foldM (fun d '(circuit_variant, patched_magnitudes) =>
             let* downstream_magnitudes := call_recompute up_layer patched_magnitudes in
             ret (dset circuit_variant downstream_magnitudes d))
          patched [] in
  lift (rfold (fun sampled '(circuit_variant, magnitudes) =>
                 rfold (fun sampled node =>
                          let? m := select magnitudes (token_idx node) (feature_idx node) in
                          Ok (dset node m sampled))
                       (default [] (dget d2n (nodes circuit_variant))) sampled)
              sampled_downstream_magnitudes []).

(** The two loops of [estimate_downstream_node_mses] after the sampling.
    The first loop leaves its index [i] bound to the position of the last
    sampled node; the second loop reads [norm_coefficients[i]] with that
    binding. *)
Definition normalized_mses (downstream_nodes : list Node)
    (sampled : list (Node * list Q)) (downstream_means : list (Node * Q))
  : Result (list (Node * Q)) :=
  let norm_coefficients := replicate (length downstream_nodes) 1%Q in
  let? first := next_iter downstream_nodes in
  let? layer_profile := of_option ExternalError (model_profile (layer_idx first)) in
  let? (norm_coefficients, i) :=
    rfold (fun '(norm, _) '(i, node) =>
             let? feature_max := of_option ExternalError (layer_profile (feature_idx node)) in
             let? coefficient := py_div 1 feature_max in
             let? norm' := tensor_set norm i coefficient in
             Ok (norm', Some i))
          (enumerate (keys sampled)) (norm_coefficients, None) in
  rfold (fun downstream_mses '(node, magnitudes) =>
           let? original_magnitude := of_option KeyError (dget downstream_means node) in
           let? i := of_option NameError i in
           let? coefficient := of_option IndexError (py_index norm_coefficients i) in
           let? normalized_mse :=
             torch_mean ((fun m => (coefficient * (m - original_magnitude)) ^ 2)%Q
                           <$> magnitudes) in
           Ok (dset node normalized_mse downstream_mses))
        sampled [].

(** [estimate_downstream_node_mses]. *)
Definition estimate_downstream_node_mses
    (downstream_nodes : list Node) (edges : list Edge)
    (upstream_magnitudes : Tensor2) (downstream_means : list (Node * Q))
    (target_token_idx : Z) : M (list (Node * Q)) :=
  let* sampled :=
    sample_downstream_feature_magnitudes downstream_nodes edges
      upstream_magnitudes target_token_idx num_samples in
  lift (normalized_mses downstream_nodes sampled downstream_means).

(** [estimate_downstream_node_means]. *)
Definition estimate_downstream_node_means
    (downstream_nodes : list Node) (edges : list Edge)
    (upstream_magnitudes : Tensor2) (target_token_idx : Z) : M (list (Node * Q)) :=
  let* sampled :=
    sample_downstream_feature_magnitudes downstream_nodes edges
      upstream_magnitudes target_token_idx
      (Z.min (num_samples * 4) (py_or k_nearest (10 ^ 10))) in
  lift (rfold (fun downstream_means '(node, magnitudes) =>
                 let? mean := torch_mean magnitudes in
                 Ok (dset node mean downstream_means))
              sampled []).

(** [estimate_edge_ablation_effects]. *)
Definition estimate_edge_ablation_effects
    (downstream_nodes : list Node) (all_edges : list Edge)
    (upstream_magnitudes : Tensor2) (downstream_means : list (Node * Q))
    (target_token_idx : Z) : M (list (Edge * Q)) :=
  let edge_to_circuit_variant :=
    fold_left (fun d edge =>
                 dset edge (mkCircuit (list_to_set downstream_nodes)
                                      (list_to_set all_edges ∖ {[edge]})) d)
              all_edges [] in
  foldM (fun edge_to_mse '(edge, circuit_variant) =>
           let* downstream_errors :=
             estimate_downstream_node_mses downstream_nodes
               (elements (edges circuit_variant))
               upstream_magnitudes downstream_means target_token_idx in
           let* mse := lift (of_option KeyError (dget downstream_errors (downstream edge))) in
           ret (dset edge mse edge_to_mse))
        edge_to_circuit_variant [].

(** The part of [compute_edge_importance] that follows the ablations:
    increases over the baseline, statistics per downstream node, the
    report, and the normalization. *)
Definition normalize_edge_mses (downstream_nodes : list Node)
    (ablation_mses : list (Edge * Q)) (baseline_mses : list (Node * Q))
  : Result (list (Edge * Q)) :=
  let? edge_mse_increase :=
    rfold (fun d '(edge, mse) =>
             let? baseline_mse := of_option KeyError (dget baseline_mses (downstream edge)) in
             Ok (dset edge (mse - baseline_mse)%Q d))
          (sorted (fun x y => edge_leb x.1 y.1) ablation_mses) [] in
  let? (min_mse_increases, max_mse_increases) :=
    rfold (fun '(mins, maxs) downstream_node =>
             let upstream_edges :=
               set_of_list (filter (fun edge => downstream edge = downstream_node)
                                   (keys edge_mse_increase)) in
             let? mse_increases :=
               rmap (fun edge => of_option KeyError (dget edge_mse_increase edge))
                    upstream_edges in
             Ok (dset downstream_node (py_min_list mse_increases 0) mins,
                 dset downstream_node (py_max_list mse_increases 0) maxs))
          downstream_nodes ([], []) in
  let? _ :=
    rfold (fun _ downstream_node =>
             let? _ := of_option KeyError (dget baseline_mses downstream_node) in
             let? _ := of_option KeyError (dget min_mse_increases downstream_node) in
             let? _ := of_option KeyError (dget max_mse_increases downstream_node) in
             Ok tt)
          (sorted node_leb downstream_nodes) tt in
  rfold (fun importance '(edge, mse_increase) =>
           let mse_increase := py_max mse_increase 0 in
           let? node_max := of_option KeyError (dget max_mse_increases (downstream edge)) in
           let max_mse_increase := py_max node_max epsilon in
           let? value := py_div mse_increase max_mse_increase in
           Ok (dset edge value importance))
        edge_mse_increase [].

(** [compute_edge_importance]. *)
Definition compute_edge_importance
    (all_edges : list Edge) (downstream_nodes : list Node)
    (baseline_mses : list (Node * Q)) (upstream_magnitudes : Tensor2)
    (downstream_means : list (Node * Q)) (target_token_idx : Z)
  : M (list (Edge * Q)) :=
  let* ablation_mses :=
    estimate_edge_ablation_effects downstream_nodes all_edges
      upstream_magnitudes downstream_means target_token_idx in
  lift (normalize_edge_mses downstream_nodes ablation_mses baseline_mses).

(** The loop of [estimate_token_ablation_effects]: one estimation per
    upstream token, whose errors are appended per (downstream token,
    upstream token). *)
Definition token_ablation_step
    (downstream_nodes : list Node) (all_edges : list Edge)
    (upstream_magnitudes : Tensor2) (downstream_means : list (Node * Q))
    (target_token_idx : Z)
    (token_ablation_mses : list (Z * list (Z * list Q))) (token : Z)
  : M (list (Z * list (Z * list Q))) :=
  let patched_edges :=
    filter (fun edge => token_idx (upstream edge) ≠ token) all_edges in
  let* estimated_mses :=
    estimate_downstream_node_mses downstream_nodes patched_edges
      upstream_magnitudes downstream_means target_token_idx in
  lift (rfold (fun acc downstream_node =>
                 let? mse := of_option KeyError (dget estimated_mses downstream_node) in
                 Ok (dupd (token_idx downstream_node)
                          (dupd token (fun mses => mses ++ [mse]) [])
                          [] acc))
              (set_of_list (downstream <$>
                 filter (fun edge => token_idx (upstream edge) = token) all_edges))
              token_ablation_mses).

(** [estimate_token_ablation_effects]. *)
Definition estimate_token_ablation_effects
    (downstream_nodes : list Node) (all_edges : list Edge)
    (upstream_magnitudes : Tensor2) (downstream_means : list (Node * Q))
    (target_token_idx : Z) : M (list (Z * list (Z * Q))) :=
  let* token_ablation_mses :=
    foldM (token_ablation_step downstream_nodes all_edges upstream_magnitudes
             downstream_means target_token_idx)
          (sorted Z.leb (set_of_list ((fun edge => token_idx (upstream edge)) <$> all_edges)))
          [] in
  lift (rfold (fun average '(down_token, upstream_token_mses) =>
                 rfold (fun average '(up_token, mses) =>
                          let? mean := py_average mses in
                          Ok (dupd down_token (dset up_token mean) [] average))
                       upstream_token_mses average)
              token_ablation_mses []).

(** The part of [compute_token_importance] that follows the ablations. *)
Definition normalize_token_mses (up_layer : Z) (downstream_token_idxs : list Z)
    (token_baseline_mses : list (Z * Q))
    (token_ablation_mses : list (Z * list (Z * Q)))
  : Result (list (EdgeGroup * Q)) :=
  let? token_mse_increases :=
    rfold (fun increases '(down_token, upstream_token_mses) =>
             rfold (fun increases '(up_token, token_mse) =>
                      let? baseline_mse :=
                        of_option KeyError (dget token_baseline_mses down_token) in
                      Ok (dupd down_token (dset up_token (token_mse - baseline_mse)%Q)
                               [] increases))
                   (sorted (fun x y => Z.leb x.1 y.1) upstream_token_mses) increases)
          (sorted (fun x y => Z.leb x.1 y.1) token_ablation_mses) [] in
  let '(token_mse_increases, min_mse_increases, max_mse_increases) :=
    fold_left (fun '(increases, mins, maxs) down_token =>
                 let increases := dupd down_token (fun d => d) [] increases in
                 let token_mses := values (default [] (dget increases down_token)) in
                 (increases,
                  dset down_token (py_min_list token_mses 0) mins,
                  dset down_token (py_max_list token_mses 0) maxs))
              downstream_token_idxs
              (token_mse_increases, [], []) in
  let? _ :=
    rfold (fun _ down_token =>
             let? _ := of_option KeyError (dget token_baseline_mses down_token) in
             let? _ := of_option KeyError (dget min_mse_increases down_token) in
             let? _ := of_option KeyError (dget max_mse_increases down_token) in
             Ok tt)
          downstream_token_idxs tt in
  rfold (fun importance '(down_token, token_mses) =>
           rfold (fun importance '(up_token, mse_increase) =>
                    let edge_group := mkEdgeGroup up_layer up_token down_token in
                    let mse_increase := py_max mse_increase 0 in
                    let? token_max :=
                      of_option KeyError (dget max_mse_increases down_token) in
                    let max_mse_increase := py_max token_max epsilon in
                    let? value := py_div mse_increase max_mse_increase in
                    Ok (dset edge_group value importance))
                 token_mses importance)
        token_mse_increases [].

(** [compute_token_importance]. *)
Definition compute_token_importance
    (all_edges : list Edge) (downstream_nodes : list Node)
    (baseline_mses : list (Node * Q)) (upstream_magnitudes : Tensor2)
    (downstream_means : list (Node * Q)) (target_token_idx : Z)
  : M (list (EdgeGroup * Q)) :=
  let* first := lift (next_iter downstream_nodes) in
  let up_layer := layer_idx first - 1 in
  let downstream_token_idxs :=
    sorted Z.leb (set_of_list (token_idx <$> downstream_nodes)) in
  let* token_baseline_mses :=
    lift (rfold (fun d down_token =>
                   let baseline_node_mses :=
                     values (filter (fun kv => token_idx kv.1 = down_token) baseline_mses) in
                   let? mean := py_average baseline_node_mses in
                   Ok (dset down_token mean d))
                downstream_token_idxs []) in
  let* token_ablation_mses :=
    estimate_token_ablation_effects downstream_nodes all_edges
      upstream_magnitudes downstream_means target_token_idx in
  lift (normalize_token_mses up_layer downstream_token_idxs
          token_baseline_mses token_ablation_mses).

(** [search]. *)
Definition search (tokens : list Z) (upstream_nodes downstream_nodes : list Node)
    (target_token_idx : Z) : M EdgeSearchResult :=
  let* _ := lift (py_assert (0 <? Z.of_nat (length downstream_nodes))) in
  let* first := lift (next_iter downstream_nodes) in
  let downstream_idx := layer_idx first in
  let upstream_idx := downstream_idx - 1 in
  let* upstream_magnitudes := call_model tokens upstream_idx in
  let all_edges := causal_edges upstream_nodes downstream_nodes in
  let* downstream_means :=
    estimate_downstream_node_means downstream_nodes all_edges
      upstream_magnitudes target_token_idx in
  let* baseline_mses :=
    estimate_downstream_node_mses downstream_nodes all_edges
      upstream_magnitudes downstream_means target_token_idx in
  let* edge_imp :=
    compute_edge_importance all_edges downstream_nodes baseline_mses
      upstream_magnitudes downstream_means target_token_idx in
  let* token_imp :=
    compute_token_importance all_edges downstream_nodes baseline_mses
      upstream_magnitudes downstream_means target_token_idx in
  ret (mkEdgeSearchResult edge_imp token_imp).
End Engine.

Arguments World : clear implicits.
Arguments M : clear implicits.

(** The trace only grows: [extends P c] when what the computation [c] adds
    to the trace satisfies [P], whether [c] returns or raises. *)
Definition extends `{self : EdgeSearch} (P : list Event -> Prop) {A} (c : M self A)
  : Prop :=
  ∀ w, ∃ new, trace (c w).2 = trace w ++ new ∧ P new.



(** The upstream layer that the engine derives from the downstream nodes. *)
Definition upstream_layer_of (downstream_nodes : list Node) : Z :=
  match downstream_nodes with
  | first :: _ => layer_idx first - 1
  | [] => 0
  end.

(** ** The vocabulary of the specification *)

(** The causal constraint: no edge runs from a later token to an earlier
    one. *)
Definition causal (e : Edge) : Prop :=
  token_idx (upstream e) <= token_idx (downstream e).

(** The causal enumeration over [upstream_nodes x downstream_nodes]. *)
Definition candidate_edge (upstream_nodes downstream_nodes : list Node) (e : Edge)
  : Prop :=
  upstream e ∈ upstream_nodes ∧ downstream e ∈ downstream_nodes ∧ causal e.

(** The group of an edge: its upstream layer and token and its downstream
    token. *)
Definition group_of (e : Edge) : EdgeGroup :=
  mkEdgeGroup (layer_idx (upstream e)) (token_idx (upstream e))
              (token_idx (downstream e)).

Definition causal_group (g : EdgeGroup) : Prop :=
  upstream_token_idx g <= downstream_token_idx g.

(** [m] is the largest raw increase among the edges into [node]: the errors
    [ablation_mses] under the ablation of each edge, less the baseline error
    [b] of the node. *)
Definition edge_sibling_maximum (ablation_mses : list (Edge * Q)) (b : Q)
    (node : Node) (m : Q) : Prop :=
  (∃ e x, dget ablation_mses e = Some x ∧ downstream e = node ∧ m = (x - b)%Q) ∧
  (∀ e x, dget ablation_mses e = Some x → downstream e = node → (x - b <= m)%Q).

(** [m] is the largest raw increase among the upstream tokens that feed the
    downstream token [dt]: the averaged errors [T[dt][ut]] under the ablation
    of each upstream token, less the averaged baseline error [b] of [dt]. *)
Definition token_sibling_maximum (T : list (Z * list (Z * Q))) (b : Q)
    (dt : Z) (m : Q) : Prop :=
  (∃ ut x, dget2 T dt ut = Some x ∧ m = (x - b)%Q) ∧
  (∀ ut x, dget2 T dt ut = Some x → (x - b <= m)%Q).

(** The upstream tokens that [estimate_token_ablation_effects] ablates, in
    the order of its loop, and the downstream nodes that an upstream token
    feeds. *)
Definition ablated_tokens (all_edges : list Edge) : list Z :=
  sorted Z.leb (set_of_list ((fun edge => token_idx (upstream edge)) <$> all_edges)).

Definition fed_nodes (all_edges : list Edge) (token : Z) : list Node :=
  set_of_list (downstream <$>
    filter (fun edge => token_idx (upstream edge) = token) all_edges).

(** The errors per downstream node that the loop of
    [estimate_token_ablation_effects] estimates, one dictionary per ablated
    upstream token: the calls of that loop, in its order, without the
    aggregation per token pair. *)
Definition token_errors `{self : EdgeSearch}
    (downstream_nodes : list Node) (all_edges : list Edge)
    (upstream_magnitudes : Tensor2) (downstream_means : list (Node * Q))
    (target_token_idx : Z) (tokens : list Z)
  : M self (list (Z * list (Node * Q))) :=
  foldM (fun acc token =>
           bind (estimate_downstream_node_mses downstream_nodes
                   (filter (fun edge => token_idx (upstream edge) ≠ token) all_edges)
                   upstream_magnitudes downstream_means target_token_idx)
                (fun estimated_mses => ret (acc ++ [(token, estimated_mses)])))
        tokens [].

(** The error of a node in a dictionary of errors (0 when it has none). *)
Definition error_of (mses : list (Node * Q)) (node : Node) : Q :=
  default 0%Q (dget mses node).

(** The errors that [search] measures before it normalizes the edges: the
    baseline error per downstream node and the error under the ablation of
    each edge.  These are the steps of [search] up to the call of
    [estimate_edge_ablation_effects], in its order. *)
Definition edge_errors `{self : EdgeSearch}
    (tokens : list Z) (upstream_nodes downstream_nodes : list Node)
    (target_token_idx : Z) : M self (list (Node * Q) * list (Edge * Q)) :=
  let all_edges := causal_edges upstream_nodes downstream_nodes in
  bind (lift (next_iter downstream_nodes)) (fun first =>
  bind (call_model tokens (layer_idx first - 1)) (fun magnitudes =>
  bind (estimate_downstream_node_means downstream_nodes all_edges magnitudes
          target_token_idx) (fun means =>
  bind (estimate_downstream_node_mses downstream_nodes all_edges magnitudes means
          target_token_idx) (fun baseline_mses =>
  bind (estimate_edge_ablation_effects downstream_nodes all_edges magnitudes means
          target_token_idx) (fun ablation_mses =>
  ret (baseline_mses, ablation_mses)))))).

(** The sample counts of the requests to the ablator in a trace. *)
Definition patch_requests (events : list Event) : list Z :=
  omap (fun event => match event with
                     | EvPatch _ _ _ n => Some n
                     | _ => None
                     end) events.

(** The sample count that the specification states for
    [estimate_downstream_node_means]: four times the configured count, capped
    by the pool when it is finite. *)
Definition stated_request (samples : Z) (pool : option Z) : Z :=
  match pool with
  | Some p => Z.min (4 * samples) p
  | None => 4 * samples
  end.

(** The errors that [search] measures before it normalizes the token pairs:
    the baseline error per downstream node and, per ablated upstream token,
    the error of each downstream node.  These are the steps of [search], in
    its order, with the aggregation of [estimate_token_ablation_effects] left
    out. *)
Definition token_ablation_errors `{self : EdgeSearch}
    (tokens : list Z) (upstream_nodes downstream_nodes : list Node)
    (target_token_idx : Z)
  : M self (list (Node * Q) * list (Z * list (Node * Q))) :=
  let all_edges := causal_edges upstream_nodes downstream_nodes in
  bind (lift (next_iter downstream_nodes)) (fun first =>
  bind (call_model tokens (layer_idx first - 1)) (fun magnitudes =>
  bind (estimate_downstream_node_means downstream_nodes all_edges magnitudes
          target_token_idx) (fun means =>
  bind (estimate_downstream_node_mses downstream_nodes all_edges magnitudes means
          target_token_idx) (fun baseline_mses =>
  bind (compute_edge_importance all_edges downstream_nodes baseline_mses magnitudes
          means target_token_idx) (fun _ =>
  bind (token_errors downstream_nodes all_edges magnitudes means target_token_idx
          (ablated_tokens all_edges)) (fun estimates =>
  ret (baseline_mses, estimates))))))).

(** The increase that the ablation of an upstream token causes at the
    downstream token [dt]: the average, over the downstream nodes at [dt], of
    the node's error under the ablation less the node's baseline error. *)
Definition token_increase (ablated baseline : list (Node * Q))
    (downstream_nodes : list Node) (dt : Z) : Q :=
  let at_token := filter (fun node => token_idx node = dt) downstream_nodes in
  (Qsum ((fun node => error_of ablated node - error_of baseline node) <$> at_token)
   / inject_Z (Z.of_nat (length at_token)))%Q.


(** The normalized error of one node as the specification states it: the
    mean over the samples of [(coeff * (sample - reference_mean))^2] with the
    coefficient [1 / feature_max] of the node's own feature. *)
Definition stated_normalized_mse (feature_max : Q) (magnitudes : list Q)
    (reference_mean : Q) : Q :=
  (Qsum ((fun m => ((1 / feature_max) * (m - reference_mean)) ^ 2) <$> magnitudes)
   / inject_Z (Z.of_nat (length magnitudes)))%Q.

(** ** The vocabulary of the traces *)

(** The token lists of the runs of the model in a trace. *)
Definition forward_calls (events : list Event) : list (list Z) :=
  omap (fun event => match event with
                     | EvForward tokens => Some tokens
                     | _ => None
                     end) events.

(** The events of one sampling that asks for [n] samples: one request to the
    ablator and no run of the model. *)
Definition one_request (n : Z) (events : list Event) : Prop :=
  patch_requests events = [n] ∧ forward_calls events = [].

(** The events of [k] samplings that ask for [n] samples each. *)
Definition requests (k : nat) (n : Z) (events : list Event) : Prop :=
  patch_requests events = replicate k n ∧ forward_calls events = [].

(** ** A small instance of the collaborators

    A deterministic stand-in used to run the engine on concrete inputs: the
    model reads one feature pair per token, the ablator keeps the magnitudes
    of the nodes of a variant and replaces the others by a background value
    that alternates with the sample number and the number of earlier calls,
    and a downstream magnitude accumulates the upstream magnitudes of the
    tokens up to its own. *)
Module Demo.
Definition forward (tokens : list Z) (layer : Z) : option Tensor2 :=
  Some ((fun tok => [inject_Z tok; 1%Q]) <$> tokens).

Definition background (calls sample : nat) : Q :=
  inject_Z (Z.of_nat ((calls + sample) mod 2)).

Definition patch_one (calls : nat) (layer : Z) (variant : Circuit)
    (magnitudes : Tensor2) (sample : nat) : Tensor2 :=
  imap (fun t row =>
          imap (fun f x =>
                  if bool_decide (mkNode layer (Z.of_nat t) (Z.of_nat f) ∈ nodes variant)
                  then x else background calls sample) row)
       magnitudes.

Definition patch (calls : nat) (layer target : Z) (variants : list Circuit)
    (magnitudes : Tensor2) (n : Z)
  : option (list (Circuit * Tensor3) * nat) :=
  Some ((fun variant =>
           (variant, patch_one calls layer variant magnitudes <$> seq 0 (Z.to_nat n)))
          <$> variants,
        S calls).

Definition recompute (layer : Z) (patched : Tensor3) : option Tensor3 :=
  Some ((fun sample : Tensor2 =>
           (fun t => let total := Qred (Qsum (concat (take (S t) sample))) in
                     [total; Qred (2 * total)])
             <$> seq 0 (length sample))
          <$> patched).

Definition engine (feature_max : Z -> option Q) (samples : Z) (pool : option Z)
  : EdgeSearch :=
  {| RNG := nat;
     model_feature_magnitudes := forward;
     patch_feature_magnitudes := patch;
     compute_downstream_magnitudes := recompute;
     model_profile := fun _ => Some feature_max;
     num_samples := samples;
     k_nearest := pool |}.

Definition start (self : EdgeSearch) (g : @RNG self) : World self := mkWorld g [].

Definition upstream_nodes : list Node :=
  [mkNode 0 0 0; mkNode 0 1 0; mkNode 0 2 0].
Definition downstream_nodes : list Node :=
  [mkNode 1 1 0; mkNode 1 2 1].
Definition tokens : list Z := [3; 5; 7].

(** Every feature has maximum 1; two samples; an unbounded pool. *)
Definition unit_engine : EdgeSearch := engine (fun _ => Some 1%Q) 2 None.

(** Every feature has maximum 10^6, so that all errors are tiny. *)
Definition faint_engine : EdgeSearch :=
  engine (fun _ => Some (inject_Z (10 ^ 6))) 2 None.

Definition result_of (self : EdgeSearch) (w : World self) (tokens : list Z)
    (up down : list Node) (target : Z) : EdgeSearchResult :=
  match (search tokens up down target w).1 with
  | Ok r => r
  | Raise _ => mkEdgeSearchResult [] []
  end.

Definition errors_of (self : EdgeSearch) (w : World self) (tokens : list Z)
    (up down : list Node) (target : Z) : list (Node * Q) * list (Edge * Q) :=
  match (edge_errors tokens up down target w).1 with
  | Ok p => p
  | Raise _ => ([], [])
  end.

Definition unit_result : EdgeSearchResult :=
  Eval vm_compute in
    result_of unit_engine (start unit_engine 0%nat) tokens
      upstream_nodes downstream_nodes 2.

(** One token, one upstream node and one downstream node, hence one edge.
    The upstream magnitudes are [[3; 1]].  With the edge, the samples of the
    downstream node are [3 + b] for the background [b] of the sample; without
    it they are [2 * b].  The backgrounds of the successive calls are
    0, 1, 0, 1, ... (the mean: 7/2), then 1, 0 (the baseline), then 0, 1 (the
    ablation of the edge): the squared deviations from the mean have average
    1/4 for the baseline and (49/4 + 9/4) / 2 = 29/4 for the ablation, a raw
    increase of 7 times the squared coefficient. *)
Definition lone_tokens : list Z := [3].
Definition lone_upstream : list Node := [mkNode 0 0 0].
Definition lone_downstream : list Node := [mkNode 1 0 0].
Definition lone_edge : Edge := mkEdge (mkNode 0 0 0) (mkNode 1 0 0).

Definition lone_unit_result : EdgeSearchResult :=
  Eval vm_compute in
    result_of unit_engine (start unit_engine 0%nat) lone_tokens
      lone_upstream lone_downstream 0.
Definition lone_unit_errors : list (Node * Q) * list (Edge * Q) :=
  Eval vm_compute in
    errors_of unit_engine (start unit_engine 0%nat) lone_tokens
      lone_upstream lone_downstream 0.
Definition lone_faint_result : EdgeSearchResult :=
  Eval vm_compute in
    result_of faint_engine (start faint_engine 0%nat) lone_tokens
      lone_upstream lone_downstream 0.
Definition lone_faint_errors : list (Node * Q) * list (Edge * Q) :=
  Eval vm_compute in
    errors_of faint_engine (start faint_engine 0%nat) lone_tokens
      lone_upstream lone_downstream 0.

(** One sample and a pool of size zero; an ablator that refuses every
    request, with more than 10^10 / 4 samples and an unbounded pool. *)
Definition empty_pool_engine : EdgeSearch := engine (fun _ => Some 1%Q) 1 (Some 0).
Definition refusing_engine : EdgeSearch :=
  {| RNG := nat;
     model_feature_magnitudes := forward;
     patch_feature_magnitudes := fun _ _ _ _ _ _ => None;
     compute_downstream_magnitudes := recompute;
     model_profile := fun _ => Some (fun _ => Some 1%Q);
     num_samples := 3 * 10 ^ 9;
     k_nearest := None |}.

(** Feature 0 has maximum 2 and every other feature maximum 4; two
    downstream nodes at one token, of features 0 and 1, without edges, and
    the means of their samples. *)
Definition skewed_engine : EdgeSearch :=
  engine (fun f => Some (if f =? 0 then 2 else 4)%Q) 2 None.
Definition sibling_nodes : list Node := [mkNode 1 0 0; mkNode 1 0 1].
Definition sibling_means : list (Node * Q) :=
  [(mkNode 1 0 0, 1%Q); (mkNode 1 0 1, 2%Q)].

(** A model that fails on every input. *)
Definition mute_engine : EdgeSearch :=
  {| RNG := nat;
     model_feature_magnitudes := fun _ _ => None;
     patch_feature_magnitudes := patch;
     compute_downstream_magnitudes := recompute;
     model_profile := fun _ => Some (fun _ => Some 1%Q);
     num_samples := 2;
     k_nearest := None |}.

(** The errors that [search] measures on the three upstream and the two
    downstream nodes: per edge, and per ablated upstream token. *)
Definition unit_errors : list (Node * Q) * list (Edge * Q) :=
  Eval vm_compute in
    errors_of unit_engine (start unit_engine 0%nat) tokens
      upstream_nodes downstream_nodes 2.

Definition token_errors_of (self : EdgeSearch) (w : World self) (tokens : list Z)
    (up down : list Node) (target : Z)
  : list (Node * Q) * list (Z * list (Node * Q)) :=
  match (token_ablation_errors tokens up down target w).1 with
  | Ok p => p
  | Raise _ => ([], [])
  end.

Definition unit_token_errors : list (Node * Q) * list (Z * list (Node * Q)) :=
  Eval vm_compute in
    token_errors_of unit_engine (start unit_engine 0%nat) tokens
      upstream_nodes downstream_nodes 2.

(** The errors of the two sibling nodes under the skewed maxima, and the
    samples they are computed from. *)
Definition sibling_mses : list (Node * Q) :=
  Eval vm_compute in
    match (estimate_downstream_node_mses (self := skewed_engine) sibling_nodes []
             [[3; 1]]%Q sibling_means 0 (start skewed_engine 0%nat)).1 with
    | Ok mses => mses
    | Raise _ => []
    end.

(** The samples of the two downstream nodes under all candidate edges. *)
Definition unit_samples : list (Node * list Q) :=
  Eval vm_compute in
    match (sample_downstream_feature_magnitudes (self := unit_engine)
             downstream_nodes (causal_edges upstream_nodes downstream_nodes)
             [[3; 1]; [5; 1]; [7; 1]]%Q 2 2 (start unit_engine 0%nat)).1 with
    | Ok sampled => sampled
    | Raise _ => []
    end.
End Demo.

(** * Properties *)

(** ** Facts about the containers *)

Section ContainerFacts.
Context {A : Type} `{EqDecision A}.
Implicit Types (l s : list A) (x y : A).

Lemma insert_sorted_perm (leb : A -> A -> bool) x l :
  insert_sorted leb x l ≡ₚ x :: l.
Proof.
  induction l as [|y l IH]; simpl; [done|].
  destruct (leb x y); [done|]. rewrite IH. apply Permutation_swap.
Qed.

Lemma sorted_perm (leb : A -> A -> bool) l : sorted leb l ≡ₚ l.
Proof.
  induction l as [|x l IH]; simpl; [done|].
  rewrite insert_sorted_perm. by rewrite IH.
Qed.

Lemma elem_of_sorted (leb : A -> A -> bool) l x : x ∈ sorted leb l ↔ x ∈ l.
Proof. by rewrite sorted_perm. Qed.

Lemma NoDup_sorted (leb : A -> A -> bool) l : NoDup l → NoDup (sorted leb l).
Proof. by rewrite sorted_perm. Qed.

Lemma elem_of_set_add x y s : y ∈ set_add x s ↔ y = x ∨ y ∈ s.
Proof.
  unfold set_add. case_bool_decide; [|rewrite elem_of_app, list_elem_of_singleton];
    naive_solver.
Qed.

Lemma NoDup_set_add x s : NoDup s → NoDup (set_add x s).
Proof.
  intros Hs. unfold set_add. case_bool_decide; [done|].
  apply NoDup_app. split_and!; [done| |apply NoDup_singleton].
  intros y Hy ->%list_elem_of_singleton. done.
Qed.

Lemma set_of_list_acc l s y :
  y ∈ fold_left (fun s x => set_add x s) l s ↔ y ∈ l ∨ y ∈ s.
Proof.
  revert s. induction l as [|x l IH]; intros s; simpl.
  - rewrite elem_of_nil. naive_solver.
  - rewrite IH, elem_of_set_add, elem_of_cons. naive_solver.
Qed.

Lemma elem_of_set_of_list l y : y ∈ set_of_list l ↔ y ∈ l.
Proof.
  unfold set_of_list. rewrite set_of_list_acc, elem_of_nil. naive_solver.
Qed.

Lemma NoDup_set_of_list l : NoDup (set_of_list l).
Proof.
  unfold set_of_list. generalize (NoDup_nil_2 (A:=A)). generalize (@nil A).
  induction l as [|x l IH]; intros s Hs; simpl; [done|].
  apply IH. by apply NoDup_set_add.
Qed.
End ContainerFacts.

Section DictFacts.
Context {K V : Type} `{EqDecision K}.
Implicit Types (d : list (K * V)) (k : K) (v : V).

Lemma dget_dupd k f dflt d k' :
  dget (dupd k f dflt d) k' =
    if decide (k = k') then Some (f (default dflt (dget d k))) else dget d k'.
Proof.
  induction d as [|[k0 v0] d IH]; simpl.
  - case_bool_decide; case_decide; naive_solver.
  - destruct (decide (k0 = k)) as [->|Hne].
    + rewrite bool_decide_eq_true_2 by done. simpl.
      case_bool_decide; case_decide; naive_solver.
    + rewrite (bool_decide_eq_false_2 (k0 = k)) by done. simpl.
      rewrite IH. case_bool_decide; case_decide; naive_solver.
Qed.

Lemma dget_dset k v d k' :
  dget (dset k v d) k' = if decide (k = k') then Some v else dget d k'.
Proof. unfold dset. by rewrite dget_dupd. Qed.

Lemma keys_dupd k f dflt d :
  keys (dupd k f dflt d) = if decide (k ∈ keys d) then keys d else keys d ++ [k].
Proof.
  unfold keys. induction d as [|[k0 v0] d IH]; csimpl.
  - done.
  - destruct (decide (k0 = k)) as [->|Hne].
    + rewrite bool_decide_eq_true_2 by done. csimpl.
      rewrite decide_True by apply list_elem_of_here. done.
    + rewrite (bool_decide_eq_false_2 (k0 = k)) by done. csimpl. rewrite IH.
      destruct (decide (k ∈ d.*1)) as [Hin|Hnin].
      * rewrite decide_True by (by apply list_elem_of_further). done.
      * rewrite decide_False; [done|].
        intros [?|?]%elem_of_cons; congruence.
Qed.

Lemma elem_of_keys_dupd k f dflt d k' :
  k' ∈ keys (dupd k f dflt d) ↔ k' = k ∨ k' ∈ keys d.
Proof.
  rewrite keys_dupd. case_decide; [|rewrite elem_of_app, list_elem_of_singleton];
    naive_solver.
Qed.

Lemma NoDup_keys_dupd k f dflt d : NoDup (keys d) → NoDup (keys (dupd k f dflt d)).
Proof.
  intros Hd. rewrite keys_dupd. case_decide; [done|].
  apply NoDup_app. split_and!; [done| |apply NoDup_singleton].
  intros y Hy ->%list_elem_of_singleton. done.
Qed.

Lemma dget_Some_elem d k v : dget d k = Some v → (k, v) ∈ d.
Proof.
  induction d as [|[k0 v0] d IH]; simpl; [done|].
  case_bool_decide; intros Hg; simplify_eq.
  - apply list_elem_of_here.
  - apply list_elem_of_further. auto.
Qed.

Lemma dget_None d k : dget d k = None ↔ k ∉ keys d.
Proof.
  unfold keys. induction d as [|[k0 v0] d IH]; simpl.
  - split; [intros _; apply not_elem_of_nil|done].
  - rewrite not_elem_of_cons. case_bool_decide; naive_solver.
Qed.

Lemma dget_is_Some d k : is_Some (dget d k) ↔ k ∈ keys d.
Proof.
  rewrite <- not_eq_None_Some, dget_None.
  destruct (decide (k ∈ keys d)); naive_solver.
Qed.

Lemma elem_dget d k v : NoDup (keys d) → (k, v) ∈ d → dget d k = Some v.
Proof.
  unfold keys. induction d as [|[k0 v0] d IH]; simpl; intros Hnd Hin.
  - by apply elem_of_nil in Hin.
  - apply NoDup_cons in Hnd as [Hk0 Hnd].
    apply elem_of_cons in Hin as [Heq|Hin]; simplify_eq.
    + by rewrite bool_decide_eq_true_2.
    + rewrite bool_decide_eq_false_2; [auto|].
      intros ->. apply Hk0. apply list_elem_of_fmap. by exists (k, v).
Qed.

Lemma elem_of_keys d k : k ∈ keys d ↔ ∃ v, (k, v) ∈ d.
Proof.
  unfold keys. rewrite list_elem_of_fmap. split.
  - intros [[k' v] [-> Hin]]. by exists v.
  - intros [v Hin]. by exists (k, v).
Qed.
End DictFacts.

(** ** Facts about loops *)

Section LoopFacts.
Context {A B : Type}.

Lemma fold_left_elem (step : list B -> A -> list B) (P : A -> B -> Prop) :
  (∀ acc x y, y ∈ step acc x ↔ P x y ∨ y ∈ acc) →
  ∀ l acc y, y ∈ fold_left step l acc ↔ (∃ x, x ∈ l ∧ P x y) ∨ y ∈ acc.
Proof.
  intros Hstep l. induction l as [|x l IH]; intros acc y; simpl.
  - setoid_rewrite elem_of_nil. naive_solver.
  - rewrite IH, Hstep. setoid_rewrite elem_of_cons. naive_solver.
Qed.

Lemma fold_left_inv {C : Type} (I : C -> Prop) (step : C -> A -> C) l acc :
  I acc → (∀ acc x, x ∈ l → I acc → I (step acc x)) → I (fold_left step l acc).
Proof.
  revert acc. induction l as [|x l IH]; intros acc Hacc Hstep; simpl; [done|].
  apply IH.
  - apply Hstep; [apply list_elem_of_here|done].
  - intros acc' x' Hx'. apply Hstep. by apply list_elem_of_further.
Qed.

Lemma rfold_inv {C : Type} (I : C -> Prop) (f : C -> A -> Result C) l b r :
  I b →
  (∀ b x b', x ∈ l → I b → f b x = Ok b' → I b') →
  rfold f l b = Ok r → I r.
Proof.
  revert b. induction l as [|x l IH]; intros b Hb Hstep; simpl.
  - by intros [= <-].
  - destruct (f b x) as [b'|e] eqn:Hf; simpl; [|done].
    apply IH.
    + eapply Hstep; [apply list_elem_of_here|done..].
    + intros b0 x0 b0' Hx0. apply Hstep. by apply list_elem_of_further.
Qed.

Lemma rmap_elem (f : A -> Result B) l r y :
  rmap f l = Ok r → (y ∈ r ↔ ∃ x, x ∈ l ∧ f x = Ok y).
Proof.
  revert r. induction l as [|x l IH]; intros r; simpl.
  - intros [= <-]. setoid_rewrite elem_of_nil. naive_solver.
  - destruct (f x) as [y0|] eqn:Hf; simpl; [|done].
    destruct (rmap f l) as [ys|] eqn:Hm; simpl; [|done].
    intros [= <-]. rewrite elem_of_cons, (IH ys eq_refl).
    setoid_rewrite elem_of_cons. split.
    + intros [->|(x' & ? & ?)]; eauto.
    + intros (x' & [->|?] & Hx'); [left; congruence|eauto].
Qed.
End LoopFacts.

Lemma rbind_Ok {A B} (c : Result A) (f : A -> Result B) b :
  rbind c f = Ok b ↔ ∃ a, c = Ok a ∧ f a = Ok b.
Proof. destruct c; simpl; naive_solver. Qed.

Lemma of_option_Ok {A} (e : Err) (o : option A) a : of_option e o = Ok a ↔ o = Some a.
Proof. destruct o; simpl; naive_solver. Qed.

Lemma rfold_each {A B} (f : B -> A -> Result B) l b r x :
  rfold f l b = Ok r → x ∈ l → ∃ b0 b1, f b0 x = Ok b1.
Proof.
  revert b. induction l as [|y l IH]; intros b; simpl.
  - by intros _ ?%elem_of_nil.
  - intros (b' & Hf & Hrest)%rbind_Ok [->|Hin]%elem_of_cons; eauto.
Qed.

Section DictOfFacts.
Context {K V : Type} `{EqDecision K}.

Lemma dict_of_acc (f : K -> V) l d k :
  dget (fold_left (fun d k => dset k (f k) d) l d) k =
    if decide (k ∈ l) then Some (f k) else dget d k.
Proof.
  revert d. induction l as [|x l IH]; intros d; simpl.
  - done.
  - rewrite IH, dget_dset.
    destruct (decide (k ∈ l)) as [Hin|Hnin].
    + by rewrite decide_True by (by apply list_elem_of_further).
    + destruct (decide (x = k)) as [->|Hne].
      * by rewrite decide_True by apply list_elem_of_here.
      * rewrite decide_False; [done|]. intros [?|?]%elem_of_cons; congruence.
Qed.

Lemma dget_dict_of (f : K -> V) l k :
  dget (dict_of f l) k = if decide (k ∈ l) then Some (f k) else None.
Proof. unfold dict_of. by rewrite dict_of_acc. Qed.

Lemma NoDup_keys_dict_of (f : K -> V) l : NoDup (keys (dict_of f l)).
Proof.
  unfold dict_of. apply fold_left_inv; [apply NoDup_nil_2|].
  intros acc x _ Hacc. by apply NoDup_keys_dupd.
Qed.

Lemma elem_of_keys_dict_of (f : K -> V) l k : k ∈ keys (dict_of f l) ↔ k ∈ l.
Proof.
  rewrite <- dget_is_Some, dget_dict_of. case_decide; [naive_solver|].
  split; [by intros [? ?]|done].
Qed.

Lemma elem_of_dict_of (f : K -> V) l k v : (k, v) ∈ dict_of f l → v = f k.
Proof.
  intros Hin. apply elem_dget in Hin; [|apply NoDup_keys_dict_of].
  rewrite dget_dict_of in Hin. case_decide; congruence.
Qed.
End DictOfFacts.

(** ** Facts about the engine monad *)

Section MonadFacts.
Context {self : EdgeSearch}.

Lemma bind_Ok {A B} (c : M self A) (f : A -> M self B) w b w' :
  bind c f w = (Ok b, w') ↔ ∃ a w1, c w = (Ok a, w1) ∧ f a w1 = (Ok b, w').
Proof.
  unfold bind. destruct (c w) as [[a|e] w1]; split.
  - intros Hf. by exists a, w1.
  - by intros (a' & w1' & [= -> ->] & Hf).
  - done.
  - by intros (a' & w1' & [=] & _).
Qed.

Lemma run_Ok {A} (c : M self A) w a : (c w).1 = Ok a ↔ ∃ w', c w = (Ok a, w').
Proof.
  destruct (c w) as [r w1]. simpl. split; [intros ->; eauto|by intros [? [= -> _]]].
Qed.

Lemma lift_Ok {A} (r : Result A) w a w' :
  lift r w = (Ok a, w') ↔ r = Ok a ∧ w' = w.
Proof. unfold lift. naive_solver. Qed.

Lemma ret_Ok {A} (a : A) w b w' : ret a w = (Ok b, w') ↔ b = a ∧ w' = w.
Proof. unfold ret. naive_solver. Qed.

Lemma extends_bind {A B} (P Q R : list Event -> Prop)
    (c : M self A) (f : A -> M self B) :
  extends P c → (∀ a, extends Q (f a)) →
  (∀ new, P new → R new) → (∀ n1 n2, P n1 → Q n2 → R (n1 ++ n2)) →
  extends R (bind c f).
Proof.
  intros Hc Hf HPR HPQR w. unfold bind.
  destruct (Hc w) as (n1 & Hn1 & HP). destruct (c w) as [[a|e] w1]; simpl in *.
  - destruct (Hf a w1) as (n2 & Hn2 & HQ). exists (n1 ++ n2).
    rewrite Hn2, Hn1, <- (assoc_L (++)). auto.
  - exists n1. auto.
Qed.

Lemma extends_lift {A} (P : list Event -> Prop) (r : Result A) :
  P [] → extends P (lift r).
Proof. intros HP w. exists []. by rewrite app_nil_r. Qed.

Lemma extends_ret {A} (P : list Event -> Prop) (a : A) :
  P [] → extends P (ret a).
Proof. intros HP w. exists []. by rewrite app_nil_r. Qed.


Lemma extends_foldM {A B} (P : list Event -> Prop) (f : B -> A -> M self B) l b :
  P [] → (∀ n1 n2, P n1 → P n2 → P (n1 ++ n2)) →
  (∀ b x, extends P (f b x)) →
  extends P (foldM f l b).
Proof.
  intros Hnil Happ Hf. revert b. induction l as [|x l IH]; intros b; simpl.
  - by apply extends_ret.
  - eapply extends_bind; eauto.
Qed.
End MonadFacts.

(** ** Loops with a processed prefix *)

Section PrefixInduction.
Context {A B : Type}.

Lemma rfold_ind (I : list A -> B -> Prop) (f : B -> A -> Result B) l b r :
  I [] b →
  (∀ pre x suf b b',
     l = pre ++ x :: suf → I pre b → f b x = Ok b' → I (pre ++ [x]) b') →
  rfold f l b = Ok r → I l r.
Proof.
  intros Hb Hstep.
  cut (∀ suf pre b, l = pre ++ suf → I pre b → rfold f suf b = Ok r → I l r).
  { intros Hcut. by apply (Hcut l [] b). }
  induction suf as [|x suf IH]; intros pre b0 Hl Hpre; simpl.
  - intros [= <-]. by rewrite Hl, app_nil_r.
  - destruct (f b0 x) as [b'|e] eqn:Hf; simpl; [|done].
    apply (IH (pre ++ [x])).
    + by rewrite <- (assoc_L (++)).
    + by eapply Hstep.
Qed.

Lemma fold_left_ind (I : list A -> B -> Prop) (f : B -> A -> B) l b :
  I [] b →
  (∀ pre x suf b, l = pre ++ x :: suf → I pre b → I (pre ++ [x]) (f b x)) →
  I l (fold_left f l b).
Proof.
  intros Hb Hstep.
  cut (∀ suf pre b, l = pre ++ suf → I pre b → I l (fold_left f suf b)).
  { intros Hcut. by apply (Hcut l [] b). }
  induction suf as [|x suf IH]; intros pre b0 Hl Hpre; simpl.
  - by rewrite Hl, app_nil_r.
  - apply (IH (pre ++ [x])).
    + by rewrite <- (assoc_L (++)).
    + by eapply Hstep.
Qed.

Lemma foldM_ind `{self : EdgeSearch} (I : list A -> B -> World self -> Prop)
    (f : B -> A -> M self B) l b w r w' :
  I [] b w →
  (∀ pre x suf b w b' w',
     l = pre ++ x :: suf → I pre b w → f b x w = (Ok b', w') →
     I (pre ++ [x]) b' w') →
  foldM f l b w = (Ok r, w') → I l r w'.
Proof.
  intros Hb Hstep.
  cut (∀ suf pre b w, l = pre ++ suf → I pre b w →
         foldM f suf b w = (Ok r, w') → I l r w').
  { intros Hcut. by apply (Hcut l [] b w). }
  induction suf as [|x suf IH]; intros pre b0 w0 Hl Hpre; simpl.
  - intros [-> ->]%ret_Ok. by rewrite Hl, app_nil_r.
  - intros (b1 & w1 & Hf & Hrest)%bind_Ok.
    apply (IH (pre ++ [x]) b1 w1).
    + by rewrite <- (assoc_L (++)).
    + by eapply Hstep.
    + done.
Qed.
End PrefixInduction.

(** ** Loops that fill a dictionary *)

Section DictLoops.
Context {K X Y : Type} `{EqDecision K}.

Lemma NoDup_fst_app_inv (pre suf : list (K * X)) k x :
  NoDup (pre ++ (k, x) :: suf).*1 → k ∉ pre.*1.
Proof.
  rewrite fmap_app, fmap_cons. intros (_ & Hdisj & _)%NoDup_app Hin.
  apply (Hdisj _ Hin). apply list_elem_of_here.
Qed.

(** [for k, x in l: d[k] = h(k, x)] from the empty dictionary. *)
Lemma rfold_dict_map (h : K -> X -> Result Y)
    (f : list (K * Y) -> K * X -> Result (list (K * Y))) l r :
  (∀ d k x, f d (k, x) = (let? y := h k x in Ok (dset k y d))) →
  NoDup l.*1 →
  rfold f l [] = Ok r →
  NoDup (keys r) ∧
  (∀ k y, dget r k = Some y ↔ ∃ x, (k, x) ∈ l ∧ h k x = Ok y) ∧
  (∀ k x, (k, x) ∈ l → ∃ y, h k x = Ok y).
Proof.
  intros Hf Hl Hr. rewrite (assoc (∧)). split; cycle 1.
  { intros k x Hin. eapply rfold_each in Hin as (d0 & d1 & Hstep); [|done].
    rewrite Hf in Hstep. apply rbind_Ok in Hstep as (y & ? & _). eauto. }
  apply (rfold_ind (fun pre d =>
    NoDup (keys d) ∧
    ∀ k y, dget d k = Some y ↔ ∃ x, (k, x) ∈ pre ∧ h k x = Ok y)) in Hr; [done| |].
  - split; [apply NoDup_nil_2|]. intros k y. simpl.
    setoid_rewrite elem_of_nil. naive_solver.
  - intros pre [k x] suf d d' Heq [Hnd Hd]. rewrite Hf.
    destruct (h k x) as [y|e] eqn:Hh; simpl; [|done]. intros [= <-].
    split; [by apply NoDup_keys_dupd|].
    assert (k ∉ pre.*1) as Hfresh.
    { eapply NoDup_fst_app_inv. by rewrite <- Heq. }
    intros k' y'. rewrite dget_dset.
    setoid_rewrite elem_of_app. setoid_rewrite list_elem_of_singleton.
    destruct (decide (k = k')) as [<-|Hne]; [|rewrite Hd]; split.
    + intros [= <-]. exists x. auto.
    + intros (x' & [Hin|[= <-]] & Hx'); [|congruence].
      destruct Hfresh. apply list_elem_of_fmap. by exists (k, x').
    + intros (x' & ? & ?). eauto.
    + intros (x' & [?|[= -> ->]] & ?); [eauto|done].
Qed.
End DictLoops.

(** ** Dictionaries of dictionaries *)

Section NestedDict.
Context {K1 K2 : Type} `{EqDecision K1, EqDecision K2}.

Lemma wf2_nil {X} : wf2 (@nil (K1 * list (K2 * X))).
Proof. split; [apply NoDup_nil_2|done]. Qed.

Lemma dget2_elem {X} (D : list (K1 * list (K2 * X))) a b x :
  wf2 D →
  dget2 D a b = Some x ↔ ∃ inner, (a, inner) ∈ D ∧ (b, x) ∈ inner.
Proof.
  intros [Hnd Hinner]. unfold dget2. split.
  - destruct (dget D a) as [inner|] eqn:Ha; simpl; [|done].
    intros Hb. exists inner. split; by apply dget_Some_elem.
  - intros (inner & Ha & Hb). apply elem_dget in Ha; [|done].
    rewrite Ha. simpl. apply elem_dget; [by eapply Hinner|done].
Qed.

Lemma dget2_dupd {X} (D : list (K1 * list (K2 * X))) a b (f : X -> X) dflt a' b' :
  dget2 (dupd a (dupd b f dflt) [] D) a' b' =
    if decide (a = a' ∧ b = b') then Some (f (default dflt (dget2 D a b)))
    else dget2 D a' b'.
Proof.
  unfold dget2. rewrite dget_dupd.
  destruct (decide (a = a')) as [<-|Hne]; simpl.
  - rewrite dget_dupd. destruct (dget D a) as [inner|]; simpl.
    + destruct (decide (b = b')) as [<-|Hne].
      * by rewrite decide_True.
      * rewrite decide_False by naive_solver. done.
    + destruct (decide (b = b')) as [<-|Hne].
      * by rewrite decide_True.
      * rewrite decide_False by naive_solver. done.
  - rewrite decide_False by naive_solver. done.
Qed.

Lemma wf2_dupd {X} (D : list (K1 * list (K2 * X))) a b (f : X -> X) dflt :
  wf2 D → wf2 (dupd a (dupd b f dflt) [] D).
Proof.
  intros [Hnd Hinner]. split; [by apply NoDup_keys_dupd|].
  intros a' inner'. rewrite dget_dupd. case_decide; [|by apply Hinner].
  intros [= <-]. apply NoDup_keys_dupd.
  destruct (dget D a) as [inner|] eqn:Ha; simpl; [by eapply Hinner|apply NoDup_nil_2].
Qed.

(** [for a, inner in D: for b, x in inner: R[a][b] = h(a, b, x)], each level
    in any order [o1], [o2] of the items. *)
Lemma rfold_nested_dict_map {X Y} (h : K1 -> K2 -> X -> Result Y)
    (outer : list (K1 * list (K2 * Y)) -> K1 * list (K2 * X) ->
             Result (list (K1 * list (K2 * Y))))
    (step : K1 -> list (K1 * list (K2 * Y)) -> K2 * X ->
            Result (list (K1 * list (K2 * Y))))
    (o1 : list (K1 * list (K2 * X)) -> list (K1 * list (K2 * X)))
    (o2 : list (K2 * X) -> list (K2 * X)) D R :
  (∀ l, o1 l ≡ₚ l) → (∀ l, o2 l ≡ₚ l) →
  (∀ acc a inner, outer acc (a, inner) = rfold (step a) (o2 inner) acc) →
  (∀ a acc b x, step a acc (b, x) =
                (let? y := h a b x in Ok (dupd a (dset b y) [] acc))) →
  wf2 D →
  rfold outer (o1 D) [] = Ok R →
  wf2 R ∧
  ∀ a b y, dget2 R a b = Some y ↔ ∃ x, dget2 D a b = Some x ∧ h a b x = Ok y.
Proof.
  intros Ho1 Ho2 Houter Hstep HD HR.
  apply (rfold_ind (fun pre R =>
    wf2 R ∧
    ∀ a b y, dget2 R a b = Some y ↔
      ∃ inner x, (a, inner) ∈ pre ∧ (b, x) ∈ inner ∧ h a b x = Ok y)) in HR.
  - destruct HR as [HwfR HR]. split; [done|]. intros a b y. rewrite HR.
    setoid_rewrite (dget2_elem D a b _ HD). setoid_rewrite Ho1. naive_solver.
  - split; [apply wf2_nil|]. intros a b y. setoid_rewrite elem_of_nil.
    unfold dget2. simpl. naive_solver.
  - intros pre [a0 inner0] suf acc acc' Heq [Hwf Hacc]. rewrite Houter.
    assert (NoDup (pre ++ (a0, inner0) :: suf).*1) as Hnd.
    { rewrite <- Heq, Ho1. apply HD. }
    assert (a0 ∉ pre.*1) as Hfresh by (by eapply NoDup_fst_app_inv).
    assert (NoDup (keys (o2 inner0))) as Hnd0.
    { unfold keys. rewrite Ho2. destruct HD as [HD1 HD2].
      apply (HD2 a0). apply elem_dget; [done|].
      rewrite <- (Ho1 D), Heq. rewrite elem_of_app, elem_of_cons. auto. }
    intros Hin.
    apply (rfold_ind (fun pre2 R =>
      wf2 R ∧
      ∀ a b y, dget2 R a b = Some y ↔
        (∃ inner x, (a, inner) ∈ pre ∧ (b, x) ∈ inner ∧ h a b x = Ok y) ∨
        (a = a0 ∧ ∃ x, (b, x) ∈ pre2 ∧ h a b x = Ok y))) in Hin.
    + destruct Hin as [Hwf' Hin]. split; [done|]. intros a b y. rewrite Hin.
      setoid_rewrite elem_of_app. setoid_rewrite list_elem_of_singleton.
      setoid_rewrite Ho2. split.
      * intros [(inner & x & ? & ? & ?)|(-> & x & ? & ?)]; [naive_solver|].
        exists inner0, x. auto.
      * intros (inner & x & [?|[= -> ->]] & ? & ?); [left|right]; eauto.
    + split; [done|]. intros a b y. rewrite Hacc.
      setoid_rewrite elem_of_nil. naive_solver.
    + intros pre2 [b0 x0] suf2 R0 R1 Heq2 [Hwf0 HR0]. rewrite Hstep.
      intros (y0 & Hy0 & [= <-])%rbind_Ok.
      split; [by apply wf2_dupd|].
      assert (b0 ∉ pre2.*1) as Hfresh2.
      { eapply NoDup_fst_app_inv. rewrite <- Heq2. apply Hnd0. }
      intros a b y. unfold dset. rewrite dget2_dupd.
      setoid_rewrite elem_of_app. setoid_rewrite list_elem_of_singleton.
      destruct (decide (a0 = a ∧ b0 = b)) as [[<- <-]|Hne]; [|rewrite HR0]; split.
      * intros [= <-]. right. split; [done|]. exists x0. auto.
      * intros [(inner & x & Hin' & _)|(_ & x & [Hin'|[= <-]] & Hx)].
        -- destruct Hfresh. apply list_elem_of_fmap. by exists (a0, inner).
        -- destruct Hfresh2. apply list_elem_of_fmap. by exists (b0, x).
        -- congruence.
      * intros [?|(-> & x & ? & ?)]; [by left|right; eauto].
      * intros [?|(-> & x & [?|[= -> ->]] & ?)]; [by left|right; eauto|].
        destruct Hne. done.
Qed.
End NestedDict.

(** ** Facts about magnitudes *)

Lemma py_max_ge_l a b : (a <= py_max a b)%Q.
Proof. unfold py_max. destruct (Qlt_le_dec a b); lra. Qed.

Lemma py_max_ge_r a b : (b <= py_max a b)%Q.
Proof. unfold py_max. destruct (Qlt_le_dec a b); lra. Qed.

Lemma py_max_cases a b : py_max a b = a ∨ py_max a b = b.
Proof. unfold py_max. destruct (Qlt_le_dec a b); auto. Qed.

Lemma py_max_l a b : (b <= a)%Q → py_max a b = a.
Proof. unfold py_max. destruct (Qlt_le_dec a b); [lra|done]. Qed.

Lemma py_max_fold_ge l x : (x <= fold_left py_max l x)%Q.
Proof.
  revert x. induction l as [|y l IH]; intros x; simpl; [lra|].
  pose proof (IH (py_max x y)). pose proof (py_max_ge_l x y). lra.
Qed.

Lemma py_max_fold_elem l x y : y ∈ l → (y <= fold_left py_max l x)%Q.
Proof.
  revert x. induction l as [|z l IH]; intros x; simpl.
  - by intros ?%elem_of_nil.
  - intros [->|Hin]%elem_of_cons; [|by apply IH].
    pose proof (py_max_fold_ge l (py_max x z)). pose proof (py_max_ge_r x z). lra.
Qed.

Lemma py_max_fold_in l x : fold_left py_max l x ∈ x :: l.
Proof.
  revert x. induction l as [|y l IH]; intros x; simpl; [apply list_elem_of_here|].
  specialize (IH (py_max x y)). apply elem_of_cons in IH as [IH|IH].
  - rewrite IH. destruct (py_max_cases x y) as [->| ->].
    + apply list_elem_of_here.
    + apply list_elem_of_further, list_elem_of_here.
  - by do 2 apply list_elem_of_further.
Qed.

(** [max(l, default=0)] bounds every element of [l] ... *)
Lemma py_max_list_ge l y : y ∈ l → (y <= py_max_list l 0)%Q.
Proof.
  destruct l as [|x l]; simpl; [by intros ?%elem_of_nil|].
  intros [->|Hin]%elem_of_cons; [apply py_max_fold_ge|by apply py_max_fold_elem].
Qed.

(** ... and is one of them unless [l] is empty. *)
Lemma py_max_list_in l : l ≠ [] → py_max_list l 0 ∈ l.
Proof. destruct l as [|x l]; [done|]. intros _. apply py_max_fold_in. Qed.

Lemma py_div_Ok a b v : py_div a b = Ok v → ¬ (b == 0)%Q ∧ v = (a / b)%Q.
Proof.
  unfold py_div. destruct (Qeq_bool b 0) eqn:Hb; [done|].
  intros [= <-]. split; [|done]. by apply Qeq_bool_neq.
Qed.


(** ** The candidate edges *)

Lemma elem_of_causal_edges up down e :
  e ∈ causal_edges up down ↔ candidate_edge up down e.
Proof.
  unfold causal_edges, candidate_edge, causal.
  rewrite (fold_left_elem _ (fun u e =>
    ∃ d, d ∈ down ∧ token_idx u <= token_idx d ∧ e = mkEdge u d)).
  - rewrite elem_of_nil. setoid_rewrite elem_of_sorted. split.
    + intros [(u & Hu & d & Hd & Hle & ->)|[]]. done.
    + intros (Hu & Hd & Hle). left. exists (upstream e). split; [done|].
      exists (downstream e). by destruct e.
  - intros acc u y.
    rewrite (fold_left_elem _ (fun d e =>
      token_idx u <= token_idx d ∧ e = mkEdge u d)).
    + setoid_rewrite elem_of_sorted. naive_solver.
    + intros acc' d y'. destruct (Z.leb_spec (token_idx u) (token_idx d)).
      * rewrite elem_of_set_add. naive_solver.
      * split; [by right|]. intros [[? _]|?]; [lia|done].
Qed.

Lemma NoDup_causal_edges up down : NoDup (causal_edges up down).
Proof.
  unfold causal_edges. apply fold_left_inv; [apply NoDup_nil_2|].
  intros acc u _ Hacc. apply fold_left_inv; [done|].
  intros acc' d _ Hacc'. destruct (_ <=? _); [by apply NoDup_set_add|done].
Qed.

Lemma elem_of_placeholder_groups up down g :
  g ∈ keys (token_importance (get_placeholders up down)) ↔
  ∃ e, candidate_edge up down e ∧ g = group_of e.
Proof.
  unfold get_placeholders. simpl. rewrite elem_of_keys_dict_of.
  rewrite (fold_left_elem _ (fun (b : Z * Z) g =>
    ∃ d, d ∈ down ∧ b.2 <= token_idx d ∧ g = mkEdgeGroup b.1 b.2 (token_idx d))).
  - rewrite elem_of_nil. setoid_rewrite elem_of_set_of_list.
    setoid_rewrite list_elem_of_fmap. unfold candidate_edge, causal, group_of. split.
    + intros [([ul ut] & (u & [= -> ->] & Hu) & d & Hd & Hle & ->)|[]].
      exists (mkEdge u d). done.
    + intros (e & (Hu & Hd & Hle) & ->). left.
      exists (layer_idx (upstream e), token_idx (upstream e)). split; [eauto|].
      exists (downstream e). done.
  - intros acc [ul ut] y. simpl.
    rewrite (fold_left_elem _ (fun dt g => g = mkEdgeGroup ul ut dt)).
    + setoid_rewrite elem_of_set_of_list. setoid_rewrite list_elem_of_fmap.
      setoid_rewrite list_elem_of_filter. naive_solver.
    + intros acc' dt y'. rewrite elem_of_set_add. naive_solver.
Qed.

(** C5. [get_placeholders] maps exactly the candidate edges (the pairs of an
    upstream and a downstream node with [upstream.token_idx <=
    downstream.token_idx]) to 1.0, and exactly the groups of those edges to
    0.0; no key occurs twice. *)
Theorem get_placeholders_coverage (upstream_nodes downstream_nodes : list Node) :
  let result := get_placeholders upstream_nodes downstream_nodes in
  (∀ e, e ∈ keys (edge_importance result) ↔
        candidate_edge upstream_nodes downstream_nodes e) ∧
  (∀ e v, (e, v) ∈ edge_importance result → v = 1%Q) ∧
  (∀ g, g ∈ keys (token_importance result) ↔
        ∃ e, candidate_edge upstream_nodes downstream_nodes e ∧ g = group_of e) ∧
  (∀ g v, (g, v) ∈ token_importance result → v = 0%Q) ∧
  NoDup (keys (edge_importance result)) ∧
  NoDup (keys (token_importance result)).
Proof.
  split_and!.
  - intros e. simpl. by rewrite elem_of_keys_dict_of, elem_of_causal_edges.
  - intros e v Hin. simpl in Hin. by apply elem_of_dict_of in Hin.
  - apply elem_of_placeholder_groups.
  - intros g v Hin. simpl in Hin. by apply elem_of_dict_of in Hin.
  - apply NoDup_keys_dict_of.
  - apply NoDup_keys_dict_of.
Qed.

(** ** Precondition of [search] *)

Section Precondition.
Context {self : EdgeSearch}.












End Precondition.

(** ** Dependency groups and sampling *)

Section Sampling.
Context {self : EdgeSearch}.

Lemma elem_of_node_to_dependencies down edges node deps :
  (node, deps) ∈ node_to_dependencies down edges ↔
  node ∈ down ∧ deps = dependencies edges node.
Proof.
  change (node_to_dependencies down edges) with (dict_of (dependencies edges) down).
  split.
  - intros Hin. split; [|by apply elem_of_dict_of in Hin].
    apply elem_of_keys_dict_of with (f := dependencies edges).
    apply elem_of_keys. eauto.
  - intros [Hin ->]. apply dget_Some_elem. rewrite dget_dict_of.
    by rewrite decide_True.
Qed.

(** A group of [dependencies_to_nodes] holds exactly the downstream nodes
    with that dependency set. *)
Lemma dependencies_to_nodes_spec down edges :
  let d2n := dependencies_to_nodes (node_to_dependencies down edges) in
  NoDup (keys d2n) ∧
  (∀ deps, deps ∈ keys d2n ↔ ∃ node, node ∈ down ∧ deps = dependencies edges node) ∧
  (∀ deps group, dget d2n deps = Some group →
     NoDup group ∧
     ∀ node, node ∈ group ↔ node ∈ down ∧ dependencies edges node = deps).
Proof.
  intros d2n. subst d2n. unfold dependencies_to_nodes.
  pose proof (fold_left_ind (fun pre (d : list (gset Node * list Node)) =>
    NoDup (keys d) ∧
    (∀ deps, deps ∈ keys d ↔ ∃ node, (node, deps) ∈ pre) ∧
    (∀ deps group, dget d deps = Some group →
       NoDup group ∧ ∀ node, node ∈ group ↔ (node, deps) ∈ pre))
    (fun d '(node, deps) => dupd deps (set_add node) [] d)
    (node_to_dependencies down edges) []) as Hind.
  destruct Hind as (Hnd & Hkeys & Hgroups).
  - split_and!; [apply NoDup_nil_2| |done].
    intros deps. simpl. setoid_rewrite elem_of_nil. naive_solver.
  - intros pre [node deps] suf d _ (Hnd & Hkeys & Hgroups). split_and!.
    + by apply NoDup_keys_dupd.
    + intros deps'. rewrite elem_of_keys_dupd, Hkeys.
      setoid_rewrite elem_of_app. setoid_rewrite list_elem_of_singleton.
      naive_solver.
    + intros deps' group. rewrite dget_dupd.
      setoid_rewrite elem_of_app. setoid_rewrite list_elem_of_singleton.
      case_decide as Hdeps; [|intros Hg; apply Hgroups in Hg; naive_solver].
      subst deps'. intros [= <-].
      destruct (dget d deps) as [group|] eqn:Hg; simpl.
      * apply Hgroups in Hg as [Hgnd Hg]. split; [by apply NoDup_set_add|].
        intros node'. rewrite elem_of_set_add, Hg. naive_solver.
      * split; [apply NoDup_set_add, NoDup_nil_2|].
        intros node'. rewrite elem_of_set_add, elem_of_nil.
        apply dget_None in Hg. rewrite Hkeys in Hg. naive_solver.
  - split_and!; [done| |].
    + intros deps. rewrite Hkeys.
      setoid_rewrite elem_of_node_to_dependencies. naive_solver.
    + intros deps group Hg. apply Hgroups in Hg as [? Hg]. split; [done|].
      intros node. rewrite Hg, elem_of_node_to_dependencies. naive_solver.
Qed.

(** The sampled magnitudes are keyed by downstream nodes, each once. *)
Lemma sample_downstream_feature_magnitudes_keys down edges um target n w sampled w' :
  sample_downstream_feature_magnitudes down edges um target n w = (Ok sampled, w') →
  NoDup (keys sampled) ∧ ∀ node, node ∈ keys sampled → node ∈ down.
Proof.
  unfold sample_downstream_feature_magnitudes.
  intros (first & w1 & _ & Hrest)%bind_Ok.
  apply bind_Ok in Hrest as (patched & w2 & _ & Hrest).
  apply bind_Ok in Hrest as (sdm & w3 & _ & [Hsampled _]%lift_Ok).
  revert Hsampled.
  apply (rfold_inv (fun sampled : list (Node * list Q) =>
    NoDup (keys sampled) ∧ ∀ node, node ∈ keys sampled → node ∈ down)).
  { split; [apply NoDup_nil_2|]. by intros node ?%elem_of_nil. }
  intros acc [cv mags] acc' _ Hacc. revert Hacc.
  destruct (dget _ (nodes cv)) as [group|] eqn:Hgroup; simpl; cycle 1.
  { by intros ? [= <-]. }
  apply dependencies_to_nodes_spec in Hgroup as [_ Hgroup].
  intros Hacc Hfold. revert Hfold.
  apply (rfold_inv (fun sampled : list (Node * list Q) =>
    NoDup (keys sampled) ∧ ∀ node, node ∈ keys sampled → node ∈ down)); [done|].
  intros acc0 node acc1 Hnode [Hnd Hsub].
  intros (m & _ & [= <-])%rbind_Ok. split; [by apply NoDup_keys_dupd|].
  intros node'. unfold dset. rewrite elem_of_keys_dupd.
  intros [->|?]; [by apply Hgroup|by apply Hsub].
Qed.

Lemma normalized_mses_keys down sampled means mses :
  NoDup (keys sampled) →
  normalized_mses down sampled means = Ok mses →
  NoDup (keys mses) ∧ ∀ node, node ∈ keys mses ↔ node ∈ keys sampled.
Proof.
  intros Hnd. unfold normalized_mses.
  intros (first & _ & Hrest)%rbind_Ok.
  apply rbind_Ok in Hrest as (layer_profile & _ & Hrest).
  apply rbind_Ok in Hrest as ([norm i] & _ & Hmses).
  eapply (rfold_dict_map (fun node magnitudes =>
      let? original_magnitude := of_option KeyError (dget means node) in
      let? i := of_option NameError i in
      let? coefficient := of_option IndexError (py_index norm i) in
      torch_mean ((fun m => (coefficient * (m - original_magnitude)) ^ 2)%Q
                    <$> magnitudes))) in Hmses as (Hmses_nd & Hmses & Hok);
    [|intros d node mags; simpl|done].
  - split; [done|]. intros node. rewrite <- !dget_is_Some. unfold is_Some.
    setoid_rewrite Hmses. split.
    + intros (y & x & Hx & _). exists x. by apply elem_dget.
    + intros (x & Hx%dget_Some_elem). destruct (Hok _ _ Hx) as [y Hy]. eauto.
  - destruct (of_option KeyError _); simpl; [|done].
    destruct (of_option NameError _); simpl; [|done].
    by destruct (of_option IndexError _).
Qed.

Lemma estimate_downstream_node_mses_keys down edges um means target w mses w' :
  estimate_downstream_node_mses down edges um means target w = (Ok mses, w') →
  NoDup (keys mses) ∧ ∀ node, node ∈ keys mses → node ∈ down.
Proof.
  unfold estimate_downstream_node_mses.
  intros (sampled & w1 & Hs & [Hn _]%lift_Ok)%bind_Ok.
  apply sample_downstream_feature_magnitudes_keys in Hs as [Hnd Hsub].
  apply normalized_mses_keys in Hn as [? Hkeys]; [|done].
  split; [done|]. intros node ?%Hkeys. by apply Hsub.
Qed.

Lemma foldM_dict_keys {K X Y} `{EqDecision K}
    (f : list (K * Y) -> K * X -> M self (list (K * Y))) l w r w' :
  (∀ d k x w d' w', f d (k, x) w = (Ok d', w') → ∃ y, d' = dset k y d) →
  foldM f l [] w = (Ok r, w') →
  NoDup (keys r) ∧ ∀ k, k ∈ keys r ↔ k ∈ l.*1.
Proof.
  intros Hf.
  apply (foldM_ind (fun pre d _ => NoDup (keys d) ∧ ∀ k, k ∈ keys d ↔ k ∈ pre.*1)).
  - split; [apply NoDup_nil_2|done].
  - intros pre [k x] suf d w0 d' w0' _ [Hnd Hkeys] (y & ->)%Hf.
    split; [by apply NoDup_keys_dupd|].
    intros k'. unfold dset. rewrite elem_of_keys_dupd, Hkeys, fmap_app, elem_of_app.
    simpl. rewrite list_elem_of_singleton. naive_solver.
Qed.

Lemma estimate_edge_ablation_effects_keys down all_edges um means target w abl w' :
  estimate_edge_ablation_effects down all_edges um means target w = (Ok abl, w') →
  NoDup (keys abl) ∧ ∀ e, e ∈ keys abl ↔ e ∈ all_edges.
Proof.
  unfold estimate_edge_ablation_effects.
  intros Hfold. apply foldM_dict_keys in Hfold as [Hnd Hkeys].
  - split; [done|]. intros e. rewrite Hkeys.
    apply (elem_of_keys_dict_of
             (fun e => mkCircuit (list_to_set down) (list_to_set all_edges ∖ {[e]}))).
  - intros d e cv w0 d' w0' (errors & w1 & _ & Hrest)%bind_Ok.
    apply bind_Ok in Hrest as (mse & w2 & _ & [-> _]%ret_Ok). eauto.
Qed.
End Sampling.

(** ** Edge importance *)

Section EdgeImportance.
Context {self : EdgeSearch}.

Lemma normalize_edge_mses_spec down abl base imp :
  NoDup (keys abl) →
  normalize_edge_mses down abl base = Ok imp →
  NoDup (keys imp) ∧
  (∀ d, d ∈ down → is_Some (dget base d)) ∧
  (∀ e, e ∈ keys imp ↔ e ∈ keys abl) ∧
  ∀ e v, dget imp e = Some v →
    ∃ x b m, dget abl e = Some x ∧ dget base (downstream e) = Some b ∧
      edge_sibling_maximum abl b (downstream e) m ∧
      py_div (py_max (x - b) 0) (py_max m epsilon) = Ok v.
Proof.
  intros Habl. unfold normalize_edge_mses.
  intros (inc & Hinc & Hrest)%rbind_Ok.
  apply rbind_Ok in Hrest as ([mins maxs] & Hstats & Hrest).
  apply rbind_Ok in Hrest as ([] & Hprint & Himp).
  (* the increases over the baseline *)
  apply (rfold_dict_map (fun e x =>
           let? b := of_option KeyError (dget base (downstream e)) in
           Ok (x - b)%Q)) in Hinc as (Hinc_nd & Hinc & Hinc_ok); cycle 1.
  { intros d e x. by destruct (of_option _ _). }
  { by rewrite sorted_perm. }
  assert (∀ e y, dget inc e = Some y ↔
            ∃ x b, dget abl e = Some x ∧ dget base (downstream e) = Some b ∧
                   y = (x - b)%Q) as Hinc'.
  { intros e y. rewrite Hinc. setoid_rewrite elem_of_sorted. split.
    - intros (x & Hin & (b & Hb%of_option_Ok & [= <-])%rbind_Ok).
      exists x, b. split_and!; [by apply elem_dget|done..].
    - intros (x & b & Hx%dget_Some_elem & Hb & ->). exists x. split; [done|].
      by rewrite Hb. }
  (* the maximum per downstream node *)
  assert (∀ d m, dget maxs d = Some m →
            ∃ incs, rmap (fun e => of_option KeyError (dget inc e))
                      (set_of_list (filter (fun e => downstream e = d) (keys inc)))
                    = Ok incs ∧ m = py_max_list incs 0) as Hmaxs.
  { revert Hstats. apply (rfold_inv (fun p : list (Node * Q) * list (Node * Q) =>
      ∀ d m, dget p.2 d = Some m →
        ∃ incs, rmap (fun e => of_option KeyError (dget inc e))
                  (set_of_list (filter (fun e => downstream e = d) (keys inc)))
                = Ok incs ∧ m = py_max_list incs 0)); [done|].
    intros [mins0 maxs0] d0 [mins1 maxs1] _ IH.
    intros (incs & Hincs & [= <- <-])%rbind_Ok d m. simpl. rewrite dget_dset.
    case_decide; [|by apply IH]. intros [= <-]. subst. eauto. }
  (* the report *)
  assert (∀ d, d ∈ down → is_Some (dget base d)) as Hbase.
  { intros d Hd. eapply rfold_each in Hprint as (? & ? & Hp);
      [|by apply elem_of_sorted].
    apply rbind_Ok in Hp as (b & Hb%of_option_Ok & _). eauto. }
  (* the normalization *)
  apply (rfold_dict_map (fun e y =>
           let? node_max := of_option KeyError (dget maxs (downstream e)) in
           py_div (py_max y 0) (py_max node_max epsilon))) in Himp
    as (Himp_nd & Himp & Himp_ok); cycle 1.
  { intros d e y. simpl. by destruct (of_option _ _). }
  { done. }
  split_and!; [done..| |].
  - intros e. rewrite <- !dget_is_Some. unfold is_Some.
    setoid_rewrite Himp. split.
    + intros (v & y & Hy & _). apply elem_dget in Hy; [|done].
      apply Hinc' in Hy as (x & _ & Hx & _). eauto.
    + intros [x Hx%dget_Some_elem].
      destruct (Hinc_ok e x) as [y Hy]; [by apply elem_of_sorted|].
      assert (dget inc e = Some y) as Hy'.
      { apply Hinc. exists x. split; [by apply elem_of_sorted|done]. }
      destruct (Himp_ok e y) as [v Hv]; [by apply dget_Some_elem|].
      exists v, y. split; [by apply dget_Some_elem|done].
  - intros e v (y & Hy & (m & Hm%of_option_Ok & Hv)%rbind_Ok)%Himp.
    apply elem_dget in Hy; [|done].
    pose proof Hy as (x & b & Hx & Hb & ->)%Hinc'.
    apply Hmaxs in Hm as (incs & Hincs & ->).
    exists x, b, (py_max_list incs 0). split_and!; [done..| |done].
    assert (∀ z, z ∈ incs ↔ ∃ e' x', dget abl e' = Some x' ∧
              downstream e' = downstream e ∧ z = (x' - b)%Q) as Hz.
    { intros z. rewrite (rmap_elem _ _ _ z Hincs).
      setoid_rewrite elem_of_set_of_list. setoid_rewrite list_elem_of_filter.
      setoid_rewrite of_option_Ok. setoid_rewrite Hinc'. split.
      - intros (e' & [Hd _] & x' & b' & Hx' & Hb' & ->).
        rewrite Hd in Hb'. exists e', x'. split_and!; congruence.
      - intros (e' & x' & Hx' & Hd & ->). exists e'. split.
        + split; [done|]. apply dget_is_Some. eexists. apply Hinc'.
          exists x', b. by rewrite Hd.
        + exists x', b. by rewrite Hd. }
    split.
    + apply Hz. apply py_max_list_in. intros ->.
      eapply elem_of_nil, Hz. eauto.
    + intros e' x' Hx' Hd. apply py_max_list_ge, Hz. eauto.
Qed.
End EdgeImportance.

(** ** Token importance *)

Section TokenImportance.
Context {self : EdgeSearch}.

Lemma elem_of_values {K V} `{EqDecision K} (d : list (K * V)) v :
  NoDup (keys d) → v ∈ values d ↔ ∃ k, dget d k = Some v.
Proof.
  intros Hnd. unfold values. rewrite list_elem_of_fmap. split.
  - intros ([k v'] & -> & Hin). exists k. by apply elem_dget.
  - intros [k Hk%dget_Some_elem]. by exists (k, v).
Qed.

Lemma normalize_token_mses_spec up_layer dts tb T imp :
  wf2 T →
  normalize_token_mses up_layer dts tb T = Ok imp →
  NoDup (keys imp) ∧
  ∀ g v, dget imp g = Some v →
    upstream_layer_idx g = up_layer ∧
    ∃ x b m,
      dget2 T (downstream_token_idx g) (upstream_token_idx g) = Some x ∧
      dget tb (downstream_token_idx g) = Some b ∧
      token_sibling_maximum T b (downstream_token_idx g) m ∧
      py_div (py_max (x - b) 0) (py_max m epsilon) = Ok v.
Proof.
  intros HT. unfold normalize_token_mses.
  intros (T3 & HT3 & Hrest)%rbind_Ok.
  destruct (fold_left _ dts _) as [[T3' mins] maxs] eqn:Hstats.
  apply rbind_Ok in Hrest as ([] & _ & Himp).
  (* the increases over the baseline *)
  apply (rfold_nested_dict_map
           (fun (dt ut : Z) (x : Q) =>
              let? b := of_option KeyError (dget tb dt) in Ok (x - b)%Q)
           _
           (fun dt increases '(up_token, token_mse) =>
              let? baseline_mse := of_option KeyError (dget tb dt) in
              Ok (dupd dt (dset up_token (token_mse - baseline_mse)%Q) [] increases))
           (sorted (fun x y => Z.leb x.1 y.1))
           (sorted (fun x y => Z.leb x.1 y.1))) in HT3 as [HwfT3 HT3];
    [|apply sorted_perm|apply sorted_perm|done
     |intros dt acc ut x; by destruct (of_option _ _)|done].
  (* the statistics per downstream token *)
  assert (NoDup (keys T3') ∧
          (∀ k, default [] (dget T3' k) = default [] (dget T3 k)) ∧
          (∀ dt m, dget maxs dt = Some m →
             m = py_max_list (values (default [] (dget T3 dt))) 0))
    as (HndT3' & HT3' & Hmaxs).
  { match type of Hstats with
    | fold_left ?f _ ?init = _ =>
        pose proof (fold_left_inv
          (fun p : list (Z * list (Z * Q)) * list (Z * Q) * list (Z * Q) =>
             NoDup (keys p.1.1) ∧
             (∀ k, default [] (dget p.1.1 k) = default [] (dget T3 k)) ∧
             (∀ dt m, dget p.2 dt = Some m →
                m = py_max_list (values (default [] (dget T3 dt))) 0))
          f dts init) as Hinv
    end.
    rewrite Hstats in Hinv. apply Hinv; clear Hinv.
    - split_and!; [apply HwfT3|done..].
    - intros [[T0 mins0] maxs0] dt0 _ (Hnd0 & HT0 & Hmaxs0). simpl in *.
      assert (∀ k, default [] (dget (dupd dt0 (fun d => d) [] T0) k)
                   = default [] (dget T3 k)) as HT1.
      { intros k. rewrite dget_dupd. case_decide; [subst|]; simpl; apply HT0. }
      split_and!; [by apply NoDup_keys_dupd|done|].
      intros dt m. rewrite dget_dset. case_decide; [|by apply Hmaxs0].
      subst. intros [= <-]. by rewrite HT1. }
  (* the normalization *)
  assert (NoDup (keys imp) ∧
          ∀ g v, dget imp g = Some v →
            ∃ dt inner ut y m, (dt, inner) ∈ T3' ∧ (ut, y) ∈ inner ∧
              g = mkEdgeGroup up_layer ut dt ∧ dget maxs dt = Some m ∧
              py_div (py_max y 0) (py_max m epsilon) = Ok v) as [Hnd Himp'].
  { pose (I := fun imp : list (EdgeGroup * Q) =>
      NoDup (keys imp) ∧
      ∀ g v, dget imp g = Some v →
        ∃ dt inner ut y m, (dt, inner) ∈ T3' ∧ (ut, y) ∈ inner ∧
          g = mkEdgeGroup up_layer ut dt ∧ dget maxs dt = Some m ∧
          py_div (py_max y 0) (py_max m epsilon) = Ok v).
    apply (rfold_inv I) in Himp; [done| |].
    { split; [apply NoDup_nil_2|done]. }
    intros acc [dt inner] acc' Hdt Hacc Hfold.
    apply (rfold_inv I) in Hfold; [done|done|].
    intros acc0 [ut y] acc1 Hut [Hnd0 Hacc0].
    intros (m & Hm%of_option_Ok & (v0 & Hv0 & [= <-])%rbind_Ok)%rbind_Ok.
    split; [by apply NoDup_keys_dupd|].
    intros g v. rewrite dget_dset. case_decide; [|by apply Hacc0].
    intros [= <-]. exists dt, inner, ut, y, m. done. }
  split; [done|].
  intros g v (dt & inner & ut & y & m & Hdt & Hut & -> & Hm & Hv)%Himp'. simpl.
  split; [done|].
  apply elem_dget in Hdt; [|done].
  assert (dget T3 dt = Some inner) as Hinner.
  { specialize (HT3' dt). rewrite Hdt in HT3'. simpl in HT3'.
    destruct (dget T3 dt); simpl in *; [congruence|].
    subst. by apply elem_of_nil in Hut. }
  assert (NoDup (keys inner)) as Hndi by (by eapply HwfT3).
  assert (dget2 T3 dt ut = Some y) as Hy.
  { unfold dget2. rewrite Hinner. simpl. by apply elem_dget. }
  apply HT3 in Hy as (x & Hx & (b & Hb%of_option_Ok & [= <-])%rbind_Ok).
  exists x, b, m. split_and!; [done..| |done].
  apply Hmaxs in Hm. rewrite Hinner in Hm. simpl in Hm. subst m.
  assert (∀ z, z ∈ values inner ↔ ∃ ut' x', dget2 T dt ut' = Some x' ∧ z = (x' - b)%Q)
    as Hz.
  { intros z. rewrite elem_of_values by done. split.
    - intros [ut' Hz]. assert (dget2 T3 dt ut' = Some z) as Hz'.
      { unfold dget2. by rewrite Hinner. }
      apply HT3 in Hz' as (x' & Hx' & (b' & Hb'%of_option_Ok & [= <-])%rbind_Ok).
      exists ut', x'. split; [done|congruence].
    - intros (ut' & x' & Hx' & ->). exists ut'.
      assert (dget2 T3 dt ut' = Some (x' - b)%Q) as Hz'.
      { apply HT3. exists x'. split; [done|]. by rewrite Hb. }
      unfold dget2 in Hz'. by rewrite Hinner in Hz'. }
  split.
  - apply Hz. apply py_max_list_in. intros Hnil.
    eapply elem_of_nil. rewrite <- Hnil. apply Hz. eauto.
  - intros ut' x' Hx'. apply py_max_list_ge, Hz. eauto.
Qed.
End TokenImportance.

Section TokenAblation.
Context {self : EdgeSearch}.

Lemma foldM_snoc {A B} (f : B -> A -> M self B) l x b w b1 w1 :
  foldM f l b w = (Ok b1, w1) →
  foldM f (l ++ [x]) b w = f b1 x w1.
Proof.
  revert b w. induction l as [|y l IH]; intros b w; simpl.
  - intros [-> ->]%ret_Ok. unfold bind. by destruct (f b x w) as [[?|?] ?].
  - intros (b2 & w2 & Hf & Hrest)%bind_Ok. unfold bind at 1. rewrite Hf. by apply IH.
Qed.

Lemma dget_snoc {K V} `{EqDecision K} (d : list (K * V)) k v k' :
  k ∉ keys d →
  dget (d ++ [(k, v)]) k' = if decide (k = k') then Some v else dget d k'.
Proof.
  unfold keys. induction d as [|[k0 v0] d IH]; csimpl; intros Hk.
  - case_bool_decide; case_decide; naive_solver.
  - apply not_elem_of_cons in Hk as [Hne Hk]. rewrite IH by done.
    case_bool_decide; case_decide; naive_solver.
Qed.

Lemma token_ablation_loop_spec down all_edges um means target toks w T w' :
  NoDup toks →
  foldM (token_ablation_step down all_edges um means target) toks [] w = (Ok T, w') →
  ∃ ests,
    token_errors down all_edges um means target toks w = (Ok ests, w') ∧
    keys ests = toks ∧
    (∀ ut est, dget ests ut = Some est →
       NoDup (keys est) ∧ (∀ d, d ∈ keys est → d ∈ down) ∧
       ∀ d, d ∈ fed_nodes all_edges ut → is_Some (dget est d)) ∧
    wf2 T ∧
    ∀ dt ut l, dget2 T dt ut = Some l ↔
      l ≠ [] ∧ ∃ est, dget ests ut = Some est ∧
        l = error_of est <$> filter (fun d => token_idx d = dt) (fed_nodes all_edges ut).
Proof.
  intros Hnd Hfold. unfold token_errors.
  pose (I := fun (pre : list Z) (T : list (Z * list (Z * list Q))) (w1 : World self) =>
    ∃ ests,
      foldM (fun acc token =>
         bind (estimate_downstream_node_mses down
                 (filter (fun edge => token_idx (upstream edge) ≠ token) all_edges)
                 um means target)
              (fun estimated_mses => ret (acc ++ [(token, estimated_mses)])))
        pre [] w = (Ok ests, w1) ∧
      keys ests = pre ∧
      (∀ ut est, dget ests ut = Some est →
         NoDup (keys est) ∧ (∀ d, d ∈ keys est → d ∈ down) ∧
         ∀ d, d ∈ fed_nodes all_edges ut → is_Some (dget est d)) ∧
      wf2 T ∧
      ∀ dt ut l, dget2 T dt ut = Some l ↔
        l ≠ [] ∧ ∃ est, dget ests ut = Some est ∧
          l = error_of est <$>
                filter (fun d => token_idx d = dt) (fed_nodes all_edges ut)).
  apply (foldM_ind I) in Hfold; [done| |].
  { exists []. split_and!; [done..|apply wf2_nil|].
    intros dt ut l. unfold dget2. simpl. naive_solver. }
  clear Hfold T w'.
  intros pre t suf T w1 T' w' Heq (ests & Hests & Hkeys & Hdefined & Hwf & HT).
  unfold token_ablation_step.
  intros (est & w2 & Hest & [Hinner ->]%lift_Ok)%bind_Ok.
  assert (t ∉ keys ests) as Hfresh.
  { rewrite Hkeys. rewrite Heq in Hnd.
    apply NoDup_app in Hnd as (_ & Hdisj & _). intros Hin.
    apply (Hdisj _ Hin). apply list_elem_of_here. }
  pose (J := fun (pre2 : list Node) (R : list (Z * list (Z * list Q))) =>
    wf2 R ∧ (∀ d, d ∈ pre2 → is_Some (dget est d)) ∧
    ∀ dt ut l, dget2 R dt ut = Some l ↔
      (ut ≠ t ∧ dget2 T dt ut = Some l) ∨
      (ut = t ∧ l ≠ [] ∧
       l = error_of est <$> filter (fun d => token_idx d = dt) pre2)).
  apply (rfold_ind J) in Hinner.
  - destruct Hinner as (Hwf' & Hdef' & HT').
    exists (ests ++ [(t, est)]). split_and!.
    + erewrite foldM_snoc by done. unfold bind. by rewrite Hest.
    + unfold keys in *. rewrite fmap_app, Hkeys. done.
    + intros ut est'. rewrite dget_snoc by done. case_decide; [|by apply Hdefined].
      intros [= <-]. subst ut.
      apply estimate_downstream_node_mses_keys in Hest as [? ?]. done.
    + done.
    + intros dt ut l. rewrite HT'. setoid_rewrite dget_snoc; [|done..].
      destruct (decide (t = ut)) as [<-|Hne].
      * split; [intros [[? _]|(_ & ? & ?)]; [done|eauto]|].
        intros (? & est' & [= <-] & ?). right. done.
      * rewrite HT. split; [intros [[_ ?]|[? _]]; [done|congruence]|].
        intros ?. left. split; [congruence|done].
  - split_and!; [done|by intros d ?%elem_of_nil|].
    intros dt ut l. simpl. split.
    + intros Hl. left. split; [|done]. intros ->.
      apply HT in Hl as (_ & est' & Hest' & _).
      apply Hfresh. apply dget_is_Some. eauto.
    + intros [[_ ?]|(_ & Hl & ->)]; done.
  - intros pre2 d suf2 R R' _ (HwfR & Hdef & HR).
    intros (mse & Hmse%of_option_Ok & [= <-])%rbind_Ok.
    assert (∀ dt, dget2 R dt t =
              let L := filter (fun d => token_idx d = dt) pre2 in
              if decide (L = []) then None else Some (error_of est <$> L)) as Hcur.
    { intros dt. simpl. case_decide as HL.
      - destruct (dget2 R dt t) as [l|] eqn:Hl; [|done].
        apply HR in Hl as [[? _]|(_ & Hne & ->)]; [done|]. by rewrite HL in Hne.
      - apply HR. right. split_and!; [done| |done].
        by destruct (filter _ pre2). }
    split_and!.
    + by apply wf2_dupd.
    + intros d' [?| ->%list_elem_of_singleton]%elem_of_app; [by apply Hdef|eauto].
    + intros dt ut l. rewrite dget2_dupd, filter_app.
      destruct (decide (token_idx d = dt ∧ t = ut)) as [[<- <-]|Hne].
      * rewrite Hcur. simpl. rewrite filter_cons_True, filter_nil by done.
        rewrite fmap_app. simpl. unfold error_of at 3. rewrite Hmse. simpl.
        assert (default [] (if decide (filter (fun d0 => token_idx d0 = token_idx d)
                                              pre2 = [])
                            then None
                            else Some (error_of est <$>
                                         filter (fun d0 => token_idx d0 = token_idx d)
                                                pre2))
                = error_of est <$> filter (fun d0 => token_idx d0 = token_idx d) pre2)
          as ->.
        { case_decide as HL; [by rewrite HL|done]. }
        split.
        -- intros [= <-]. right. split_and!; [done| |done].
           intros [_ [=]]%app_eq_nil.
        -- intros [[? _]|(_ & _ & ->)]; done.
      * rewrite HR. destruct (decide (t = ut)) as [<-|Hne'].
        -- rewrite filter_cons_False, filter_nil, app_nil_r by naive_solver. done.
        -- naive_solver.
Qed.
End TokenAblation.

Section TokenPipeline.
Context {self : EdgeSearch}.

Lemma NoDup_ablated_tokens all_edges : NoDup (ablated_tokens all_edges).
Proof. apply NoDup_sorted, NoDup_set_of_list. Qed.

Lemma estimate_token_ablation_effects_spec down all_edges um means target w T w' :
  estimate_token_ablation_effects down all_edges um means target w = (Ok T, w') →
  ∃ ests,
    token_errors down all_edges um means target (ablated_tokens all_edges) w
      = (Ok ests, w') ∧
    (∀ ut est, dget ests ut = Some est →
       NoDup (keys est) ∧ (∀ d, d ∈ keys est → d ∈ down) ∧
       ∀ d, d ∈ fed_nodes all_edges ut → is_Some (dget est d)) ∧
    wf2 T ∧
    ∀ dt ut x, dget2 T dt ut = Some x ↔
      ∃ est, dget ests ut = Some est ∧
        filter (fun d => token_idx d = dt) (fed_nodes all_edges ut) ≠ [] ∧
        py_average (error_of est <$>
                      filter (fun d => token_idx d = dt) (fed_nodes all_edges ut))
          = Ok x.
Proof.
  unfold estimate_token_ablation_effects.
  intros (T1 & w1 & Hloop & [Havg ->]%lift_Ok)%bind_Ok.
  apply token_ablation_loop_spec in Hloop
    as (ests & Hests & _ & Hdef & HwfT1 & HT1); [|apply NoDup_ablated_tokens].
  apply (rfold_nested_dict_map
           (fun (dt ut : Z) (mses : list Q) => py_average mses)
           _
           (fun dt average '(up_token, mses) =>
              let? mean := py_average mses in
              Ok (dupd dt (dset up_token mean) [] average))
           (fun l => l) (fun l => l)) in Havg as [HwfT HT]; [|done..].
  exists ests. split_and!; [done..|].
  intros dt ut x. rewrite HT. setoid_rewrite HT1. split.
  - intros (l & (Hne & est & Hest & ->) & Hx). exists est. split_and!; [done| |done].
    intros Hnil. by rewrite Hnil in Hne.
  - intros (est & Hest & Hne & Hx). eexists. split; [|done].
    split; [|eauto]. by destruct (filter _ _).
Qed.

Lemma compute_token_importance_spec all_edges down base um means target w imp w' :
  compute_token_importance all_edges down base um means target w = (Ok imp, w') →
  ∃ first ests T tb,
    next_iter down = Ok first ∧
    token_errors down all_edges um means target (ablated_tokens all_edges) w
      = (Ok ests, w') ∧
    (∀ ut est, dget ests ut = Some est →
       NoDup (keys est) ∧ (∀ d, d ∈ keys est → d ∈ down) ∧
       ∀ d, d ∈ fed_nodes all_edges ut → is_Some (dget est d)) ∧
    (∀ dt ut x, dget2 T dt ut = Some x ↔
       ∃ est, dget ests ut = Some est ∧
         filter (fun d => token_idx d = dt) (fed_nodes all_edges ut) ≠ [] ∧
         py_average (error_of est <$>
                       filter (fun d => token_idx d = dt) (fed_nodes all_edges ut))
           = Ok x) ∧
    (∀ dt b, dget tb dt = Some b →
       py_average (values (filter (fun kv : Node * Q => token_idx kv.1 = dt) base))
         = Ok b) ∧
    NoDup (keys imp) ∧
    ∀ g v, dget imp g = Some v →
      upstream_layer_idx g = layer_idx first - 1 ∧
      ∃ x b m,
        dget2 T (downstream_token_idx g) (upstream_token_idx g) = Some x ∧
        dget tb (downstream_token_idx g) = Some b ∧
        token_sibling_maximum T b (downstream_token_idx g) m ∧
        py_div (py_max (x - b) 0) (py_max m epsilon) = Ok v.
Proof.
  unfold compute_token_importance.
  intros (first & w1 & [Hfirst ->]%lift_Ok & Hrest)%bind_Ok.
  apply bind_Ok in Hrest as (tb & w2 & [Htb ->]%lift_Ok & Hrest).
  apply bind_Ok in Hrest as (T & w3 & HT & [Himp ->]%lift_Ok).
  apply estimate_token_ablation_effects_spec in HT as (ests & Hests & Hdef & HwfT & HT).
  apply normalize_token_mses_spec in Himp as [Hnd Himp]; [|done].
  exists first, ests, T, tb. split_and!; [done..| |done|done].
  revert Htb. apply (rfold_inv (fun tb : list (Z * Q) =>
    ∀ dt b, dget tb dt = Some b →
      py_average (values (filter (fun kv : Node * Q => token_idx kv.1 = dt) base))
        = Ok b)); [done|].
  intros tb0 dt0 tb1 _ IH (mean & Hmean & [= <-])%rbind_Ok dt b.
  rewrite dget_dset. case_decide; [|by apply IH]. subst. by intros [= <-].
Qed.

Lemma compute_edge_importance_spec all_edges down base um means target w imp w' :
  compute_edge_importance all_edges down base um means target w = (Ok imp, w') →
  ∃ abl,
    estimate_edge_ablation_effects down all_edges um means target w = (Ok abl, w') ∧
    NoDup (keys imp) ∧
    (∀ d, d ∈ down → is_Some (dget base d)) ∧
    (∀ e, e ∈ keys imp ↔ e ∈ all_edges) ∧
    ∀ e v, dget imp e = Some v →
      ∃ x b m, dget abl e = Some x ∧ dget base (downstream e) = Some b ∧
        edge_sibling_maximum abl b (downstream e) m ∧
        py_div (py_max (x - b) 0) (py_max m epsilon) = Ok v.
Proof.
  unfold compute_edge_importance.
  intros (abl & w1 & Habl & [Himp ->]%lift_Ok)%bind_Ok.
  pose proof Habl as [Hnd Hkeys]%estimate_edge_ablation_effects_keys.
  apply normalize_edge_mses_spec in Himp as (? & ? & Hk & ?); [|done].
  exists abl. split_and!; [done..| |done].
  intros e. by rewrite Hk, Hkeys.
Qed.

Lemma search_Ok tokens up down target w res w' :
  search tokens up down target w = (Ok res, w') →
  ∃ first um means base edge_imp token_imp w1 w2 w3 w4,
    next_iter down = Ok first ∧
    call_model tokens (layer_idx first - 1) w = (Ok um, w1) ∧
    estimate_downstream_node_means down (causal_edges up down) um target w1
      = (Ok means, w2) ∧
    estimate_downstream_node_mses down (causal_edges up down) um means target w2
      = (Ok base, w3) ∧
    compute_edge_importance (causal_edges up down) down base um means target w3
      = (Ok edge_imp, w4) ∧
    compute_token_importance (causal_edges up down) down base um means target w4
      = (Ok token_imp, w') ∧
    res = mkEdgeSearchResult edge_imp token_imp.
Proof.
  unfold search.
  intros ([] & w0 & [_ ->]%lift_Ok & Hrest)%bind_Ok.
  apply bind_Ok in Hrest as (first & w0' & [Hfirst ->]%lift_Ok & Hrest).
  apply bind_Ok in Hrest as (um & w1 & Hum & Hrest).
  apply bind_Ok in Hrest as (means & w2 & Hmeans & Hrest).
  apply bind_Ok in Hrest as (base & w3 & Hbase & Hrest).
  apply bind_Ok in Hrest as (edge_imp & w4 & Hedge & Hrest).
  apply bind_Ok in Hrest as (token_imp & w5 & Htoken & [-> ->]%ret_Ok).
  exists first, um, means, base, edge_imp, token_imp, w1, w2, w3, w4. done.
Qed.
End TokenPipeline.

(** ** The results of [search] *)

Section SearchResults.
Context {self : EdgeSearch}.


Lemma elem_of_fed_nodes all_edges ut d :
  d ∈ fed_nodes all_edges ut ↔
  ∃ e, e ∈ all_edges ∧ token_idx (upstream e) = ut ∧ downstream e = d.
Proof.
  unfold fed_nodes. rewrite elem_of_set_of_list, list_elem_of_fmap.
  setoid_rewrite list_elem_of_filter. naive_solver.
Qed.

Lemma filter_nonempty_elem {A} (P : A -> Prop) `{∀ x, Decision (P x)} (l : list A) :
  filter P l ≠ [] → ∃ x, x ∈ l ∧ P x.
Proof.
  destruct (filter P l) as [|x l'] eqn:Hf; [done|]. intros _. exists x.
  assert (x ∈ filter P l) as [? ?]%list_elem_of_filter; [|done].
  rewrite Hf. apply list_elem_of_here.
Qed.

(** C6. Every edge and every edge group in a result of [search] or of
    [get_placeholders] is causal: its upstream token is not later than its
    downstream token. *)
Theorem search_and_placeholders_causal
    (tokens : list Z) (upstream_nodes downstream_nodes : list Node)
    (target_token_idx : Z) (w : World self) (result : EdgeSearchResult) :
  (search tokens upstream_nodes downstream_nodes target_token_idx w).1 = Ok result
  ∨ result = get_placeholders upstream_nodes downstream_nodes →
  (∀ e, e ∈ keys (edge_importance result) → causal e) ∧
  (∀ g, g ∈ keys (token_importance result) → causal_group g).
Proof.
  intros [[w' Hsearch]%run_Ok| ->].
  - apply search_Ok in Hsearch
      as (first & um & means & base & edge_imp & token_imp & w1 & w2 & w3 & w4 &
          _ & _ & _ & _ & Hedge & Htoken & ->). simpl. split.
    + apply compute_edge_importance_spec in Hedge as (abl & _ & _ & _ & Hkeys & _).
      intros e He%Hkeys%elem_of_causal_edges. apply He.
    + apply compute_token_importance_spec in Htoken
        as (first' & ests & T & tb & _ & _ & _ & HT & _ & _ & Himp).
      intros g [v Hv]%dget_is_Some.
      apply Himp in Hv as (_ & x & b & m & Hx & _).
      apply HT in Hx as (est & _ & Hne & _).
      apply filter_nonempty_elem in Hne as (d & Hd & Hdt).
      apply elem_of_fed_nodes in Hd as (e & He%elem_of_causal_edges & Hut & <-).
      unfold causal_group. rewrite <- Hut, <- Hdt. apply He.
  - split.
    + intros e He. simpl in He.
      apply elem_of_keys_dict_of, elem_of_causal_edges in He. apply He.
    + intros g (e & He & ->)%elem_of_placeholder_groups. apply He.
Qed.


Lemma edge_errors_search tokens up down target w res base abl :
  (search tokens up down target w).1 = Ok res →
  (edge_errors tokens up down target w).1 = Ok (base, abl) →
  ∃ w3 w4 um means,
    compute_edge_importance (causal_edges up down) down base um means target w3
      = (Ok (edge_importance res), w4) ∧
    estimate_edge_ablation_effects down (causal_edges up down) um means target w3
      = (Ok abl, w4).
Proof.
  intros [w' Hsearch]%run_Ok [w'' Hrun]%run_Ok. revert Hsearch Hrun.
  intros (first & um & means & base' & edge_imp & token_imp & w1 & w2 & w3 & w4 &
          Hfirst & Hum & Hmeans & Hbase & Hedge & _ & ->)%search_Ok.
  unfold edge_errors.
  intros (first' & w0 & [Hfirst' ->]%lift_Ok & Hrest)%bind_Ok.
  rewrite Hfirst in Hfirst'. injection Hfirst' as <-.
  apply bind_Ok in Hrest as (um' & w1' & Hum' & Hrest).
  rewrite Hum in Hum'. injection Hum' as <- <-.
  apply bind_Ok in Hrest as (means' & w2' & Hmeans' & Hrest).
  rewrite Hmeans in Hmeans'. injection Hmeans' as <- <-.
  apply bind_Ok in Hrest as (base'' & w3' & Hbase' & Hrest).
  rewrite Hbase in Hbase'. injection Hbase' as <- <-.
  apply bind_Ok in Hrest as (abl' & w4' & Habl & [[= <- <-] ->]%ret_Ok).
  exists w3, w4, um, means. simpl.
  pose proof Hedge as (abl'' & Habl'' & _)%compute_edge_importance_spec.
  rewrite Habl in Habl''. by injection Habl'' as <- <-.
Qed.

(** C3 (amended). In a result of [search], a downstream node with an
    incident edge whose raw increase (error under ablation less the node's
    baseline error) reaches the floor 1e-6 of the divisor has an incident
    edge of importance 1. *)
Theorem search_edge_maximality
    (tokens : list Z) (upstream_nodes downstream_nodes : list Node)
    (target_token_idx : Z) (w : World self) (result : EdgeSearchResult)
    (baseline_mses : list (Node * Q)) (ablation_mses : list (Edge * Q))
    (e : Edge) (x b : Q) :
  (search tokens upstream_nodes downstream_nodes target_token_idx w).1 = Ok result →
  (edge_errors tokens upstream_nodes downstream_nodes target_token_idx w).1
    = Ok (baseline_mses, ablation_mses) →
  dget ablation_mses e = Some x →
  dget baseline_mses (downstream e) = Some b →
  (epsilon <= x - b)%Q →
  ∃ e' v, downstream e' = downstream e ∧
          dget (edge_importance result) e' = Some v ∧ (v == 1)%Q.
Proof.
  intros Hsearch Hrun Hx Hb Hinc.
  destruct (edge_errors_search _ _ _ _ _ _ _ _ Hsearch Hrun)
    as (w3 & w4 & um & means & Hedge & Habl).
  apply compute_edge_importance_spec in Hedge
    as (abl' & Habl' & Hnd & _ & Hkeys & Himp).
  rewrite Habl in Habl'. injection Habl' as <-.
  pose proof Habl as [_ Habl_keys]%estimate_edge_ablation_effects_keys.
  (* the importance of [e] names the maximum of its sibling group ... *)
  assert (is_Some (dget (edge_importance result) e)) as [v0 Hv0].
  { apply dget_is_Some, Hkeys, Habl_keys, dget_is_Some. eauto. }
  apply Himp in Hv0 as (x0 & b0 & m & _ & Hb0 & [(e' & x' & Hx' & Hd' & ->) Hmax] & _).
  rewrite Hb in Hb0. injection Hb0 as <-.
  (* ... which an edge [e'] attains *)
  assert (is_Some (dget (edge_importance result) e')) as [v Hv].
  { apply dget_is_Some, Hkeys, Habl_keys, dget_is_Some. eauto. }
  exists e', v. split_and!; [done..|].
  apply Himp in Hv as (x1 & b1 & m1 & Hx1 & Hb1 & [(e1 & y1 & Hy1 & Hd1 & ->) Hmax1] & Hv).
  rewrite Hx' in Hx1. injection Hx1 as <-.
  rewrite Hd', Hb in Hb1. injection Hb1 as <-.
  rewrite Hd' in Hd1, Hmax1.
  pose proof (Hmax _ _ Hx eq_refl). pose proof (Hmax _ _ Hy1 Hd1).
  pose proof (Hmax1 _ _ Hx' Hd').
  apply py_div_Ok in Hv as [_ ->].
  rewrite !py_max_l by (unfold epsilon in *; lra).
  assert (x' - b == y1 - b)%Q as -> by lra.
  field. unfold epsilon in *. lra.
Qed.
End SearchResults.

(** ** The requests to the ablator *)

Section Requests.
Context {self : EdgeSearch}.

Lemma call_recompute_extends layer patched :
  extends (fun new => ∃ k, new = replicate k (EvRecompute layer))
          (call_recompute layer patched).
Proof. intros w. exists [EvRecompute layer]. split; [done|]. by exists 1%nat. Qed.

Lemma recomputes_app layer n1 n2 :
  (∃ k, n1 = replicate k (EvRecompute layer)) →
  (∃ k, n2 = replicate k (EvRecompute layer)) →
  ∃ k, n1 ++ n2 = replicate k (EvRecompute layer).
Proof. intros [k1 ->] [k2 ->]. exists (k1 + k2)%nat. by rewrite replicate_add. Qed.

(** One sampling is one request to the ablator, followed by recomputations
    only. *)
Lemma sample_downstream_feature_magnitudes_trace first rest edges um target n w :
  ∃ k,
    trace (sample_downstream_feature_magnitudes (first :: rest) edges um target n w).2
    = trace w ++
      EvPatch (layer_idx first - 1) target
        ((fun deps => mkCircuit deps ∅) <$>
           keys (dependencies_to_nodes (node_to_dependencies (first :: rest) edges)))
        n
      :: replicate k (EvRecompute (layer_idx first - 1)).
Proof.
  unfold sample_downstream_feature_magnitudes.
  set (variants := (fun deps => mkCircuit deps ∅) <$> _).
  set (d2n := dependencies_to_nodes _).
  unfold bind at 1. simpl. unfold bind at 1. unfold call_patch.
  destruct (patch_feature_magnitudes _ _ _ _ _ _) as [[patched g]|]; simpl; cycle 1.
  { by exists 0%nat. }
  match goal with
  | |- context [bind (foldM ?f patched []) ?cont ?w0] =>
      assert (extends (fun new => ∃ j, new = replicate j (EvRecompute (layer_idx first - 1)))
                      (bind (foldM f patched []) cont)) as Hext
  end.
  { eapply extends_bind with
      (P := fun new => ∃ k, new = replicate k (EvRecompute (layer_idx first - 1)))
      (Q := fun new => new = []).
    - apply extends_foldM; [by exists 0%nat|apply recomputes_app|].
      intros d [cv pm]. eapply extends_bind with (Q := fun new => new = []).
      + apply call_recompute_extends.
      + intros dm. by apply extends_ret.
      + done.
      + intros n1 n2 Hn1 ->. by rewrite app_nil_r.
    - intros sdm. by apply extends_lift.
    - done.
    - intros n1 n2 Hn1 ->. by rewrite app_nil_r. }
  match goal with
  | |- context [bind ?c ?cont ?w0] => destruct (Hext w0) as (new & Hnew & [k' ->])
  end.
  exists k'. rewrite Hnew. simpl. by rewrite <- (assoc_L (++)).
Qed.

(** C8 (amended). [estimate_downstream_node_means] sends the ablator one
    request; it asks for [min(4 * num_samples, k_nearest)] samples when
    [k_nearest] is finite and not zero, and for [min(4 * num_samples,
    10^10)] samples when [k_nearest] is unbounded or zero. *)
Theorem estimate_downstream_node_means_request
    (downstream_nodes : list Node) (edges : list Edge) (magnitudes : Tensor2)
    (target_token_idx : Z) (w : World self) :
  downstream_nodes ≠ [] →
  ∃ new,
    trace (estimate_downstream_node_means downstream_nodes edges magnitudes
             target_token_idx w).2 = trace w ++ new ∧
    patch_requests new =
      [match k_nearest with
       | Some pool => if pool =? 0 then Z.min (4 * num_samples) (10 ^ 10)
                      else Z.min (4 * num_samples) pool
       | None => Z.min (4 * num_samples) (10 ^ 10)
       end].
Proof.
  destruct downstream_nodes as [|first rest]; [done|]. intros _.
  unfold estimate_downstream_node_means.
  destruct (sample_downstream_feature_magnitudes_trace first rest edges magnitudes
              target_token_idx (Z.min (num_samples * 4) (py_or k_nearest (10 ^ 10))) w)
    as [k Hk].
  eexists. split.
  - unfold bind. destruct (sample_downstream_feature_magnitudes _ _ _ _ _ _)
      as [[sampled|e] w1]; simpl in *; exact Hk.
  - simpl. assert (∀ k layer, patch_requests (replicate k (EvRecompute layer)) = [])
      as -> by (intros k0 layer; by induction k0).
    rewrite (Z.mul_comm num_samples 4). unfold py_or.
    destruct k_nearest as [pool|]; [|done]. by destruct (pool =? 0).
Qed.
End Requests.

(** ** One request per dependency set *)

Section DependencySets.
Context {self : EdgeSearch}.

#[local] Instance circuit_of_nodes_inj :
  Inj (=) (=) (fun deps : gset Node => mkCircuit deps ∅).
Proof. by intros d1 d2 [= ->]. Qed.

Lemma foldM_dict_map {K X Y} `{EqDecision K} (h : K -> X -> option Y)
    (f : list (K * Y) -> K * X -> M self (list (K * Y))) l w r w' :
  (∀ d k x w d' w', f d (k, x) w = (Ok d', w') →
                    ∃ y, h k x = Some y ∧ d' = dset k y d) →
  NoDup l.*1 →
  foldM f l [] w = (Ok r, w') →
  NoDup (keys r) ∧
  (∀ k y, dget r k = Some y ↔ ∃ x, (k, x) ∈ l ∧ h k x = Some y) ∧
  (∀ k x, (k, x) ∈ l → is_Some (h k x)).
Proof.
  intros Hf Hl.
  apply (foldM_ind (fun pre d _ =>
    NoDup (keys d) ∧
    (∀ k y, dget d k = Some y ↔ ∃ x, (k, x) ∈ pre ∧ h k x = Some y) ∧
    (∀ k x, (k, x) ∈ pre → is_Some (h k x)))).
  - split_and!; [apply NoDup_nil_2| |by intros k x ?%elem_of_nil].
    intros k y. simpl. setoid_rewrite elem_of_nil. naive_solver.
  - intros pre [k x] suf d w0 d' w0' Heq (Hnd & Hd & Hok) (y & Hy & ->)%Hf.
    assert (k ∉ pre.*1) as Hfresh.
    { eapply NoDup_fst_app_inv. by rewrite <- Heq. }
    split_and!; [by apply NoDup_keys_dupd| |].
    + intros k' y'. rewrite dget_dset.
      setoid_rewrite elem_of_app. setoid_rewrite list_elem_of_singleton.
      destruct (decide (k = k')) as [<-|Hne]; [|rewrite Hd]; split.
      * intros [= <-]. exists x. auto.
      * intros (x' & [Hin|[= <-]] & Hx'); [|congruence].
        destruct Hfresh. apply list_elem_of_fmap. by exists (k, x').
      * intros (x' & ? & ?). eauto.
      * intros (x' & [?|[= -> ->]] & ?); [eauto|done].
    + intros k' x' [?|[= -> ->]%list_elem_of_singleton]%elem_of_app; eauto.
Qed.

(** C9. [sample_downstream_feature_magnitudes] sends the ablator one
    request, with one circuit variant per distinct dependency set of the
    downstream nodes; and, the ablator returning one batch per requested
    variant, the magnitudes of every downstream node are read from the
    recomputation of the batch of the variant of its own dependency set (so
    two nodes with one dependency set read from one batch). *)
Theorem sample_once_per_dependency_set
    (first : Node) (rest : list Node) (edges : list Edge) (magnitudes : Tensor2)
    (target_token_idx n : Z) (w : World self) :
  (∀ g layer target variants um samples patched g',
     patch_feature_magnitudes g layer target variants um samples = Some (patched, g') →
     keys patched = variants) →
  let downstream_nodes := first :: rest in
  let layer := layer_idx first - 1 in
  let run := sample_downstream_feature_magnitudes downstream_nodes edges magnitudes
               target_token_idx n w in
  ∃ variants k,
    trace run.2 = trace w ++ EvPatch layer target_token_idx variants n
                               :: replicate k (EvRecompute layer) ∧
    NoDup variants ∧
    (∀ variant, variant ∈ variants ↔
       ∃ node, node ∈ downstream_nodes ∧
               variant = mkCircuit (dependencies edges node) ∅) ∧
    ∀ sampled, run.1 = Ok sampled →
      ∃ patched g',
        patch_feature_magnitudes (rng w) layer target_token_idx variants magnitudes n
          = Some (patched, g') ∧
        ∀ node, node ∈ downstream_nodes →
          ∃ batch recomputed node_magnitudes,
            dget patched (mkCircuit (dependencies edges node) ∅) = Some batch ∧
            compute_downstream_magnitudes layer batch = Some recomputed ∧
            select recomputed (token_idx node) (feature_idx node)
              = Ok node_magnitudes ∧
            dget sampled node = Some node_magnitudes.
Proof.
  intros Hpatch_keys downstream_nodes layer run.
  destruct (sample_downstream_feature_magnitudes_trace first rest edges magnitudes
              target_token_idx n w) as [k Htrace].
  pose proof (dependencies_to_nodes_spec downstream_nodes edges)
    as (Hd2n_nd & Hd2n_keys & Hd2n_groups).
  set (d2n := dependencies_to_nodes (node_to_dependencies downstream_nodes edges)) in *.
  set (variants := (fun deps => mkCircuit deps ∅) <$> keys d2n) in *.
  assert (∀ variant, variant ∈ variants ↔
            ∃ node, node ∈ downstream_nodes ∧
                    variant = mkCircuit (dependencies edges node) ∅) as Hvariants.
  { intros variant. unfold variants. rewrite list_elem_of_fmap.
    setoid_rewrite Hd2n_keys. naive_solver. }
  assert (NoDup variants) as Hnd_variants.
  { unfold variants. by apply (NoDup_fmap_2 _). }
  exists variants, k. split_and!; [done..|].
  intros sampled [w' Hrun]%run_Ok. revert Hrun.
  unfold run, sample_downstream_feature_magnitudes. fold d2n. fold variants.
  intros (first' & w1 & [[= <-] ->]%lift_Ok & Hrest)%bind_Ok.
  apply bind_Ok in Hrest as (patched & w2 & Hpatched & Hrest).
  apply bind_Ok in Hrest as (sdm & w3 & Hsdm & [Hsampled _]%lift_Ok).
  unfold call_patch in Hpatched. fold layer in Hpatched, Hsdm.
  destruct (patch_feature_magnitudes _ _ _ _ _ _) as [[patched' g']|] eqn:Hpatch;
    [|done].
  injection Hpatched as -> _. exists patched, g'. split; [done|].
  pose proof (Hpatch_keys _ _ _ _ _ _ _ _ Hpatch) as Hkeys.
  assert (NoDup (keys patched)) as Hnd_patched.
  { by rewrite Hkeys. }
  (* the recomputed batches *)
  apply (foldM_dict_map (fun _ pm => compute_downstream_magnitudes layer pm))
    in Hsdm as (Hnd_sdm & Hsdm & Hsdm_ok); [|clear|done].
  2:{ intros d cv pm w0 d' w0' (dm & w0'' & Hdm & [-> _]%ret_Ok)%bind_Ok.
      unfold call_recompute in Hdm. injection Hdm as Hdm%of_option_Ok _. eauto. }
  (* the groups read by the last loop *)
  pose (G := fun cv : Circuit => default [] (dget d2n (nodes cv))).
  assert (∀ cv node, node ∈ G cv →
            node ∈ downstream_nodes ∧ dependencies edges node = nodes cv) as HG.
  { intros cv node. unfold G. destruct (dget d2n (nodes cv)) as [group|] eqn:Hg; simpl.
    - apply Hd2n_groups in Hg as [_ Hg]. apply Hg.
    - by intros ?%elem_of_nil. }
  assert (∀ cv dm, (cv, dm) ∈ sdm → cv = mkCircuit (nodes cv) ∅) as Hform.
  { intros cv dm Hin. apply elem_dget in Hin; [|done].
    apply Hsdm in Hin as (pm & Hpm & _).
    assert (cv ∈ variants) as (node & _ & ->)%Hvariants; [|done].
    rewrite <- Hkeys. apply elem_of_keys. eauto. }
  pose (I := fun (pre : list (Circuit * Tensor3)) (S : list (Node * list Q)) =>
    ∀ cv dm node, (cv, dm) ∈ pre → node ∈ G cv →
      ∃ m, select dm (token_idx node) (feature_idx node) = Ok m ∧
           dget S node = Some m).
  apply (rfold_ind I) in Hsampled; cycle 1.
  { by intros cv dm node ?%elem_of_nil. }
  { intros pre [cv1 dm1] suf S S' Heq HI. fold (G cv1). intros Hinner.
    pose (J := fun (pre2 : list Node) (S : list (Node * list Q)) =>
      I pre S ∧
      ∀ node, node ∈ pre2 →
        ∃ m, select dm1 (token_idx node) (feature_idx node) = Ok m ∧
             dget S node = Some m).
    apply (rfold_ind J) in Hinner.
    - destruct Hinner as [HI' HJ]. intros cv dm node.
      intros [?|[= -> ->]%list_elem_of_singleton]%elem_of_app; [by apply HI'|apply HJ].
    - split; [done|]. by intros node ?%elem_of_nil.
    - intros pre2 node1 suf2 S0 S1 Heq2 [HI0 HJ0].
      intros (m1 & Hm1 & [= <-])%rbind_Ok. split.
      + intros cv dm node Hcv Hnode.
        destruct (HI0 _ _ _ Hcv Hnode) as (m & Hm & Hget). exists m. split; [done|].
        rewrite dget_dset. case_decide as Heq1; [|done]. subst node1. exfalso.
        assert (node ∈ G cv1) as [_ Hdeps1]%HG.
        { rewrite Heq2, elem_of_app, elem_of_cons. auto. }
        apply HG in Hnode as [_ Hdeps].
        assert ((cv, dm) ∈ sdm) as Hin.
        { rewrite Heq, elem_of_app. auto. }
        assert ((cv1, dm1) ∈ sdm) as Hin1.
        { rewrite Heq, elem_of_app, elem_of_cons. auto. }
        assert (cv = cv1) as ->.
        { rewrite (Hform _ _ Hin), (Hform _ _ Hin1). congruence. }
        unfold keys in Hnd_sdm. rewrite Heq in Hnd_sdm.
        apply NoDup_fst_app_inv in Hnd_sdm. apply Hnd_sdm.
        apply list_elem_of_fmap. by exists (cv1, dm).
      + intros node [Hnode| ->%list_elem_of_singleton]%elem_of_app.
        * destruct (HJ0 _ Hnode) as (m & Hm & Hget). exists m. split; [done|].
          rewrite dget_dset. case_decide; [|done]. subst. congruence.
        * exists m1. split; [done|]. rewrite dget_dset. by rewrite decide_True. }
  (* every downstream node is in the group of its own variant *)
  intros node Hnode.
  set (cv0 := mkCircuit (dependencies edges node) ∅).
  assert (cv0 ∈ keys patched) as [batch Hbatch]%elem_of_keys.
  { rewrite Hkeys. apply Hvariants. eauto. }
  destruct (Hsdm_ok _ _ Hbatch) as [recomputed Hrecomputed].
  assert ((cv0, recomputed) ∈ sdm) as Hin.
  { apply dget_Some_elem, Hsdm. eauto. }
  assert (node ∈ G cv0) as HnodeG.
  { unfold G. simpl.
    assert (dependencies edges node ∈ keys d2n) as [group Hgroup]%dget_is_Some.
    { apply Hd2n_keys. eauto. }
    rewrite Hgroup. simpl. apply Hd2n_groups in Hgroup as [_ Hgroup].
    by apply Hgroup. }
  destruct (Hsampled _ _ _ Hin HnodeG) as (m & Hm & Hget).
  exists batch, recomputed, m. split_and!; [by apply elem_dget|done..].
Qed.
End DependencySets.

(** ** The coefficient of [estimate_downstream_node_mses] *)

Section Coefficient.
Context {self : EdgeSearch}.

Lemma enumerate_last {A} (l : list A) i x :
  last (enumerate l) = Some (i, x) → last l = Some x.
Proof.
  intros Hlast. unfold enumerate in Hlast.
  rewrite <- (snd_zip (Z.of_nat <$> seq 0 (length l)) l)
    by (by rewrite length_fmap, length_seq).
  by rewrite fmap_last, Hlast.
Qed.

(** Whatever the node, the error that [normalized_mses] returns for it is the
    stated formula with the maximum of the feature of the node that was
    sampled last. *)
Lemma normalized_mses_last_coefficient down sampled means mses node v :
  NoDup (keys sampled) →
  normalized_mses down sampled means = Ok mses →
  dget mses node = Some v →
  ∃ first profile last_node feature_max magnitudes reference_mean,
    next_iter down = Ok first ∧
    model_profile (layer_idx first) = Some profile ∧
    last (keys sampled) = Some last_node ∧
    profile (feature_idx last_node) = Some feature_max ∧
    dget sampled node = Some magnitudes ∧
    dget means node = Some reference_mean ∧
    v = stated_normalized_mse feature_max magnitudes reference_mean.
Proof.
  intros Hnd. unfold normalized_mses.
  intros (first & Hfirst & Hrest)%rbind_Ok.
  apply rbind_Ok in Hrest as (profile & Hprofile%of_option_Ok & Hrest).
  apply rbind_Ok in Hrest as ([norm i] & Hcoeff & Hmses).
  (* the first loop leaves the index and the coefficient of the last node *)
  apply (rfold_ind (fun pre (p : list Q * option Z) =>
    match last pre with
    | None => p.2 = None
    | Some (idx, last_node) =>
        p.2 = Some idx ∧ 0 <= idx ∧
        ∃ feature_max, profile (feature_idx last_node) = Some feature_max ∧
                       p.1 !! Z.to_nat idx = Some (1 / feature_max)%Q
    end)) in Hcoeff; [|done|]; cycle 1.
  { intros pre [idx node0] suf [norm0 i0] [norm1 i1] _ _.
    intros (feature_max & Hmax%of_option_Ok & Hrest)%rbind_Ok.
    apply rbind_Ok in Hrest as (c & [_ ->]%py_div_Ok & Hrest).
    apply rbind_Ok in Hrest as (norm' & Hset & [= <- <-]). rewrite last_snoc. simpl.
    unfold tensor_set in Hset.
    destruct (_ && _) eqn:Hrange; [|done]. injection Hset as <-.
    apply andb_true_iff in Hrange as [?%Z.leb_le ?%Z.ltb_lt].
    split_and!; [done..|]. exists feature_max. split; [done|].
    apply list_lookup_insert_eq. lia. }
  (* the second loop *)
  eapply (rfold_dict_map (fun node magnitudes =>
      let? original_magnitude := of_option KeyError (dget means node) in
      let? i := of_option NameError i in
      let? coefficient := of_option IndexError (py_index norm i) in
      torch_mean ((fun m => (coefficient * (m - original_magnitude)) ^ 2)%Q
                    <$> magnitudes))) in Hmses as (_ & Hmses & _);
    [|intros d node0 mags; simpl|done].
  2:{ destruct (of_option KeyError _); simpl; [|done].
      destruct (of_option NameError _); simpl; [|done].
      by destruct (of_option IndexError _). }
  intros (magnitudes & Hin & Hv)%Hmses.
  apply rbind_Ok in Hv as (orig & Horig%of_option_Ok & Hv).
  apply rbind_Ok in Hv as (idx & Hidx%of_option_Ok & Hv).
  apply rbind_Ok in Hv as (c & Hc%of_option_Ok & Hv).
  simpl in *. subst i.
  destruct (last (enumerate (keys sampled))) as [[idx' last_node]|] eqn:Hlast; [|done].
  destruct Hcoeff as ([= <-] & Hpos & feature_max & Hmax & Hlookup).
  assert (c = (1 / feature_max)%Q) as ->.
  { unfold py_index in Hc. assert ((0 <=? idx) = true) as Hle by (by apply Z.leb_le).
    rewrite Hle in Hc. simpl in Hc. destruct (idx <? _) eqn:Hlt.
    - congruence.
    - destruct (_ && _); [|done]. apply Z.ltb_ge in Hlt.
      apply lookup_lt_Some in Hlookup. lia. }
  exists first, profile, last_node, feature_max, magnitudes, orig.
  split_and!; [done..|by eapply enumerate_last|done|by apply elem_dget|done|].
  unfold torch_mean in Hv. destruct magnitudes as [|m ms]; [done|].
  injection Hv as <-. unfold stated_normalized_mse. by rewrite length_fmap.
Qed.
End Coefficient.

(** ** Token importance as an average over downstream nodes *)

Lemma Qsum_acc l a : (fold_left Qplus l a == a + Qsum l)%Q.
Proof.
  unfold Qsum. revert a. induction l as [|x l IH]; intros a; simpl; [lra|].
  rewrite (IH (a + x)%Q), (IH (0 + x)%Q). lra.
Qed.

Lemma Qsum_cons x l : (Qsum (x :: l) == x + Qsum l)%Q.
Proof. unfold Qsum at 1. simpl. rewrite Qsum_acc. lra. Qed.

Lemma Qsum_perm l1 l2 : l1 ≡ₚ l2 → (Qsum l1 == Qsum l2)%Q.
Proof.
  induction 1 as [|x l1 l2 _ IH|x y l|l1 l2 l3 _ IH1 _ IH2].
  - reflexivity.
  - rewrite !Qsum_cons, IH. reflexivity.
  - rewrite !Qsum_cons. lra.
  - by rewrite IH1.
Qed.

Lemma Qsum_sub_fmap {A} (f g : A -> Q) l :
  (Qsum (f <$> l) - Qsum (g <$> l) == Qsum ((fun a => f a - g a) <$> l))%Q.
Proof.
  induction l as [|a l IH]; csimpl; [reflexivity|].
  rewrite !Qsum_cons, <- IH. lra.
Qed.

Lemma py_average_Ok l x :
  py_average l = Ok x ↔ l ≠ [] ∧ x = (Qsum l / inject_Z (Z.of_nat (length l)))%Q.
Proof.
  unfold py_average, py_div. destruct l as [|y l].
  - simpl. naive_solver.
  - assert (Qeq_bool (inject_Z (Z.of_nat (length (y :: l)))) 0 = false) as ->.
    { apply not_true_is_false. intros Heq%Qeq_bool_iff.
      unfold Qeq in Heq. simpl in Heq. lia. }
    naive_solver.
Qed.


Lemma NoDup_keys_filter {K V} (P : K * V -> Prop) `{∀ kv, Decision (P kv)}
    (d : list (K * V)) :
  NoDup (keys d) → NoDup (keys (filter P d)).
Proof.
  unfold keys. induction d as [|[k v] d IH]; [done|].
  rewrite fmap_cons, NoDup_cons. intros [Hk Hd]. rewrite filter_cons.
  destruct (decide (P (k, v))); [|by apply IH].
  rewrite fmap_cons, NoDup_cons. split; [|by apply IH].
  intros ([k' v'] & Heq & [_ Hin]%list_elem_of_filter)%list_elem_of_fmap.
  simpl in Heq. subst k'.
  apply Hk. apply list_elem_of_fmap. by exists (k, v').
Qed.

Lemma values_error_of (F base : list (Node * Q)) :
  NoDup (keys base) → (∀ kv, kv ∈ F → kv ∈ base) →
  values F = error_of base <$> keys F.
Proof.
  intros Hnd Hsub. unfold values, keys. rewrite <- list_fmap_compose.
  apply Forall_fmap_ext, Forall_forall. intros [k v] Hin%Hsub.
  simpl. unfold error_of. by rewrite (elem_dget _ _ _ Hnd Hin).
Qed.

Section TokenAverage.
Context {self : EdgeSearch}.

Lemma bind_run {A B} (c : M self A) (f : A -> M self B) w a w1 :
  c w = (Ok a, w1) → bind c f w = f a w1.
Proof. unfold bind. by intros ->. Qed.

(** The averaged error of a token pair less the averaged baseline is the
    average of the differences, the nodes fed by the upstream token at [dt]
    and the nodes of the baseline at [dt] being the downstream nodes at
    [dt]. *)
Lemma token_increase_average up down base est dt ut x b :
  NoDup down →
  NoDup (keys base) →
  (∀ d, d ∈ keys base ↔ d ∈ down) →
  filter (fun d => token_idx d = dt) (fed_nodes (causal_edges up down) ut) ≠ [] →
  py_average (error_of est <$>
                filter (fun d => token_idx d = dt) (fed_nodes (causal_edges up down) ut))
    = Ok x →
  py_average (values (filter (fun kv : Node * Q => token_idx kv.1 = dt) base)) = Ok b →
  (x - b == token_increase est base down dt)%Q.
Proof.
  intros Hnd Hnd_base Hbase Hne [_ ->]%py_average_Ok [_ ->]%py_average_Ok.
  unfold token_increase.
  set (L := filter _ (fed_nodes _ ut)) in *.
  set (D := filter (fun node => token_idx node = dt) down).
  set (F := filter _ base).
  rewrite (values_error_of F base);
    [|done|by intros kv [_ ?]%list_elem_of_filter].
  set (KB := keys F).
  destruct (filter_nonempty_elem _ _ Hne) as (d0 & Hd0 & Hdt0).
  apply elem_of_fed_nodes in Hd0 as (e0 & He0%elem_of_causal_edges & Hut0 & <-).
  assert (L ≡ₚ D) as HL.
  { apply NoDup_Permutation.
    - apply NoDup_filter, NoDup_set_of_list.
    - by apply NoDup_filter.
    - intros d. unfold L, D. rewrite !list_elem_of_filter, elem_of_fed_nodes.
      setoid_rewrite elem_of_causal_edges. split.
      + intros [? (e & (_ & ? & _) & _ & <-)]. done.
      + intros [Hdt Hd]. split; [done|]. exists (mkEdge (upstream e0) d).
        split_and!; [|done..]. split_and!; simpl; [apply He0|done|].
        unfold causal. simpl. rewrite Hdt, <- Hdt0. apply He0. }
  assert (KB ≡ₚ D) as HKB.
  { apply NoDup_Permutation.
    - by apply NoDup_keys_filter.
    - by apply NoDup_filter.
    - intros d. unfold KB, D, F. rewrite elem_of_keys, list_elem_of_filter, <- Hbase.
      setoid_rewrite list_elem_of_filter. rewrite elem_of_keys. naive_solver. }
  rewrite !length_fmap.
  rewrite (Permutation_length HL), (Permutation_length HKB).
  rewrite (Qsum_perm (error_of est <$> L) (error_of est <$> D)) by (by rewrite HL).
  rewrite (Qsum_perm (error_of base <$> KB) (error_of base <$> D)) by (by rewrite HKB).
  rewrite <- Qsum_sub_fmap.
  assert (¬ (inject_Z (Z.of_nat (length D)) == 0)%Q) as Hlen.
  { assert (D ≠ []) as HD.
    { intros HD. rewrite HD in HL. apply Permutation_nil_r in HL. done. }
    destruct D; [done|]. unfold Qeq. simpl. lia. }
  field. done.
Qed.

End TokenAverage.

(** ** The engine on concrete inputs *)

(** The scenario of the specification: three upstream nodes at tokens 0, 1
    and 2 and two downstream nodes at tokens 1 and 2 have five candidate
    edges (all pairs but token 2 to token 1); they are the keys of a result
    of [search] and of the placeholders, which map each of them to 1. *)
Example scenario_five_edges :
  keys (edge_importance Demo.unit_result)
  = [mkEdge (mkNode 0 0 0) (mkNode 1 1 0); mkEdge (mkNode 0 0 0) (mkNode 1 2 1);
     mkEdge (mkNode 0 1 0) (mkNode 1 1 0); mkEdge (mkNode 0 1 0) (mkNode 1 2 1);
     mkEdge (mkNode 0 2 0) (mkNode 1 2 1)] ∧
  keys (edge_importance (get_placeholders Demo.upstream_nodes Demo.downstream_nodes))
  = keys (edge_importance Demo.unit_result) ∧
  values (edge_importance (get_placeholders Demo.upstream_nodes Demo.downstream_nodes))
  = replicate 5 1%Q.
Proof. split_and!; vm_compute; reflexivity. Qed.


Lemma search_and_placeholders_causal_witness :
  (∀ e, e ∈ keys (edge_importance Demo.unit_result) → causal e) ∧
  (∀ g, g ∈ keys (token_importance Demo.unit_result) → causal_group g).
Proof.
  apply (search_and_placeholders_causal (self := Demo.unit_engine) Demo.tokens
           Demo.upstream_nodes Demo.downstream_nodes 2
           (Demo.start Demo.unit_engine 0%nat) Demo.unit_result).
  left. vm_compute. reflexivity.
Defined.


Lemma search_edge_maximality_witness :
  ∃ e' v, downstream e' = mkNode 1 0 0 ∧
          dget (edge_importance Demo.lone_unit_result) e' = Some v ∧ (v == 1)%Q.
Proof.
  eapply (search_edge_maximality (self := Demo.unit_engine) Demo.lone_tokens
            Demo.lone_upstream Demo.lone_downstream 0
            (Demo.start Demo.unit_engine 0%nat) Demo.lone_unit_result
            Demo.lone_unit_errors.1 Demo.lone_unit_errors.2 Demo.lone_edge).
  - vm_compute. reflexivity.
  - vm_compute. reflexivity.
  - vm_compute. reflexivity.
  - vm_compute. reflexivity.
  - vm_compute. discriminate.
Defined.

Lemma estimate_downstream_node_means_request_witness :
  Demo.downstream_nodes ≠ [] ∧
  ∃ new,
    trace (estimate_downstream_node_means (self := Demo.unit_engine)
             Demo.downstream_nodes [] [[3; 1]; [5; 1]; [7; 1]]%Q 2
             (Demo.start Demo.unit_engine 0%nat)).2
    = trace (Demo.start Demo.unit_engine 0%nat) ++ new ∧
    patch_requests new = [Z.min (4 * 2) (10 ^ 10)].
Proof.
  split; [done|].
  apply (estimate_downstream_node_means_request (self := Demo.unit_engine)
           Demo.downstream_nodes [] [[3; 1]; [5; 1]; [7; 1]]%Q 2
           (Demo.start Demo.unit_engine 0%nat)).
  done.
Defined.


(** C3 (counterexample). One upstream and one downstream node at token 0,
    every feature maximum being 10^6: the baseline error of the downstream
    node is 1/4 * 10^-12 and its error without the edge 29/4 * 10^-12, a raw
    increase of 7 * 10^-12 > 0; the importance of the only edge into the node
    is that increase over the floor 10^-6 of the divisor, 7 * 10^-6, not 1. *)
Lemma search_maximality_fails_below_floor :
  ∃ x b v,
    (search (self := Demo.faint_engine) Demo.lone_tokens Demo.lone_upstream
       Demo.lone_downstream 0 (Demo.start Demo.faint_engine 0%nat)).1
    = Ok Demo.lone_faint_result ∧
    (edge_errors (self := Demo.faint_engine) Demo.lone_tokens Demo.lone_upstream
       Demo.lone_downstream 0 (Demo.start Demo.faint_engine 0%nat)).1
    = Ok Demo.lone_faint_errors ∧
    dget Demo.lone_faint_errors.2 Demo.lone_edge = Some x ∧
    dget Demo.lone_faint_errors.1 (downstream Demo.lone_edge) = Some b ∧
    (b == 1 # 4000000000000)%Q ∧ (x == 29 # 4000000000000)%Q ∧ (0 < x - b)%Q ∧
    edge_importance Demo.lone_faint_result = [(Demo.lone_edge, v)] ∧
    (v == 7 # 1000000)%Q ∧
    ∀ e' v', downstream e' = downstream Demo.lone_edge →
             dget (edge_importance Demo.lone_faint_result) e' = Some v' →
             ¬ (v' == 1)%Q.
Proof.
  do 3 eexists. split_and!.
  - vm_compute. reflexivity.
  - vm_compute. reflexivity.
  - vm_compute. reflexivity.
  - vm_compute. reflexivity.
  - vm_compute. reflexivity.
  - vm_compute. reflexivity.
  - vm_compute. reflexivity.
  - vm_compute. reflexivity.
  - vm_compute. reflexivity.
  - intros e' v' _ Hv%dget_Some_elem%list_elem_of_In.
    assert (forallb (fun p : Edge * Q => negb (Qeq_bool p.2 1))
                    (edge_importance Demo.lone_faint_result) = true) as Hall
      by (vm_compute; reflexivity).
    rewrite forallb_forall in Hall. specialize (Hall _ Hv). simpl in Hall.
    intros Heq%Qeq_eq_bool. by rewrite Heq in Hall.
Qed.

(** C8 (counterexample). With a pool of size zero the request is for 4
    samples, not for [min(4, 0)]; with an unbounded pool and 3 * 10^9
    configured samples it is for 10^10 samples, not for four times as many. *)
Lemma estimate_downstream_node_means_request_not_as_stated :
  patch_requests
    (trace (estimate_downstream_node_means (self := Demo.empty_pool_engine)
              Demo.downstream_nodes [] [[3; 1]; [5; 1]; [7; 1]]%Q 2
              (Demo.start Demo.empty_pool_engine 0%nat)).2)
  ≠ [stated_request 1 (Some 0)] ∧
  patch_requests
    (trace (estimate_downstream_node_means (self := Demo.refusing_engine)
              Demo.downstream_nodes [] [[3; 1]; [5; 1]; [7; 1]]%Q 2
              (Demo.start Demo.refusing_engine 0%nat)).2)
  ≠ [stated_request (3 * 10 ^ 9) None].
Proof. split; vm_compute; intros [=]. Qed.

Lemma sample_once_per_dependency_set_witness :
  let downstream_nodes := Demo.downstream_nodes in
  let edges := causal_edges Demo.upstream_nodes Demo.downstream_nodes in
  let w := Demo.start Demo.unit_engine 0%nat in
  let run := sample_downstream_feature_magnitudes (self := Demo.unit_engine)
               downstream_nodes edges [[3; 1]; [5; 1]; [7; 1]]%Q 2 2 w in
  ∃ variants k,
    trace run.2 = trace w ++ EvPatch 0 2 variants 2 :: replicate k (EvRecompute 0) ∧
    NoDup variants ∧
    (∀ variant, variant ∈ variants ↔
       ∃ node, node ∈ downstream_nodes ∧
               variant = mkCircuit (dependencies edges node) ∅) ∧
    ∀ sampled, run.1 = Ok sampled →
      ∃ patched g',
        patch_feature_magnitudes (EdgeSearch := Demo.unit_engine) (rng w) 0 2 variants
          [[3; 1]; [5; 1]; [7; 1]]%Q 2 = Some (patched, g') ∧
        ∀ node, node ∈ downstream_nodes →
          ∃ batch recomputed node_magnitudes,
            dget patched (mkCircuit (dependencies edges node) ∅) = Some batch ∧
            compute_downstream_magnitudes (EdgeSearch := Demo.unit_engine) 0 batch
              = Some recomputed ∧
            select recomputed (token_idx node) (feature_idx node)
              = Ok node_magnitudes ∧
            dget sampled node = Some node_magnitudes.
Proof.
  apply (sample_once_per_dependency_set (self := Demo.unit_engine)
           (mkNode 1 1 0) [mkNode 1 2 1]
           (causal_edges Demo.upstream_nodes Demo.downstream_nodes)
           [[3; 1]; [5; 1]; [7; 1]]%Q 2 2 (Demo.start Demo.unit_engine 0%nat)).
  intros g layer target variants um samples patched g' [= <- _].
  unfold keys. induction variants as [|v vs IH]; [reflexivity|].
  simpl. f_equal. exact IH.
Defined.



(** * Further properties of the engine *)

(** ** The order of the enumeration *)

Section SortedOrder.
Context {A : Type} (leb : A -> A -> bool).
Hypothesis leb_total : ∀ x y, leb x y = false → leb y x = true.
Hypothesis leb_trans : ∀ x y z, leb x y = true → leb y z = true → leb x z = true.
Hypothesis leb_antisym : ∀ x y, leb x y = true → leb y x = true → x = y.

Lemma insert_sorted_comm x y l :
  insert_sorted leb x (insert_sorted leb y l)
  = insert_sorted leb y (insert_sorted leb x l).
Proof.
  induction l as [|z l IH]; simpl.
  - destruct (leb x y) eqn:Hxy, (leb y x) eqn:Hyx; try done.
    + by rewrite (leb_antisym x y).
    + apply leb_total in Hxy. congruence.
  - destruct (leb y z) eqn:Hyz, (leb x z) eqn:Hxz; simpl;
      rewrite ?Hyz, ?Hxz; try done.
    + destruct (leb x y) eqn:Hxy, (leb y x) eqn:Hyx; try done.
      * by rewrite (leb_antisym x y).
      * apply leb_total in Hxy. congruence.
    + destruct (leb x y) eqn:Hxy; [|done].
      rewrite (leb_trans x y z) in Hxz; done.
    + destruct (leb y x) eqn:Hyx; [|done].
      rewrite (leb_trans y x z) in Hyz; done.
    + by rewrite IH.
Qed.

Lemma sorted_Permutation l1 l2 : l1 ≡ₚ l2 → sorted leb l1 = sorted leb l2.
Proof.
  unfold sorted. induction 1 as [|x l1 l2 _ IH|x y l|l1 l2 l3 _ IH1 _ IH2]; simpl.
  - done.
  - by rewrite IH.
  - apply insert_sorted_comm.
  - congruence.
Qed.
End SortedOrder.

Ltac destruct_comparisons :=
  repeat match goal with
         | |- context [?a =? ?b] => destruct (Z.eqb_spec a b)
         | |- context [?a <? ?b] => destruct (Z.ltb_spec a b)
         | |- context [?a <=? ?b] => destruct (Z.leb_spec a b)
         end.

Lemma node_leb_total x y : node_leb x y = false → node_leb y x = true.
Proof.
  unfold node_leb.
  destruct_comparisons; intros; try done; lia.
Qed.

Lemma node_leb_trans x y z :
  node_leb x y = true → node_leb y z = true → node_leb x z = true.
Proof.
  unfold node_leb.
  destruct_comparisons; intros; try done; lia.
Qed.

Lemma node_leb_antisym x y : node_leb x y = true → node_leb y x = true → x = y.
Proof.
  unfold node_leb. destruct x as [lx tx fx], y as [ly ty fy]. simpl.
  destruct_comparisons; intros; try done; try lia.
  f_equal; lia.
Qed.

(** X1. The candidate edges are enumerated over the sorted nodes: the edges,
    and the order in which they are added, do not depend on the order in which
    the two input sets are iterated. *)
Theorem causal_edges_order_independent (up up' down down' : list Node) :
  up ≡ₚ up' → down ≡ₚ down' → causal_edges up down = causal_edges up' down'.
Proof.
  intros Hup Hdown. unfold causal_edges.
  rewrite (sorted_Permutation node_leb node_leb_total node_leb_trans
             node_leb_antisym up up' Hup).
  by rewrite (sorted_Permutation node_leb node_leb_total node_leb_trans
                node_leb_antisym down down' Hdown).
Qed.

Lemma causal_edges_order_independent_witness :
  causal_edges Demo.upstream_nodes Demo.downstream_nodes
  = causal_edges (reverse Demo.upstream_nodes) (reverse Demo.downstream_nodes).
Proof.
  apply (causal_edges_order_independent Demo.upstream_nodes
           (reverse Demo.upstream_nodes) Demo.downstream_nodes
           (reverse Demo.downstream_nodes)).
  - apply (bool_decide_unpack _). vm_compute. exact I.
  - apply (bool_decide_unpack _). vm_compute. exact I.
Defined.

(** ** The size of the enumeration *)

Lemma causal_edges_length up down :
  (length (causal_edges up down) ≤ length up * length down)%nat.
Proof.
  rewrite <- (length_prod up down), <- list_cprod_list_prod.
  rewrite <- (length_fmap (fun p : Node * Node => mkEdge p.1 p.2)).
  apply submseteq_length, NoDup_submseteq; [apply NoDup_causal_edges|].
  intros e (Hu & Hd & _)%elem_of_causal_edges.
  apply list_elem_of_fmap. exists (upstream e, downstream e).
  split; [by destruct e|]. by apply list_elem_of_cprod.
Qed.

Lemma ablated_tokens_length up down :
  (length (ablated_tokens (causal_edges up down)) ≤ length up)%nat.
Proof.
  rewrite <- (length_fmap token_idx up).
  apply submseteq_length, NoDup_submseteq.
  - apply NoDup_sorted, NoDup_set_of_list.
  - intros ut. unfold ablated_tokens.
    rewrite elem_of_sorted, elem_of_set_of_list, !list_elem_of_fmap.
    intros (e & -> & (Hu & _)%elem_of_causal_edges). eauto.
Qed.

(** ** The dependency sets under an ablation *)

(** X2. Without one edge, the dependency set of the downstream node of that
    edge loses the upstream node of the edge, and the dependency set of every
    other node is unchanged. *)
Theorem dependencies_without_edge (all_edges : list Edge) (edge : Edge) (node : Node) :
  dependencies (elements (list_to_set all_edges ∖ {[edge]} : gset Edge)) node
  = if decide (node = downstream edge)
    then dependencies all_edges node ∖ {[upstream edge]}
    else dependencies all_edges node.
Proof.
  set (others := elements (list_to_set all_edges ∖ {[edge]} : gset Edge)).
  assert (∀ u, u ∈ dependencies others node
               ↔ mkEdge u node ∈ all_edges ∧ mkEdge u node ≠ edge) as Hwithout.
  { intros u. unfold dependencies, others.
    rewrite elem_of_list_to_set, list_elem_of_fmap.
    setoid_rewrite list_elem_of_filter. setoid_rewrite elem_of_elements.
    setoid_rewrite elem_of_difference. setoid_rewrite elem_of_list_to_set.
    setoid_rewrite elem_of_singleton. split.
    - intros ([u' d'] & -> & <- & ? & ?). done.
    - intros [? ?]. by exists (mkEdge u node). }
  assert (∀ u, u ∈ dependencies all_edges node ↔ mkEdge u node ∈ all_edges) as Hall.
  { intros u. unfold dependencies.
    rewrite elem_of_list_to_set, list_elem_of_fmap.
    setoid_rewrite list_elem_of_filter. split.
    - intros ([u' d'] & -> & <- & ?). done.
    - intros ?. by exists (mkEdge u node). }
  apply set_eq. intros u. rewrite Hwithout. destruct edge as [eu ed]. simpl.
  destruct (decide (node = ed)) as [->|Hne].
  - rewrite elem_of_difference, Hall, elem_of_singleton. naive_solver.
  - rewrite Hall. naive_solver.
Qed.

(** X3. Without the edges that leave one upstream token, every dependency set
    loses exactly its upstream nodes at that token. *)
Theorem dependencies_without_token (all_edges : list Edge) (token : Z) (node : Node) :
  dependencies (filter (fun edge => token_idx (upstream edge) ≠ token) all_edges) node
  = filter (fun u => token_idx u ≠ token) (dependencies all_edges node).
Proof.
  apply set_eq. intros u. unfold dependencies.
  rewrite elem_of_filter, !elem_of_list_to_set, !list_elem_of_fmap.
  repeat setoid_rewrite list_elem_of_filter. naive_solver.
Qed.

(** ** The dependency sets of the candidate edges *)

(** X4. Under the candidate edges, a downstream node depends on the upstream
    nodes whose token is not later than its own: the downstream nodes at one
    token have one dependency set. *)
Theorem dependencies_of_candidate_edges
    (upstream_nodes downstream_nodes : list Node) (node : Node) :
  node ∈ downstream_nodes →
  dependencies (causal_edges upstream_nodes downstream_nodes) node
  = list_to_set (filter (fun up => token_idx up <= token_idx node) upstream_nodes).
Proof.
  intros Hnode. apply set_eq. intros up. unfold dependencies.
  rewrite !elem_of_list_to_set, list_elem_of_fmap, list_elem_of_filter.
  setoid_rewrite list_elem_of_filter. setoid_rewrite elem_of_causal_edges.
  unfold candidate_edge, causal. split.
  - intros ([u d] & -> & <- & Hu & _ & Hle). done.
  - intros [Hle Hup]. by exists (mkEdge up node).
Qed.

Lemma dependencies_of_candidate_edges_witness :
  dependencies (causal_edges Demo.upstream_nodes Demo.downstream_nodes) (mkNode 1 2 1)
  = list_to_set (filter (fun up => token_idx up <= token_idx (mkNode 1 2 1))
                        Demo.upstream_nodes).
Proof.
  apply (dependencies_of_candidate_edges Demo.upstream_nodes Demo.downstream_nodes
           (mkNode 1 2 1)).
  apply (bool_decide_unpack _). vm_compute. exact I.
Defined.

(** ** The recomputations of a sampling *)

Section Recomputations.
Context {self : EdgeSearch}.

Lemma recompute_loop_trace layer (patched : list (Circuit * Tensor3)) d w r w' :
  foldM (fun d '(circuit_variant, patched_magnitudes) =>
           bind (call_recompute layer patched_magnitudes)
             (fun downstream_magnitudes =>
                ret (dset circuit_variant downstream_magnitudes d)))
        patched d w = (Ok r, w') →
  trace w' = trace w ++ replicate (length patched) (EvRecompute layer).
Proof.
  revert d w. induction patched as [|[cv pm] patched IH]; intros d w; simpl.
  - intros [_ ->]%ret_Ok. by rewrite app_nil_r.
  - intros (d1 & w1 & Hstep & Hrest)%bind_Ok.
    apply bind_Ok in Hstep as (dm & w2 & Hrec & [_ ->]%ret_Ok).
    apply IH in Hrest. rewrite Hrest.
    unfold call_recompute in Hrec. injection Hrec as _ <-. simpl.
    by rewrite <- (assoc_L (++)).
Qed.

Lemma variants_length down edges :
  (length (keys (dependencies_to_nodes (node_to_dependencies down edges)))
   ≤ length down)%nat.
Proof.
  destruct (dependencies_to_nodes_spec down edges) as (Hnd & Hkeys & _).
  rewrite <- (length_fmap (dependencies edges) down).
  apply submseteq_length, NoDup_submseteq; [done|].
  intros deps (node & Hnode & ->)%Hkeys. apply list_elem_of_fmap. eauto.
Qed.

(** X5. The ablator returning one batch per requested variant, a sampling that
    returns has recomputed the downstream magnitudes once per variant, that is
    once per distinct dependency set: never more often than there are
    downstream nodes. *)
Theorem sample_recomputes_once_per_variant
    (first : Node) (rest : list Node) (edges : list Edge) (magnitudes : Tensor2)
    (target_token_idx n : Z) (w : World self) (sampled : list (Node * list Q)) :
  (∀ g layer target variants um samples patched g',
     patch_feature_magnitudes g layer target variants um samples = Some (patched, g') →
     keys patched = variants) →
  let downstream_nodes := first :: rest in
  let layer := layer_idx first - 1 in
  let variants :=
    (fun deps => mkCircuit deps ∅) <$>
      keys (dependencies_to_nodes (node_to_dependencies downstream_nodes edges)) in
  let run := sample_downstream_feature_magnitudes downstream_nodes edges magnitudes
               target_token_idx n w in
  run.1 = Ok sampled →
  trace run.2 = trace w ++ EvPatch layer target_token_idx variants n
                             :: replicate (length variants) (EvRecompute layer) ∧
  (length variants ≤ length downstream_nodes)%nat.
Proof.
  intros Hcontract downstream_nodes layer variants run [w' Hrun]%run_Ok.
  split; cycle 1.
  { unfold variants. rewrite length_fmap. apply variants_length. }
  unfold run. rewrite Hrun. simpl. revert Hrun.
  unfold sample_downstream_feature_magnitudes.
  intros (first' & w1 & [[= <-] ->]%lift_Ok & Hrest)%bind_Ok.
  apply bind_Ok in Hrest as (patched & w2 & Hpatch & Hrest).
  apply bind_Ok in Hrest as (sdm & w3 & Hloop & [_ ->]%lift_Ok).
  apply recompute_loop_trace in Hloop. rewrite Hloop.
  unfold call_patch in Hpatch. fold downstream_nodes layer variants in Hpatch.
  destruct (patch_feature_magnitudes _ _ _ _ _ _) as [[patched' g]|] eqn:Hp; [|done].
  injection Hpatch as <- <-. simpl.
  apply Hcontract in Hp. rewrite <- Hp. unfold keys. rewrite length_fmap.
  by rewrite <- (assoc_L (++)).
Qed.
End Recomputations.

Lemma sample_recomputes_once_per_variant_witness :
  let downstream_nodes := Demo.downstream_nodes in
  let edges := causal_edges Demo.upstream_nodes Demo.downstream_nodes in
  let variants :=
    (fun deps => mkCircuit deps ∅) <$>
      keys (dependencies_to_nodes (node_to_dependencies downstream_nodes edges)) in
  let w := Demo.start Demo.unit_engine 0%nat in
  let run := sample_downstream_feature_magnitudes (self := Demo.unit_engine)
               downstream_nodes edges [[3; 1]; [5; 1]; [7; 1]]%Q 2 2 w in
  trace run.2 = trace w ++ EvPatch 0 2 variants 2
                             :: replicate (length variants) (EvRecompute 0) ∧
  (length variants ≤ length downstream_nodes)%nat.
Proof.
  apply (sample_recomputes_once_per_variant (self := Demo.unit_engine)
           (mkNode 1 1 0) [mkNode 1 2 1]
           (causal_edges Demo.upstream_nodes Demo.downstream_nodes)
           [[3; 1]; [5; 1]; [7; 1]]%Q 2 2 (Demo.start Demo.unit_engine 0%nat)
           Demo.unit_samples).
  - intros g layer target variants um samples patched g' [= <- _].
    unfold keys. induction variants as [|v vs IH]; [reflexivity|].
    simpl. f_equal. exact IH.
  - vm_compute. reflexivity.
Defined.

(** ** The cost of a search *)

Section Cost.
Context {self : EdgeSearch}.

Lemma requests_app k1 k2 n new1 new2 :
  requests k1 n new1 → requests k2 n new2 → requests (k1 + k2) n (new1 ++ new2).
Proof.
  unfold requests, patch_requests, forward_calls.
  intros [Hp1 Hf1] [Hp2 Hf2]. rewrite !omap_app, Hp1, Hp2, Hf1, Hf2.
  by rewrite replicate_add.
Qed.

Lemma extends_Ok {A} (P : list Event -> Prop) (c : M self A) w a w' :
  extends P c → c w = (Ok a, w') → ∃ new, trace w' = trace w ++ new ∧ P new.
Proof. intros Hc Hrun. specialize (Hc w). by rewrite Hrun in Hc. Qed.

Lemma extends_then_silent {A B} (P : list Event -> Prop)
    (c : M self A) (f : A -> M self B) :
  extends P c → (∀ a, extends (fun new => new = []) (f a)) → extends P (bind c f).
Proof.
  intros Hc Hf. eapply extends_bind; [done..|].
  intros n1 n2 Hn1 ->. by rewrite app_nil_r.
Qed.

Lemma recomputes_silent k layer :
  patch_requests (replicate k (EvRecompute layer)) = [] ∧
  forward_calls (replicate k (EvRecompute layer)) = [].
Proof. induction k as [|k IH]; [done|]. simpl. apply IH. Qed.

Lemma sample_downstream_feature_magnitudes_one_request first rest edges um target n :
  extends (one_request n)
    (sample_downstream_feature_magnitudes (first :: rest) edges um target n).
Proof.
  intros w.
  destruct (sample_downstream_feature_magnitudes_trace first rest edges um target n w)
    as [k Hk].
  eexists. split; [exact Hk|].
  unfold one_request. simpl.
  destruct (recomputes_silent k (layer_idx first - 1)) as [-> ->]. done.
Qed.

Lemma estimate_downstream_node_mses_one_request first rest edges um means target :
  extends (one_request num_samples)
    (estimate_downstream_node_mses (first :: rest) edges um means target).
Proof.
  unfold estimate_downstream_node_mses. apply extends_then_silent.
  - apply sample_downstream_feature_magnitudes_one_request.
  - intros sampled. by apply extends_lift.
Qed.

Lemma estimate_downstream_node_means_one_request first rest edges um target :
  extends (one_request (Z.min (num_samples * 4) (py_or k_nearest (10 ^ 10))))
    (estimate_downstream_node_means (first :: rest) edges um target).
Proof.
  unfold estimate_downstream_node_means. apply extends_then_silent.
  - apply sample_downstream_feature_magnitudes_one_request.
  - intros sampled. by apply extends_lift.
Qed.

(** A loop of [k] samplings that runs to its end has sent [k] requests. *)
Lemma foldM_requests {A B} (f : B -> A -> M self B) n l b w r w' :
  (∀ b x, extends (one_request n) (f b x)) →
  foldM f l b w = (Ok r, w') →
  ∃ new, trace w' = trace w ++ new ∧ requests (length l) n new.
Proof.
  intros Hf. revert b w. induction l as [|x l IH]; intros b w; simpl.
  - intros [_ ->]%ret_Ok. exists []. by rewrite app_nil_r.
  - intros (b1 & w1 & Hx & Hrest)%bind_Ok.
    apply (extends_Ok _ _ _ _ _ (Hf b x)) in Hx as (new1 & Hnew1 & Hone).
    apply IH in Hrest as (new2 & Hnew2 & Hreq).
    exists (new1 ++ new2). split.
    + by rewrite Hnew2, Hnew1, <- (assoc_L (++)).
    + by apply (requests_app 1).
Qed.


Lemma keys_dict_of_NoDup {K V} `{EqDecision K} (f : K -> V) l :
  NoDup l → keys (dict_of f l) = l.
Proof.
  intros Hnd. unfold dict_of.
  apply (fold_left_ind (fun pre (d : list (K * V)) => keys d = pre)); [done|].
  intros pre x suf d Hl Hd. unfold dset. rewrite keys_dupd, Hd.
  rewrite decide_False; [done|].
  rewrite Hl in Hnd. apply NoDup_app in Hnd as (_ & Hdisj & _).
  intros Hin. apply (Hdisj _ Hin). apply list_elem_of_here.
Qed.

Lemma edge_step_one_request first rest um means target
    (edge_to_mse : list (Edge * Q)) (p : Edge * Circuit) :
  extends (one_request num_samples)
    (let '(edge, circuit_variant) := p in
     bind (estimate_downstream_node_mses (first :: rest)
             (elements (edges circuit_variant)) um means target)
       (fun downstream_errors =>
          bind (lift (of_option KeyError (dget downstream_errors (downstream edge))))
            (fun mse => ret (dset edge mse edge_to_mse)))).
Proof.
  destruct p as [edge cv]. apply extends_then_silent.
  - apply estimate_downstream_node_mses_one_request.
  - intros errors. apply extends_then_silent; [by apply extends_lift|].
    intros mse. by apply extends_ret.
Qed.

Lemma token_ablation_step_one_request first rest all_edges um means target acc token :
  extends (one_request num_samples)
    (token_ablation_step (first :: rest) all_edges um means target acc token).
Proof.
  unfold token_ablation_step. apply extends_then_silent.
  - apply estimate_downstream_node_mses_one_request.
  - intros est. by apply extends_lift.
Qed.

Lemma compute_edge_importance_requests first rest all_edges base um means target
    w imp w' :
  NoDup all_edges →
  compute_edge_importance all_edges (first :: rest) base um means target w
    = (Ok imp, w') →
  ∃ new, trace w' = trace w ++ new ∧ requests (length all_edges) num_samples new.
Proof.
  intros Hnd. unfold compute_edge_importance, estimate_edge_ablation_effects.
  intros (abl & w1 & Habl & [_ ->]%lift_Ok)%bind_Ok.
  apply foldM_requests with (n := num_samples) in Habl.
  - revert Habl.
    change (fold_left _ all_edges []) with
      (dict_of (fun edge => mkCircuit (list_to_set (first :: rest))
                              (list_to_set all_edges ∖ {[edge]})) all_edges).
    rewrite <- (length_fmap fst).
    change (fmap fst ?d) with (keys d). by rewrite keys_dict_of_NoDup.
  - intros acc p. apply edge_step_one_request.
Qed.

Lemma compute_token_importance_requests first rest all_edges base um means target
    w imp w' :
  compute_token_importance all_edges (first :: rest) base um means target w
    = (Ok imp, w') →
  ∃ new, trace w' = trace w ++ new ∧
         requests (length (ablated_tokens all_edges)) num_samples new.
Proof.
  unfold compute_token_importance, estimate_token_ablation_effects.
  intros (first' & w1 & [_ ->]%lift_Ok & Hrest)%bind_Ok.
  apply bind_Ok in Hrest as (tb & w2 & [_ ->]%lift_Ok & Hrest).
  apply bind_Ok in Hrest as (T & w3 & HT & [_ ->]%lift_Ok).
  apply bind_Ok in HT as (T1 & w4 & Hloop & [_ ->]%lift_Ok).
  apply foldM_requests with (n := num_samples) in Hloop; [done|].
  intros acc token. apply token_ablation_step_one_request.
Qed.

(** X6. A search that returns has run the model once and has sent the ablator
    one request for the means and then one request of [num_samples] samples
    for the baseline, for every candidate edge and for every upstream token of
    a candidate edge: at most [2 + |upstream| * |downstream| + |upstream|]
    requests. *)
Theorem search_request_count
    (tokens : list Z) (upstream_nodes downstream_nodes : list Node)
    (target_token_idx : Z) (w : World self) (result : EdgeSearchResult) :
  (search tokens upstream_nodes downstream_nodes target_token_idx w).1 = Ok result →
  let all_edges := causal_edges upstream_nodes downstream_nodes in
  ∃ new,
    trace (search tokens upstream_nodes downstream_nodes target_token_idx w).2
      = trace w ++ EvForward tokens :: new ∧
    forward_calls new = [] ∧
    patch_requests new =
      Z.min (num_samples * 4) (py_or k_nearest (10 ^ 10))
      :: replicate (1 + length all_edges + length (ablated_tokens all_edges))
           num_samples ∧
    (length all_edges ≤ length upstream_nodes * length downstream_nodes)%nat ∧
    (length (ablated_tokens all_edges) ≤ length upstream_nodes)%nat.
Proof.
  intros [w' Hsearch]%run_Ok all_edges. rewrite Hsearch. simpl.
  apply search_Ok in Hsearch
    as (first & um & means & base & edge_imp & token_imp & w1 & w2 & w3 & w4 &
        Hfirst & Hum & Hmeans & Hbase & Hedge & Htoken & _).
  destruct downstream_nodes as [|first' rest]; [done|]. clear Hfirst.
  assert (trace w1 = trace w ++ [EvForward tokens]) as Hw1.
  { unfold call_model in Hum. by injection Hum as _ <-. }
  apply (extends_Ok _ _ _ _ _
           (estimate_downstream_node_means_one_request _ _ _ _ _)) in Hmeans
    as (new2 & Hw2 & Hp2 & Hf2).
  apply (extends_Ok _ _ _ _ _
           (estimate_downstream_node_mses_one_request _ _ _ _ _ _)) in Hbase
    as (new3 & Hw3 & Hp3 & Hf3).
  apply compute_edge_importance_requests in Hedge
    as (new4 & Hw4 & Hp4 & Hf4); [|apply NoDup_causal_edges].
  apply compute_token_importance_requests in Htoken as (new5 & Hw5 & Hp5 & Hf5).
  exists (new2 ++ new3 ++ new4 ++ new5). split_and!.
  - rewrite Hw5, Hw4, Hw3, Hw2, Hw1. by rewrite <- !(assoc_L (++)).
  - unfold forward_calls in *. by rewrite !omap_app, Hf2, Hf3, Hf4, Hf5.
  - unfold patch_requests in *. rewrite !omap_app, Hp2, Hp3, Hp4, Hp5.
    fold all_edges. simpl. by rewrite replicate_add.
  - apply causal_edges_length.
  - apply ablated_tokens_length.
Qed.




End Cost.

Lemma search_request_count_witness :
  ∃ new,
    trace (search (self := Demo.unit_engine) Demo.tokens Demo.upstream_nodes
             Demo.downstream_nodes 2 (Demo.start Demo.unit_engine 0%nat)).2
      = trace (Demo.start Demo.unit_engine 0%nat) ++ EvForward Demo.tokens :: new ∧
    forward_calls new = [] ∧
    patch_requests new = 8 :: replicate (1 + 5 + 3) 2 ∧
    (5 ≤ 3 * 2)%nat ∧ (3 ≤ 3)%nat.
Proof.
  apply (search_request_count (self := Demo.unit_engine) Demo.tokens
           Demo.upstream_nodes Demo.downstream_nodes 2
           (Demo.start Demo.unit_engine 0%nat) Demo.unit_result).
  vm_compute. reflexivity.
Defined.

(** ** Failures of the collaborators and of the inputs *)

Section Failures.
Context {self : EdgeSearch}.

(** X8. When the model fails, [search] raises its error after that one call:
    nothing is asked of the ablator. *)
Theorem search_model_failure
    (tokens : list Z) (upstream_nodes : list Node) (first : Node) (rest : list Node)
    (target_token_idx : Z) (w : World self) :
  model_feature_magnitudes tokens (layer_idx first - 1) = None →
  search tokens upstream_nodes (first :: rest) target_token_idx w
  = (Raise ExternalError, log (EvForward tokens) w).
Proof.
  intros Hmodel. unfold search. unfold bind at 1. simpl. unfold bind at 1. simpl.
  unfold bind at 1, call_model. by rewrite Hmodel.
Qed.

(** X9. When the ablator refuses the first request, the one for the means,
    [search] raises its error: the trace ends with that request, and nothing
    is recomputed. *)
Theorem search_ablator_failure
    (tokens : list Z) (upstream_nodes : list Node) (first : Node) (rest : list Node)
    (target_token_idx : Z) (w : World self) (magnitudes : Tensor2) :
  let downstream_nodes := first :: rest in
  let variants :=
    (fun deps => mkCircuit deps ∅) <$>
      keys (dependencies_to_nodes
              (node_to_dependencies downstream_nodes
                 (causal_edges upstream_nodes downstream_nodes))) in
  let n := Z.min (num_samples * 4) (py_or k_nearest (10 ^ 10)) in
  model_feature_magnitudes tokens (layer_idx first - 1) = Some magnitudes →
  patch_feature_magnitudes (rng w) (layer_idx first - 1) target_token_idx variants
    magnitudes n = None →
  search tokens upstream_nodes downstream_nodes target_token_idx w
  = (Raise ExternalError,
     mkWorld (rng w)
       (trace w ++ [EvForward tokens;
                    EvPatch (layer_idx first - 1) target_token_idx variants n])).
Proof.
  intros downstream_nodes variants n Hmodel Hpatch.
  unfold search. unfold bind at 1. simpl. unfold bind at 1. simpl.
  unfold bind at 1, call_model. rewrite Hmodel. simpl.
  unfold bind at 1, estimate_downstream_node_means.
  unfold bind at 1, sample_downstream_feature_magnitudes.
  unfold bind at 1. simpl. unfold bind at 1, call_patch. simpl.
  fold downstream_nodes. fold variants. fold n. rewrite Hpatch. simpl.
  unfold log. simpl. by rewrite <- (assoc_L (++)).
Qed.

(** X10. The estimators do not guard against an empty downstream set as
    [search] does: they raise [StopIteration] before any request.  The loop
    over the edges of [estimate_edge_ablation_effects] reaches an estimator
    only if there is an edge. *)
Theorem estimators_need_downstream_nodes
    (edges : list Edge) (magnitudes : Tensor2) (means baseline : list (Node * Q))
    (target_token_idx n : Z) (w : World self) :
  sample_downstream_feature_magnitudes [] edges magnitudes target_token_idx n w
    = (Raise StopIteration, w) ∧
  estimate_downstream_node_means [] edges magnitudes target_token_idx w
    = (Raise StopIteration, w) ∧
  estimate_downstream_node_mses [] edges magnitudes means target_token_idx w
    = (Raise StopIteration, w) ∧
  compute_token_importance edges [] baseline magnitudes means target_token_idx w
    = (Raise StopIteration, w) ∧
  estimate_edge_ablation_effects [] edges magnitudes means target_token_idx w
    = (if decide (edges = []) then Ok [] else Raise StopIteration, w).
Proof.
  split_and!; [done..|].
  destruct edges as [|edge edges]; [done|]. rewrite decide_False by done.
  unfold estimate_edge_ablation_effects.
  match goal with
  | |- foldM _ ?d _ _ = _ =>
      assert (d ≠ []) as Hne; [|by destruct d as [|[e cv] d']]
  end.
  intros Hnil.
  assert (edge ∈ keys (dict_of (fun e => mkCircuit (list_to_set [])
                                  (list_to_set (edge :: edges) ∖ {[e]}))
                         (edge :: edges))) as Hin.
  { apply elem_of_keys_dict_of, list_elem_of_here. }
  unfold dict_of in Hin. rewrite Hnil in Hin. by apply elem_of_nil in Hin.
Qed.

Lemma rfold_raises {A B} (f : B -> A -> Result B) (e : Err) l b x :
  x ∈ l → (∀ b, f b x = Raise e) →
  (∀ b y, (∃ b', f b y = Ok b') ∨ f b y = Raise e) →
  rfold f l b = Raise e.
Proof.
  intros Hin Hx Hf. revert b. induction l as [|y l IH]; intros b; simpl.
  - by apply elem_of_nil in Hin.
  - destruct (Hf b y) as [[b' Hy]|Hy]; rewrite Hy; simpl; [|done].
    apply elem_of_cons in Hin as [->|Hin]; [|by apply IH].
    specialize (Hx b). congruence.
Qed.

Lemma filter_none {A} (P : A -> Prop) `{∀ x, Decision (P x)} (l : list A) :
  (∀ x, x ∈ l → ¬ P x) → filter P l = [].
Proof.
  intros Hnone. destruct (filter P l) as [|x l'] eqn:Hf; [done|].
  assert (x ∈ filter P l) as [HP Hin]%list_elem_of_filter.
  { rewrite Hf. apply list_elem_of_here. }
  destruct (Hnone x Hin HP).
Qed.

(** X11. [compute_token_importance] averages the baseline errors of the nodes
    at each downstream token: when the baseline has no node at the token of
    some downstream node, the division by their number raises
    [ZeroDivisionError], before any request. *)
Theorem compute_token_importance_missing_baseline
    (all_edges : list Edge) (downstream_nodes : list Node)
    (baseline_mses : list (Node * Q)) (magnitudes : Tensor2)
    (means : list (Node * Q)) (target_token_idx : Z) (w : World self) (d : Node) :
  d ∈ downstream_nodes →
  (∀ node, node ∈ keys baseline_mses → token_idx node ≠ token_idx d) →
  compute_token_importance all_edges downstream_nodes baseline_mses magnitudes
    means target_token_idx w
  = (Raise ZeroDivisionError, w).
Proof.
  intros Hd Hmissing. unfold compute_token_importance.
  assert (∃ first, next_iter downstream_nodes = Ok first) as [first ->].
  { destruct downstream_nodes; [by apply elem_of_nil in Hd|by eexists]. }
  unfold bind, lift.
  rewrite (rfold_raises _ ZeroDivisionError _ _ (token_idx d)); [done| | |].
  - apply elem_of_sorted, elem_of_set_of_list, list_elem_of_fmap. eauto.
  - intros tb.
    assert (filter (fun kv : Node * Q => token_idx kv.1 = token_idx d) baseline_mses
            = []) as ->; [|done].
    apply filter_none. intros [node v] Hin. simpl.
    apply Hmissing, elem_of_keys. eauto.
  - intros tb dt. destruct (py_average _) as [mean|e] eqn:Hmean; simpl; [eauto|].
    right. unfold py_average, py_div in Hmean.
    destruct (Qeq_bool _ _); congruence.
Qed.

Lemma rfold_total {A B} (f : B -> A -> Result B) (g : B -> A -> B) l b :
  (∀ b x, f b x = Ok (g b x)) → rfold f l b = Ok (fold_left g l b).
Proof.
  intros Hf. revert b. induction l as [|x l IH]; intros b; simpl; [done|].
  rewrite Hf. simpl. apply IH.
Qed.

Lemma rfold_check {A} (P : A -> Prop) `{∀ x, Decision (P x)}
    (f : unit -> A -> Result unit) (e : Err) l :
  (∀ x, x ∈ l → f tt x = if decide (P x) then Ok tt else Raise e) →
  rfold f l tt = if decide (Forall P l) then Ok tt else Raise e.
Proof.
  induction l as [|x l IH]; intros Hf.
  - by destruct (decide (Forall P [])) as [?|[]].
  - change (rfold f (x :: l) tt) with (let? b' := f tt x in rfold f l b').
    rewrite Hf by apply list_elem_of_here.
    destruct (decide (P x)) as [Hx|Hx]; simpl.
    + rewrite IH by (intros y Hy; by apply Hf, list_elem_of_further).
      destruct (decide (Forall P l)) as [Hl|Hl].
      * by destruct (decide (Forall P (x :: l))) as [?|[]]; [|constructor].
      * destruct (decide (Forall P (x :: l))) as [[_ ?]%Forall_cons|?]; done.
    + destruct (decide (Forall P (x :: l))) as [[? _]%Forall_cons|?]; done.
Qed.

(** X12. Without edges, [compute_edge_importance] asks nothing of the ablator.
    It returns the empty map if the baseline has an error for every downstream
    node; otherwise the report of the statistics per downstream node raises
    [KeyError]. *)
Theorem compute_edge_importance_no_edges
    (downstream_nodes : list Node) (baseline_mses : list (Node * Q))
    (magnitudes : Tensor2) (means : list (Node * Q)) (target_token_idx : Z)
    (w : World self) :
  compute_edge_importance [] downstream_nodes baseline_mses magnitudes means
    target_token_idx w
  = (if decide (Forall (fun node => is_Some (dget baseline_mses node)) downstream_nodes)
     then Ok [] else Raise KeyError, w).
Proof.
  unfold compute_edge_importance, estimate_edge_ablation_effects. simpl.
  unfold bind, ret, lift. f_equal. unfold normalize_edge_mses. simpl.
  rewrite (rfold_total _ (fun (p : list (Node * Q) * list (Node * Q)) node =>
             (dset node 0%Q p.1, dset node 0%Q p.2))); cycle 1.
  { by intros [mins maxs] node. }
  destruct (fold_left _ downstream_nodes _) as [mins maxs] eqn:Hstats. simpl.
  assert (∀ node, node ∈ downstream_nodes →
            is_Some (dget mins node) ∧ is_Some (dget maxs node)) as Hall.
  { match type of Hstats with
    | fold_left ?f _ ?init = _ =>
        pose proof (fold_left_ind
          (fun pre (p : list (Node * Q) * list (Node * Q)) =>
             ∀ node, node ∈ pre → is_Some (dget p.1 node) ∧ is_Some (dget p.2 node))
          f downstream_nodes init) as Hind
    end.
    rewrite Hstats in Hind. apply Hind; clear Hind.
    - by intros node ?%elem_of_nil.
    - intros pre node suf [mins0 maxs0] _ IH node'. simpl in *.
      rewrite !dget_dset, elem_of_app, list_elem_of_singleton.
      case_decide; [eauto|]. intros [?|?]; [by apply IH|congruence]. }
  rewrite (rfold_check (fun node => is_Some (dget baseline_mses node)) _ KeyError).
  - destruct (decide (Forall _ (sorted node_leb downstream_nodes))) as [Hs|Hs].
    + rewrite decide_True; [done|]. by rewrite <- (sorted_perm node_leb).
    + rewrite decide_False; [done|]. by rewrite <- (sorted_perm node_leb).
  - intros node [[m0 Hmin] [m1 Hmax]]%elem_of_sorted%Hall.
    rewrite Hmin, Hmax. simpl.
    destruct (decide (is_Some (dget baseline_mses node))) as [[b Hb]|Hb].
    + by rewrite Hb.
    + destruct (dget baseline_mses node); [|done]. destruct Hb. eauto.
Qed.
End Failures.

Lemma search_model_failure_witness :
  search (self := Demo.mute_engine) Demo.tokens Demo.upstream_nodes
    Demo.downstream_nodes 2 (Demo.start Demo.mute_engine 0%nat)
  = (Raise ExternalError,
     log (EvForward Demo.tokens) (Demo.start Demo.mute_engine 0%nat)).
Proof.
  apply (search_model_failure (self := Demo.mute_engine) Demo.tokens
           Demo.upstream_nodes (mkNode 1 1 0) [mkNode 1 2 1] 2
           (Demo.start Demo.mute_engine 0%nat)).
  reflexivity.
Defined.

Lemma search_ablator_failure_witness :
  let variants :=
    (fun deps => mkCircuit deps ∅) <$>
      keys (dependencies_to_nodes
              (node_to_dependencies Demo.downstream_nodes
                 (causal_edges Demo.upstream_nodes Demo.downstream_nodes))) in
  search (self := Demo.refusing_engine) Demo.tokens Demo.upstream_nodes
    Demo.downstream_nodes 2 (Demo.start Demo.refusing_engine 0%nat)
  = (Raise ExternalError,
     mkWorld (self := Demo.refusing_engine) 0%nat
       [EvForward Demo.tokens; EvPatch 0 2 variants (10 ^ 10)]).
Proof.
  apply (search_ablator_failure (self := Demo.refusing_engine) Demo.tokens
           Demo.upstream_nodes (mkNode 1 1 0) [mkNode 1 2 1] 2
           (Demo.start Demo.refusing_engine 0%nat) [[3; 1]; [5; 1]; [7; 1]]%Q).
  - reflexivity.
  - reflexivity.
Defined.

Lemma compute_token_importance_missing_baseline_witness :
  compute_token_importance (self := Demo.unit_engine)
    (causal_edges Demo.upstream_nodes Demo.downstream_nodes) Demo.downstream_nodes
    [(mkNode 1 1 0, 1%Q)] [[3; 1]; [5; 1]; [7; 1]]%Q [] 2
    (Demo.start Demo.unit_engine 0%nat)
  = (Raise ZeroDivisionError, Demo.start Demo.unit_engine 0%nat).
Proof.
  apply (compute_token_importance_missing_baseline (self := Demo.unit_engine)
           (causal_edges Demo.upstream_nodes Demo.downstream_nodes)
           Demo.downstream_nodes [(mkNode 1 1 0, 1%Q)] [[3; 1]; [5; 1]; [7; 1]]%Q
           [] 2 (Demo.start Demo.unit_engine 0%nat) (mkNode 1 2 1)).
  - apply (bool_decide_unpack _). vm_compute. exact I.
  - intros node ->%list_elem_of_singleton. simpl. lia.
Defined.

(** ** The importance of an edge among its siblings *)

Lemma py_max_floor_pos m : (0 < py_max m epsilon)%Q.
Proof.
  pose proof (py_max_ge_r m epsilon). unfold epsilon in *. lra.
Qed.

Lemma py_max_0_le x y : (x <= y)%Q → (py_max x 0 <= py_max y 0)%Q.
Proof.
  intros Hxy. unfold py_max.
  destruct (Qlt_le_dec x 0), (Qlt_le_dec y 0); lra.
Qed.

Lemma py_max_floor_Qeq m1 m2 :
  (m1 == m2)%Q → (py_max m1 epsilon == py_max m2 epsilon)%Q.
Proof.
  intros Hm. unfold py_max.
  destruct (Qlt_le_dec m1 epsilon), (Qlt_le_dec m2 epsilon); lra.
Qed.

Lemma Qdiv_le_compat (a b d : Q) : (0 < d)%Q → (a <= b)%Q → (a / d <= b / d)%Q.
Proof.
  intros Hd Hab. apply Qle_shift_div_l; [done|].
  assert (a / d * d == a)%Q as -> by (field; lra). done.
Qed.

Lemma edge_sibling_maximum_unique abl b node m1 m2 :
  edge_sibling_maximum abl b node m1 → edge_sibling_maximum abl b node m2 →
  (m1 == m2)%Q.
Proof.
  intros [(e1 & x1 & Hx1 & Hd1 & ->) Hmax1] [(e2 & x2 & Hx2 & Hd2 & ->) Hmax2].
  pose proof (Hmax1 _ _ Hx2 Hd2). pose proof (Hmax2 _ _ Hx1 Hd1). lra.
Qed.

Section Siblings.
Context {self : EdgeSearch}.

(** X13. In a result of [search], the importance of an edge is 0 exactly when
    the error of its downstream node under the ablation of the edge does not
    exceed the baseline error of that node. *)
Theorem search_edge_importance_zero
    (tokens : list Z) (upstream_nodes downstream_nodes : list Node)
    (target_token_idx : Z) (w : World self) (result : EdgeSearchResult)
    (baseline_mses : list (Node * Q)) (ablation_mses : list (Edge * Q))
    (e : Edge) (x b : Q) :
  (search tokens upstream_nodes downstream_nodes target_token_idx w).1 = Ok result →
  (edge_errors tokens upstream_nodes downstream_nodes target_token_idx w).1
    = Ok (baseline_mses, ablation_mses) →
  dget ablation_mses e = Some x →
  dget baseline_mses (downstream e) = Some b →
  ∃ v, dget (edge_importance result) e = Some v ∧ ((v == 0)%Q ↔ (x <= b)%Q).
Proof.
  intros Hsearch Hrun Hx Hb.
  destruct (edge_errors_search _ _ _ _ _ _ _ _ Hsearch Hrun)
    as (w3 & w4 & um & means & Hedge & Habl).
  apply compute_edge_importance_spec in Hedge
    as (abl' & Habl' & Hnd & _ & Hkeys & Himp).
  rewrite Habl in Habl'. injection Habl' as <-.
  pose proof Habl as [_ Habl_keys]%estimate_edge_ablation_effects_keys.
  assert (is_Some (dget (edge_importance result) e)) as [v Hv].
  { apply dget_is_Some, Hkeys, Habl_keys, dget_is_Some. eauto. }
  exists v. split; [done|].
  apply Himp in Hv as (x0 & b0 & m & Hx0 & Hb0 & _ & Hv).
  rewrite Hx in Hx0. injection Hx0 as <-. rewrite Hb in Hb0. injection Hb0 as <-.
  apply py_div_Ok in Hv as [_ ->].
  pose proof (py_max_floor_pos m) as Hpos.
  unfold py_max at 1. destruct (Qlt_le_dec (x - b) 0) as [Hlt|Hge]; split.
  - intros _. lra.
  - intros _. field. lra.
  - intros Hzero.
    assert ((x - b) / py_max m epsilon * py_max m epsilon == x - b)%Q as Hmul
      by (field; lra).
    rewrite Hzero in Hmul. lra.
  - intros Hle. assert (x - b == 0)%Q as -> by lra. field. lra.
Qed.

(** X14. In a result of [search], the edges into one downstream node are
    ranked by the error of that node under their ablation: a larger error
    gives an importance that is not smaller. *)
Theorem search_edge_importance_monotone
    (tokens : list Z) (upstream_nodes downstream_nodes : list Node)
    (target_token_idx : Z) (w : World self) (result : EdgeSearchResult)
    (baseline_mses : list (Node * Q)) (ablation_mses : list (Edge * Q))
    (e1 e2 : Edge) (x1 x2 v1 v2 : Q) :
  (search tokens upstream_nodes downstream_nodes target_token_idx w).1 = Ok result →
  (edge_errors tokens upstream_nodes downstream_nodes target_token_idx w).1
    = Ok (baseline_mses, ablation_mses) →
  downstream e1 = downstream e2 →
  dget ablation_mses e1 = Some x1 →
  dget ablation_mses e2 = Some x2 →
  dget (edge_importance result) e1 = Some v1 →
  dget (edge_importance result) e2 = Some v2 →
  (x1 <= x2)%Q →
  (v1 <= v2)%Q.
Proof.
  intros Hsearch Hrun Hdown Hx1 Hx2 Hv1 Hv2 Hle.
  destruct (edge_errors_search _ _ _ _ _ _ _ _ Hsearch Hrun)
    as (w3 & w4 & um & means & Hedge & Habl).
  apply compute_edge_importance_spec in Hedge
    as (abl' & Habl' & _ & _ & _ & Himp).
  rewrite Habl in Habl'. injection Habl' as <-.
  apply Himp in Hv1 as (y1 & b1 & m1 & Hy1 & Hb1 & Hm1 & Hv1).
  apply Himp in Hv2 as (y2 & b2 & m2 & Hy2 & Hb2 & Hm2 & Hv2).
  rewrite Hx1 in Hy1. injection Hy1 as <-. rewrite Hx2 in Hy2. injection Hy2 as <-.
  rewrite Hdown in Hb1, Hm1. rewrite Hb1 in Hb2. injection Hb2 as <-.
  apply py_div_Ok in Hv1 as [_ ->]. apply py_div_Ok in Hv2 as [_ ->].
  rewrite (py_max_floor_Qeq m1 m2) by (by eapply edge_sibling_maximum_unique).
  apply Qdiv_le_compat; [apply py_max_floor_pos|].
  apply py_max_0_le. lra.
Qed.
(** X15. In a result of [search], the importance of an edge is 1 exactly when
    its raw increase (the error of its downstream node under the ablation of
    the edge less the baseline error of that node) reaches the floor 1e-6 of
    the divisor and no edge into the same node has a larger error under its
    ablation. *)
Theorem search_edge_importance_one
    (tokens : list Z) (upstream_nodes downstream_nodes : list Node)
    (target_token_idx : Z) (w : World self) (result : EdgeSearchResult)
    (baseline_mses : list (Node * Q)) (ablation_mses : list (Edge * Q))
    (e : Edge) (x b v : Q) :
  (search tokens upstream_nodes downstream_nodes target_token_idx w).1 = Ok result →
  (edge_errors tokens upstream_nodes downstream_nodes target_token_idx w).1
    = Ok (baseline_mses, ablation_mses) →
  dget ablation_mses e = Some x →
  dget baseline_mses (downstream e) = Some b →
  dget (edge_importance result) e = Some v →
  (v == 1)%Q ↔
  (epsilon <= x - b)%Q ∧
  ∀ e' x', dget ablation_mses e' = Some x' → downstream e' = downstream e →
           (x' <= x)%Q.
Proof.
  intros Hsearch Hrun Hx Hb Hv.
  destruct (edge_errors_search _ _ _ _ _ _ _ _ Hsearch Hrun)
    as (w3 & w4 & um & means & Hedge & Habl).
  apply compute_edge_importance_spec in Hedge
    as (abl' & Habl' & _ & _ & _ & Himp).
  rewrite Habl in Habl'. injection Habl' as <-.
  apply Himp in Hv as (x0 & b0 & m & Hx0 & Hb0 & [(e0 & y0 & Hy0 & Hd0 & ->) Hmax] & Hv).
  rewrite Hx in Hx0. injection Hx0 as <-. rewrite Hb in Hb0. injection Hb0 as <-.
  apply py_div_Ok in Hv as [_ ->].
  pose proof (Hmax _ _ Hx eq_refl) as Hle.
  pose proof (py_max_floor_pos (y0 - b)) as Hpos.
  assert (py_max (x - b) 0 / py_max (y0 - b) epsilon * py_max (y0 - b) epsilon
          == py_max (x - b) 0)%Q as Hmul by (field; lra).
  split.
  - intros Hone. rewrite Hone, Qmult_1_l in Hmul.
    unfold py_max in Hmul.
    destruct (Qlt_le_dec (y0 - b) epsilon), (Qlt_le_dec (x - b) 0);
      unfold epsilon in *; try lra.
    split; [lra|]. intros e' x' Hx' Hd'. pose proof (Hmax _ _ Hx' Hd'). lra.
  - intros [Hfloor Hall]. pose proof (Hall _ _ Hy0 Hd0).
    rewrite !py_max_l by (unfold epsilon in *; lra).
    assert (y0 - b == x - b)%Q as -> by lra.
    field. unfold epsilon in *. lra.
Qed.
End Siblings.

Lemma search_edge_importance_zero_witness :
  ∃ v, dget (edge_importance Demo.unit_result)
         (mkEdge (mkNode 0 0 0) (mkNode 1 1 0)) = Some v ∧
       ((v == 0)%Q ↔ (69632 # 8192 <= 1)%Q).
Proof.
  apply (search_edge_importance_zero (self := Demo.unit_engine) Demo.tokens
           Demo.upstream_nodes Demo.downstream_nodes 2
           (Demo.start Demo.unit_engine 0%nat) Demo.unit_result
           Demo.unit_errors.1 Demo.unit_errors.2
           (mkEdge (mkNode 0 0 0) (mkNode 1 1 0)) (69632 # 8192) (8192 # 8192)).
  - vm_compute. reflexivity.
  - vm_compute. reflexivity.
  - vm_compute. reflexivity.
  - vm_compute. reflexivity.
Defined.

Lemma search_edge_importance_monotone_witness :
  ∃ v1 v2,
    dget (edge_importance Demo.unit_result)
      (mkEdge (mkNode 0 0 0) (mkNode 1 1 0)) = Some v1 ∧
    dget (edge_importance Demo.unit_result)
      (mkEdge (mkNode 0 1 0) (mkNode 1 1 0)) = Some v2 ∧
    (v1 <= v2)%Q.
Proof.
  do 2 eexists. split_and!; [vm_compute; reflexivity..|].
  apply (search_edge_importance_monotone (self := Demo.unit_engine) Demo.tokens
           Demo.upstream_nodes Demo.downstream_nodes 2
           (Demo.start Demo.unit_engine 0%nat) Demo.unit_result
           Demo.unit_errors.1 Demo.unit_errors.2
           (mkEdge (mkNode 0 0 0) (mkNode 1 1 0))
           (mkEdge (mkNode 0 1 0) (mkNode 1 1 0))
           (69632 # 8192) (184320 # 8192)).
  - vm_compute. reflexivity.
  - vm_compute. reflexivity.
  - reflexivity.
  - vm_compute. reflexivity.
  - vm_compute. reflexivity.
  - vm_compute. reflexivity.
  - vm_compute. reflexivity.
  - vm_compute. discriminate.
Defined.

Lemma search_edge_importance_one_witness :
  (96827391988465664 # 96827391988465664 == 1)%Q ↔
  (epsilon <= (184320 # 8192) - (8192 # 8192))%Q ∧
  ∀ e' x', dget Demo.unit_errors.2 e' = Some x' →
           downstream e' = downstream (mkEdge (mkNode 0 1 0) (mkNode 1 1 0)) →
           (x' <= 184320 # 8192)%Q.
Proof.
  apply (search_edge_importance_one (self := Demo.unit_engine) Demo.tokens
           Demo.upstream_nodes Demo.downstream_nodes 2
           (Demo.start Demo.unit_engine 0%nat) Demo.unit_result
           Demo.unit_errors.1 Demo.unit_errors.2
           (mkEdge (mkNode 0 1 0) (mkNode 1 1 0))).
  - vm_compute. reflexivity.
  - vm_compute. reflexivity.
  - vm_compute. reflexivity.
  - vm_compute. reflexivity.
  - vm_compute. reflexivity.
Defined.

(** ** The errors of [estimate_downstream_node_mses] *)

Lemma Qsum_nonneg l : Forall (fun x => (0 <= x)%Q) l → (0 <= Qsum l)%Q.
Proof.
  induction 1 as [|x l Hx _ IH]; [done|]. rewrite Qsum_cons. lra.
Qed.

Lemma Qsquare_nonneg (y : Q) : (0 <= y ^ 2)%Q.
Proof. change (y ^ 2)%Q with (y * y)%Q. nra. Qed.

Lemma stated_normalized_mse_nonneg feature_max magnitudes reference_mean :
  (0 <= stated_normalized_mse feature_max magnitudes reference_mean)%Q.
Proof.
  unfold stated_normalized_mse.
  destruct magnitudes as [|m ms].
  - unfold Qdiv. vm_compute. discriminate.
  - apply Qle_shift_div_l.
    + change 0%Q with (inject_Z 0). rewrite <- Zlt_Qlt. simpl. lia.
    + rewrite Qmult_0_l. apply Qsum_nonneg, Forall_fmap, Forall_forall.
      intros x _. apply Qsquare_nonneg.
Qed.

Section Errors.
Context {self : EdgeSearch}.

(** X16. Every error that [estimate_downstream_node_mses] returns is the mean
    of the squared deviations of the node's samples from the node's reference
    mean, scaled by one coefficient for all nodes: the inverse of the maximum
    of the feature of the node that was sampled last.  No error is negative. *)
Theorem estimate_downstream_node_mses_shared_coefficient
    (downstream_nodes : list Node) (edges : list Edge) (magnitudes : Tensor2)
    (means : list (Node * Q)) (target_token_idx : Z) (w : World self)
    (mses : list (Node * Q)) :
  (estimate_downstream_node_mses downstream_nodes edges magnitudes means
     target_token_idx w).1 = Ok mses →
  ∃ sampled,
    (sample_downstream_feature_magnitudes downstream_nodes edges magnitudes
       target_token_idx num_samples w).1 = Ok sampled ∧
    (∀ node, node ∈ keys mses ↔ node ∈ keys sampled) ∧
    ∀ node v, dget mses node = Some v →
      (0 <= v)%Q ∧
      ∃ first profile last_node feature_max samples reference_mean,
        next_iter downstream_nodes = Ok first ∧
        model_profile (layer_idx first) = Some profile ∧
        last (keys sampled) = Some last_node ∧
        last_node ∈ downstream_nodes ∧
        profile (feature_idx last_node) = Some feature_max ∧
        dget sampled node = Some samples ∧
        dget means node = Some reference_mean ∧
        v = stated_normalized_mse feature_max samples reference_mean.
Proof.
  intros [w' Hrun]%run_Ok. unfold estimate_downstream_node_mses in Hrun.
  apply bind_Ok in Hrun as (sampled & w1 & Hsampled & [Hmses _]%lift_Ok).
  exists sampled. split; [by rewrite Hsampled|].
  apply sample_downstream_feature_magnitudes_keys in Hsampled as [Hnd Hsub].
  split; [by apply (normalized_mses_keys _ _ _ _ Hnd Hmses)|].
  intros node v Hv.
  destruct (normalized_mses_last_coefficient _ _ _ _ _ _ Hnd Hmses Hv)
    as (first & profile & last_node & feature_max & samples & reference_mean &
        Hfirst & Hprofile & Hlast & Hmax & Hsamples & Hmean & ->).
  split; [apply stated_normalized_mse_nonneg|].
  exists first, profile, last_node, feature_max, samples, reference_mean.
  split_and!; [done..| |done|done|done|done].
  apply Hsub. apply last_Some in Hlast as [l' ->].
  rewrite elem_of_app, list_elem_of_singleton. by right.
Qed.
End Errors.

Lemma estimate_downstream_node_mses_shared_coefficient_witness :
  ∃ sampled,
    (sample_downstream_feature_magnitudes (self := Demo.skewed_engine)
       Demo.sibling_nodes [] [[3; 1]]%Q 0 2 (Demo.start Demo.skewed_engine 0%nat)).1
      = Ok sampled ∧
    (∀ node, node ∈ keys Demo.sibling_mses ↔ node ∈ keys sampled) ∧
    ∀ node v, dget Demo.sibling_mses node = Some v →
      (0 <= v)%Q ∧
      ∃ first profile last_node feature_max samples reference_mean,
        next_iter Demo.sibling_nodes = Ok first ∧
        model_profile (EdgeSearch := Demo.skewed_engine) (layer_idx first)
          = Some profile ∧
        last (keys sampled) = Some last_node ∧
        last_node ∈ Demo.sibling_nodes ∧
        profile (feature_idx last_node) = Some feature_max ∧
        dget sampled node = Some samples ∧
        dget Demo.sibling_means node = Some reference_mean ∧
        v = stated_normalized_mse feature_max samples reference_mean.
Proof.
  apply (estimate_downstream_node_mses_shared_coefficient (self := Demo.skewed_engine)
           Demo.sibling_nodes [] [[3; 1]]%Q Demo.sibling_means 0
           (Demo.start Demo.skewed_engine 0%nat) Demo.sibling_mses).
  vm_compute. reflexivity.
Defined.

(** ** The keys of the importance maps *)

Section KeyOrder.
Context {K X Y : Type} `{EqDecision K}.

Lemma keys_dset_fresh (k : K) (y : Y) (d : list (K * Y)) :
  k ∉ keys d → keys (dset k y d) = keys d ++ [k].
Proof. intros Hk. unfold dset. rewrite keys_dupd. by rewrite decide_False. Qed.

(** [for k, x in l: d[k] = ...] from the empty dictionary keeps the order of
    the keys of [l]. *)
Lemma rfold_dict_keys_order
    (f : list (K * Y) -> K * X -> Result (list (K * Y))) l r :
  (∀ d k x d', f d (k, x) = Ok d' → ∃ y, d' = dset k y d) →
  NoDup l.*1 →
  rfold f l [] = Ok r →
  keys r = l.*1.
Proof.
  intros Hf Hnd.
  apply (rfold_ind (fun pre (d : list (K * Y)) => keys d = pre.*1)); [done|].
  intros pre [k x] suf d d' Hl Hd (y & ->)%Hf.
  rewrite keys_dset_fresh, Hd, fmap_app; [done|].
  rewrite Hd. eapply NoDup_fst_app_inv. by rewrite <- Hl.
Qed.

Lemma foldM_dict_keys_order `{self : EdgeSearch}
    (f : list (K * Y) -> K * X -> M self (list (K * Y))) l w r w' :
  (∀ d k x w d' w', f d (k, x) w = (Ok d', w') → ∃ y, d' = dset k y d) →
  NoDup l.*1 →
  foldM f l [] w = (Ok r, w') →
  keys r = l.*1.
Proof.
  intros Hf Hnd.
  apply (foldM_ind (fun pre (d : list (K * Y)) _ => keys d = pre.*1)); [done|].
  intros pre [k x] suf d w0 d' w0' Hl Hd (y & ->)%Hf.
  rewrite keys_dset_fresh, Hd, fmap_app; [done|].
  rewrite Hd. eapply NoDup_fst_app_inv. by rewrite <- Hl.
Qed.

Lemma insert_sorted_fst (leb : K -> K -> bool) (p : K * X) (l : list (K * X)) :
  (insert_sorted (fun x y => leb x.1 y.1) p l).*1 = insert_sorted leb p.1 l.*1.
Proof.
  induction l as [|q l IH]; csimpl; [done|].
  destruct (leb p.1 q.1); csimpl; [done|]. by rewrite IH.
Qed.

Lemma sorted_fst (leb : K -> K -> bool) (l : list (K * X)) :
  (sorted (fun x y => leb x.1 y.1) l).*1 = sorted leb l.*1.
Proof.
  unfold sorted. induction l as [|p l IH]; csimpl; [done|].
  by rewrite insert_sorted_fst, IH.
Qed.
End KeyOrder.

Section EdgeKeys.
Context {self : EdgeSearch}.

Lemma estimate_edge_ablation_effects_order down all_edges um means target w abl w' :
  NoDup all_edges →
  estimate_edge_ablation_effects down all_edges um means target w = (Ok abl, w') →
  keys abl = all_edges.
Proof.
  intros Hnd. unfold estimate_edge_ablation_effects. intros Hfold.
  apply foldM_dict_keys_order in Hfold.
  - rewrite Hfold.
    apply (keys_dict_of_NoDup
             (fun e => mkCircuit (list_to_set down) (list_to_set all_edges ∖ {[e]}))
             all_edges Hnd).
  - intros d e cv w0 d' w0' (errors & w1 & _ & Hrest)%bind_Ok.
    apply bind_Ok in Hrest as (mse & w2 & _ & [-> _]%ret_Ok). eauto.
  - apply (NoDup_keys_dict_of
             (fun e => mkCircuit (list_to_set down) (list_to_set all_edges ∖ {[e]}))).
Qed.

Lemma normalize_edge_mses_order down abl base imp :
  NoDup (keys abl) →
  normalize_edge_mses down abl base = Ok imp →
  keys imp = sorted edge_leb (keys abl).
Proof.
  intros Hnd. unfold normalize_edge_mses.
  intros (inc & Hinc & Hrest)%rbind_Ok.
  apply rbind_Ok in Hrest as ([mins maxs] & _ & Hrest).
  apply rbind_Ok in Hrest as ([] & _ & Himp).
  apply rfold_dict_keys_order in Hinc; cycle 1.
  { intros d e x d' (b & _ & [= <-])%rbind_Ok. eauto. }
  { by rewrite sorted_perm. }
  rewrite sorted_fst in Hinc.
  apply rfold_dict_keys_order in Himp; cycle 1.
  { intros d e x d' (m & _ & (v & _ & [= <-])%rbind_Ok)%rbind_Ok. eauto. }
  { fold (keys inc). rewrite Hinc. by apply NoDup_sorted. }
  by rewrite Himp.
Qed.

(** X17. The edge importance map of a result of [search] lists the candidate
    edges in ascending order (by upstream node, then by downstream node), each
    once. *)
Theorem search_edge_importance_order
    (tokens : list Z) (upstream_nodes downstream_nodes : list Node)
    (target_token_idx : Z) (w : World self) (result : EdgeSearchResult) :
  (search tokens upstream_nodes downstream_nodes target_token_idx w).1 = Ok result →
  keys (edge_importance result)
  = sorted edge_leb (causal_edges upstream_nodes downstream_nodes).
Proof.
  intros [w' Hsearch]%run_Ok.
  apply search_Ok in Hsearch
    as (first & um & means & base & edge_imp & token_imp & w1 & w2 & w3 & w4 &
        _ & _ & _ & _ & Hedge & _ & ->). simpl.
  unfold compute_edge_importance in Hedge.
  apply bind_Ok in Hedge as (abl & w5 & Habl & [Himp _]%lift_Ok).
  apply estimate_edge_ablation_effects_order in Habl; [|apply NoDup_causal_edges].
  apply normalize_edge_mses_order in Himp.
  - by rewrite Himp, Habl.
  - rewrite Habl. apply NoDup_causal_edges.
Qed.
End EdgeKeys.

Lemma search_edge_importance_order_witness :
  keys (edge_importance Demo.unit_result)
  = sorted edge_leb (causal_edges Demo.upstream_nodes Demo.downstream_nodes).
Proof.
  apply (search_edge_importance_order (self := Demo.unit_engine) Demo.tokens
           Demo.upstream_nodes Demo.downstream_nodes 2
           (Demo.start Demo.unit_engine 0%nat) Demo.unit_result).
  vm_compute. reflexivity.
Defined.

Section NestedTotal.
Context {K1 K2 X Y : Type} `{EqDecision K1, EqDecision K2}.

(** A nested loop that runs to its end has processed every entry. *)
Lemma rfold_nested_each (h : K1 -> K2 -> X -> Result Y)
    (outer : list (K1 * list (K2 * Y)) -> K1 * list (K2 * X) ->
             Result (list (K1 * list (K2 * Y))))
    (step : K1 -> list (K1 * list (K2 * Y)) -> K2 * X ->
            Result (list (K1 * list (K2 * Y))))
    (o1 : list (K1 * list (K2 * X)) -> list (K1 * list (K2 * X)))
    (o2 : list (K2 * X) -> list (K2 * X)) D R :
  (∀ l, o1 l ≡ₚ l) → (∀ l, o2 l ≡ₚ l) →
  (∀ acc a inner, outer acc (a, inner) = rfold (step a) (o2 inner) acc) →
  (∀ a acc b x, step a acc (b, x) =
                (let? y := h a b x in Ok (dupd a (dset b y) [] acc))) →
  rfold outer (o1 D) [] = Ok R →
  ∀ a b x, dget2 D a b = Some x → ∃ y, h a b x = Ok y.
Proof.
  intros Ho1 Ho2 Houter Hstep HR a b x Hx. unfold dget2 in Hx.
  destruct (dget D a) as [inner|] eqn:Hinner; [|done]. simpl in Hx.
  apply dget_Some_elem in Hinner, Hx.
  rewrite <- (Ho1 D) in Hinner. rewrite <- (Ho2 inner) in Hx.
  destruct (rfold_each _ _ _ _ _ HR Hinner) as (acc & acc' & Hacc).
  rewrite Houter in Hacc.
  destruct (rfold_each _ _ _ _ _ Hacc Hx) as (acc0 & acc1 & Hacc0).
  rewrite Hstep in Hacc0. apply rbind_Ok in Hacc0 as (y & Hy & _). eauto.
Qed.
End NestedTotal.

Section TokenKeys.
Context {self : EdgeSearch}.

Lemma normalize_token_mses_keys up_layer dts tb T imp :
  wf2 T →
  normalize_token_mses up_layer dts tb T = Ok imp →
  ∀ g, g ∈ keys imp ↔
       upstream_layer_idx g = up_layer ∧
       is_Some (dget2 T (downstream_token_idx g) (upstream_token_idx g)).
Proof.
  intros HT Hnorm g. split.
  { intros [v Hv]%dget_is_Some.
    destruct (normalize_token_mses_spec _ _ _ _ _ HT Hnorm) as [_ Himp].
    apply Himp in Hv as (? & x & _ & _ & Hx & _). eauto. }
  revert Hnorm. unfold normalize_token_mses.
  intros (T3 & HT3 & Hrest)%rbind_Ok.
  destruct (fold_left _ dts _) as [[T3' mins] maxs] eqn:Hstats.
  apply rbind_Ok in Hrest as ([] & _ & Himp).
  assert (∀ dt ut x, dget2 T dt ut = Some x →
            ∃ y, (let? b := of_option KeyError (dget tb dt) in Ok (x - b)%Q) = Ok y)
    as Htotal.
  { eapply (rfold_nested_each
              (fun (dt ut : Z) (x : Q) =>
                 let? b := of_option KeyError (dget tb dt) in Ok (x - b)%Q)
              _
              (fun dt increases '(up_token, token_mse) =>
                 let? baseline_mse := of_option KeyError (dget tb dt) in
                 Ok (dupd dt (dset up_token (token_mse - baseline_mse)%Q) [] increases))
              (sorted (fun x y => Z.leb x.1 y.1))
              (sorted (fun x y => Z.leb x.1 y.1)));
      [apply sorted_perm|apply sorted_perm| | |exact HT3];
      [done|intros dt acc ut x; by destruct (of_option _ _)]. }
  apply (rfold_nested_dict_map
           (fun (dt ut : Z) (x : Q) =>
              let? b := of_option KeyError (dget tb dt) in Ok (x - b)%Q)
           _
           (fun dt increases '(up_token, token_mse) =>
              let? baseline_mse := of_option KeyError (dget tb dt) in
              Ok (dupd dt (dset up_token (token_mse - baseline_mse)%Q) [] increases))
           (sorted (fun x y => Z.leb x.1 y.1))
           (sorted (fun x y => Z.leb x.1 y.1))) in HT3 as [HwfT3 HT3];
    [|apply sorted_perm|apply sorted_perm|done
     |intros dt acc ut x; by destruct (of_option _ _)|done].
  (* the statistics keep the increases *)
  assert (∀ k, default [] (dget T3' k) = default [] (dget T3 k)) as HT3'.
  { match type of Hstats with
    | fold_left ?f _ ?init = _ =>
        pose proof (fold_left_inv
          (fun p : list (Z * list (Z * Q)) * list (Z * Q) * list (Z * Q) =>
             ∀ k, default [] (dget p.1.1 k) = default [] (dget T3 k))
          f dts init) as Hinv
    end.
    rewrite Hstats in Hinv. apply Hinv; clear Hinv; [done|].
    intros [[T0 mins0] maxs0] dt0 _ HT0 k. simpl in *.
    rewrite dget_dupd. case_decide; [subst|]; simpl; apply HT0. }
  (* every increase gets an importance *)
  assert (∀ dt inner ut y, (dt, inner) ∈ T3' → (ut, y) ∈ inner →
            mkEdgeGroup up_layer ut dt ∈ keys imp) as Hall.
  { pose (I := fun (pre : list (Z * list (Z * Q))) (imp : list (EdgeGroup * Q)) =>
      ∀ dt inner ut y, (dt, inner) ∈ pre → (ut, y) ∈ inner →
        mkEdgeGroup up_layer ut dt ∈ keys imp).
    apply (rfold_ind I) in Himp; [done| |].
    { by intros dt inner ut y ?%elem_of_nil. }
    intros pre [dt inner] suf acc acc' _ Hacc Hfold.
    pose (J := fun (pre2 : list (Z * Q)) (imp : list (EdgeGroup * Q)) =>
      (∀ g, g ∈ keys acc → g ∈ keys imp) ∧
      ∀ ut y, (ut, y) ∈ pre2 → mkEdgeGroup up_layer ut dt ∈ keys imp).
    apply (rfold_ind J) in Hfold as [Hkeep Hnew].
    - intros dt' inner' ut y [Hin|[= -> ->]%list_elem_of_singleton]%elem_of_app Hut.
      + eapply Hkeep, Hacc; done.
      + by eapply Hnew.
    - split; [done|]. by intros ut y ?%elem_of_nil.
    - intros pre2 [ut y] suf2 acc0 acc1 _ [Hkeep0 Hnew0].
      intros (m & _ & (v0 & _ & [= <-])%rbind_Ok)%rbind_Ok.
      unfold dset. split.
      + intros g' Hg'. rewrite elem_of_keys_dupd. right. by apply Hkeep0.
      + intros ut' y' [Hin|[= -> ->]%list_elem_of_singleton]%elem_of_app.
        * rewrite elem_of_keys_dupd. right. by eapply Hnew0.
        * rewrite elem_of_keys_dupd. by left. }
  intros [<- [x Hx]]. destruct g as [gl ut dt]. simpl in *.
  destruct (Htotal _ _ _ Hx) as [y Hy].
  assert (dget2 T3 dt ut = Some y) as Hy3 by (apply HT3; eauto).
  unfold dget2 in Hy3. destruct (dget T3 dt) as [inner|] eqn:Hinner; [|done].
  simpl in Hy3. specialize (HT3' dt). rewrite Hinner in HT3'. simpl in HT3'.
  destruct (dget T3' dt) as [inner'|] eqn:Hinner'; simpl in HT3'.
  - subst inner'. eapply Hall; by apply dget_Some_elem.
  - subst inner. done.
Qed.

Lemma token_errors_keys down all_edges um means target toks w ests w' :
  token_errors down all_edges um means target toks w = (Ok ests, w') →
  keys ests = toks.
Proof.
  unfold token_errors.
  apply (foldM_ind (fun pre (acc : list (Z * list (Node * Q))) _ => keys acc = pre));
    [done|].
  intros pre token suf acc w0 acc' w0' _ Hacc (est & w1 & _ & [-> _]%ret_Ok)%bind_Ok.
  unfold keys in *. by rewrite fmap_app, Hacc.
Qed.

Lemma elem_of_ablated_tokens all_edges ut :
  ut ∈ ablated_tokens all_edges ↔ ∃ e, e ∈ all_edges ∧ token_idx (upstream e) = ut.
Proof.
  unfold ablated_tokens.
  rewrite elem_of_sorted, elem_of_set_of_list, list_elem_of_fmap. naive_solver.
Qed.

(** The averaged errors of [estimate_token_ablation_effects] have one entry
    per pair of a downstream token and an upstream token that an edge
    joins. *)
Lemma estimate_token_ablation_effects_keys down all_edges um means target w T w' :
  estimate_token_ablation_effects down all_edges um means target w = (Ok T, w') →
  wf2 T ∧
  ∀ dt ut, is_Some (dget2 T dt ut) ↔
    ∃ e, e ∈ all_edges ∧ token_idx (upstream e) = ut ∧ token_idx (downstream e) = dt.
Proof.
  intros (ests & Hests & _ & HwfT & HT)%estimate_token_ablation_effects_spec.
  split; [done|]. intros dt ut. split.
  - intros [x (est & _ & Hne & _)%HT].
    apply filter_nonempty_elem in Hne as (d & Hd & Hdt).
    apply elem_of_fed_nodes in Hd as (e & He & Hut & <-). eauto.
  - intros (e & He & Hut & Hdt).
    assert (is_Some (dget ests ut)) as [est Hest].
    { apply dget_is_Some. rewrite (token_errors_keys _ _ _ _ _ _ _ _ _ Hests).
      apply elem_of_ablated_tokens. eauto. }
    set (L := filter (fun d => token_idx d = dt) (fed_nodes all_edges ut)).
    assert (L ≠ []) as HL.
    { assert (downstream e ∈ L) as Hin; [|by destruct L; [apply elem_of_nil in Hin|]].
      apply list_elem_of_filter. split; [done|]. apply elem_of_fed_nodes. eauto. }
    eexists. apply HT. exists est. split_and!; [done..|].
    apply py_average_Ok. split; [|done]. fold L. by destruct L.
Qed.

Lemma compute_token_importance_keys all_edges down base um means target w imp w' :
  compute_token_importance all_edges down base um means target w = (Ok imp, w') →
  ∀ g, g ∈ keys imp ↔
       upstream_layer_idx g = upstream_layer_of down ∧
       ∃ e, e ∈ all_edges ∧ token_idx (upstream e) = upstream_token_idx g ∧
            token_idx (downstream e) = downstream_token_idx g.
Proof.
  unfold compute_token_importance.
  intros (first & w1 & [Hfirst ->]%lift_Ok & Hrest)%bind_Ok.
  apply bind_Ok in Hrest as (tb & w2 & [_ ->]%lift_Ok & Hrest).
  apply bind_Ok in Hrest as (T & w3 & HT & [Himp ->]%lift_Ok).
  apply estimate_token_ablation_effects_keys in HT as [HwfT HT].
  intros g. rewrite (normalize_token_mses_keys _ _ _ _ _ HwfT Himp g), HT.
  destruct down as [|first' rest]; [done|]. by injection Hfirst as ->.
Qed.

(** X18. A result of [search] and the placeholders for the same nodes have the
    same edges.  The edge groups of the result are those of the placeholders
    with the layer below the first downstream node in place of the layer of
    the upstream nodes; they are the same groups when every upstream node is
    in that layer.  No edge group occurs twice. *)
Theorem search_keys_match_placeholders
    (tokens : list Z) (upstream_nodes downstream_nodes : list Node)
    (target_token_idx : Z) (w : World self) (result : EdgeSearchResult) :
  (search tokens upstream_nodes downstream_nodes target_token_idx w).1 = Ok result →
  let placeholders := get_placeholders upstream_nodes downstream_nodes in
  (∀ e, e ∈ keys (edge_importance result) ↔ e ∈ keys (edge_importance placeholders)) ∧
  (∀ g, g ∈ keys (token_importance result) ↔
        ∃ g', g' ∈ keys (token_importance placeholders) ∧
              g = mkEdgeGroup (upstream_layer_of downstream_nodes)
                    (upstream_token_idx g') (downstream_token_idx g')) ∧
  ((∀ node, node ∈ upstream_nodes →
            layer_idx node = upstream_layer_of downstream_nodes) →
   ∀ g, g ∈ keys (token_importance result) ↔
        g ∈ keys (token_importance placeholders)) ∧
  NoDup (keys (token_importance result)).
Proof.
  intros [w' Hsearch]%run_Ok placeholders. subst placeholders.
  apply search_Ok in Hsearch
    as (first & um & means & base & edge_imp & token_imp & w1 & w2 & w3 & w4 &
        _ & _ & _ & _ & Hedge & Htoken & ->). simpl.
  apply compute_edge_importance_spec in Hedge as (abl & _ & _ & _ & Hkeys & _).
  pose proof (compute_token_importance_keys _ _ _ _ _ _ _ _ _ Htoken) as Hgroups.
  pose proof Htoken
    as (? & ? & ? & ? & _ & _ & _ & _ & _ & Hnd & _)%compute_token_importance_spec.
  assert (∀ g, g ∈ keys token_imp ↔
            ∃ g', g' ∈ keys (token_importance
                               (get_placeholders upstream_nodes downstream_nodes)) ∧
                  g = mkEdgeGroup (upstream_layer_of downstream_nodes)
                        (upstream_token_idx g') (downstream_token_idx g')) as Hsecond.
  { intros g. rewrite Hgroups.
    setoid_rewrite elem_of_placeholder_groups.
    setoid_rewrite elem_of_causal_edges. split.
    - intros (Hlayer & e & He & Hut & Hdt). exists (group_of e).
      split; [eauto|]. destruct g. simpl in *. by subst.
    - intros (g' & (e & He & ->) & ->). simpl. eauto. }
  split_and!.
  - intros e. rewrite Hkeys. simpl. by rewrite elem_of_keys_dict_of.
  - done.
  - intros Hlayers g. rewrite Hsecond. split.
    + intros (g' & Hg' & ->).
      pose proof Hg' as (e & (Hup & _) & ->)%elem_of_placeholder_groups.
      rewrite <- (Hlayers _ Hup). by destruct e as [[] []].
    + intros Hg. exists g. split; [done|].
      pose proof Hg as (e & (Hup & _) & ->)%elem_of_placeholder_groups.
      rewrite <- (Hlayers _ Hup). by destruct e as [[] []].
  - done.
Qed.
End TokenKeys.

Lemma search_keys_match_placeholders_witness :
  let placeholders := get_placeholders Demo.upstream_nodes Demo.downstream_nodes in
  (∀ e, e ∈ keys (edge_importance Demo.unit_result) ↔
        e ∈ keys (edge_importance placeholders)) ∧
  (∀ g, g ∈ keys (token_importance Demo.unit_result) ↔
        ∃ g', g' ∈ keys (token_importance placeholders) ∧
              g = mkEdgeGroup (upstream_layer_of Demo.downstream_nodes)
                    (upstream_token_idx g') (downstream_token_idx g')) ∧
  ((∀ node, node ∈ Demo.upstream_nodes →
            layer_idx node = upstream_layer_of Demo.downstream_nodes) →
   ∀ g, g ∈ keys (token_importance Demo.unit_result) ↔
        g ∈ keys (token_importance placeholders)) ∧
  NoDup (keys (token_importance Demo.unit_result)).
Proof.
  apply (search_keys_match_placeholders (self := Demo.unit_engine) Demo.tokens
           Demo.upstream_nodes Demo.downstream_nodes 2
           (Demo.start Demo.unit_engine 0%nat) Demo.unit_result).
  vm_compute. reflexivity.
Defined.

(** ** The importance of an edge group among its siblings *)

Lemma token_sibling_maximum_unique T b dt m1 m2 :
  token_sibling_maximum T b dt m1 → token_sibling_maximum T b dt m2 → (m1 == m2)%Q.
Proof.
  intros [(ut1 & x1 & Hx1 & ->) Hmax1] [(ut2 & x2 & Hx2 & ->) Hmax2].
  pose proof (Hmax1 _ _ Hx2). pose proof (Hmax2 _ _ Hx1). lra.
Qed.

Lemma normalized_zero x m :
  (py_max x 0 / py_max m epsilon == 0)%Q ↔ (x <= 0)%Q.
Proof.
  pose proof (py_max_floor_pos m) as Hpos.
  unfold py_max at 1. destruct (Qlt_le_dec x 0) as [Hlt|Hge]; split.
  - intros _. lra.
  - intros _. field. lra.
  - intros Hzero.
    assert (x / py_max m epsilon * py_max m epsilon == x)%Q as Hmul by (field; lra).
    rewrite Hzero in Hmul. lra.
  - intros Hle. assert (x == 0)%Q as -> by lra. field. lra.
Qed.

Section TokenSiblings.
Context {self : EdgeSearch}.

(** The table behind the token importance of a result of [search]: the
    averaged error [T[dt][ut]] per token pair and the averaged baseline
    [tb[dt]] per downstream token, whose difference is the increase of the
    pair. *)
Lemma search_token_table tokens up down target w result baseline estimates :
  NoDup down →
  (search tokens up down target w).1 = Ok result →
  (token_ablation_errors tokens up down target w).1 = Ok (baseline, estimates) →
  ∃ T tb,
    (∀ g, g ∈ keys (token_importance result) ↔
          upstream_layer_idx g = upstream_layer_of down ∧
          ∃ e, e ∈ causal_edges up down ∧
               token_idx (upstream e) = upstream_token_idx g ∧
               token_idx (downstream e) = downstream_token_idx g) ∧
    (∀ g v, dget (token_importance result) g = Some v →
       ∃ x b m,
         dget2 T (downstream_token_idx g) (upstream_token_idx g) = Some x ∧
         dget tb (downstream_token_idx g) = Some b ∧
         token_sibling_maximum T b (downstream_token_idx g) m ∧
         py_div (py_max (x - b) 0) (py_max m epsilon) = Ok v) ∧
    (∀ dt ut x b, dget2 T dt ut = Some x → dget tb dt = Some b →
       ∃ est e, dget estimates ut = Some est ∧
         e ∈ causal_edges up down ∧
         token_idx (upstream e) = ut ∧ token_idx (downstream e) = dt ∧
         (x - b == token_increase est baseline down dt)%Q).
Proof.
  intros Hnd [w' Hsearch]%run_Ok Herrors.
  apply search_Ok in Hsearch
    as (first & um & means & base & edge_imp & token_imp & w1 & w2 & w3 & w4 &
        Hfirst & Hum & Hmeans & Hbase & Hedge & Htoken & ->).
  pose proof Hbase as [Hnd_base Hbase_sub]%estimate_downstream_node_mses_keys.
  pose proof Hedge as (abl & _ & _ & Hbase_all & _)%compute_edge_importance_spec.
  assert (∀ d, d ∈ keys base ↔ d ∈ down) as Hbase_keys.
  { intros d. split; [apply Hbase_sub|]. intros Hd. by apply dget_is_Some, Hbase_all. }
  pose proof (compute_token_importance_keys _ _ _ _ _ _ _ _ _ Htoken) as Hkeys.
  apply compute_token_importance_spec in Htoken
    as (first' & ests & T & tb & _ & Hests & _ & HT & Htb & _ & Himp).
  assert (baseline = base ∧ estimates = ests) as [-> ->].
  { revert Herrors. unfold token_ablation_errors.
    erewrite bind_run by (by apply lift_Ok).
    erewrite bind_run by done. erewrite bind_run by done.
    erewrite bind_run by done. erewrite bind_run by done.
    erewrite bind_run by done. simpl. by intros [= -> ->]. }
  exists T, tb. simpl. split_and!.
  - done.
  - intros g v (_ & Hv)%Himp. done.
  - intros dt ut x b (est & Hest & Hne & Hx)%HT Hb%Htb.
    destruct (filter_nonempty_elem _ _ Hne) as (d0 & Hd0 & Hdt0).
    apply elem_of_fed_nodes in Hd0 as (e0 & He0 & Hut0 & <-).
    exists est, e0. split_and!; [done..|].
    by eapply token_increase_average.
Qed.

(** X19. In a result of [search], a downstream token that some upstream token
    feeds with an increase (the average over the downstream nodes at that
    token of the error under the ablation of the upstream token less the
    baseline error) that reaches the floor 1e-6 of the divisor has an edge
    group of importance 1. *)
Theorem search_token_maximality
    (tokens : list Z) (upstream_nodes downstream_nodes : list Node)
    (target_token_idx : Z) (w : World self) (result : EdgeSearchResult)
    (baseline : list (Node * Q)) (estimates : list (Z * list (Node * Q)))
    (e : Edge) (ablated : list (Node * Q)) :
  NoDup downstream_nodes →
  (search tokens upstream_nodes downstream_nodes target_token_idx w).1 = Ok result →
  (token_ablation_errors tokens upstream_nodes downstream_nodes
     target_token_idx w).1 = Ok (baseline, estimates) →
  candidate_edge upstream_nodes downstream_nodes e →
  dget estimates (token_idx (upstream e)) = Some ablated →
  (epsilon <= token_increase ablated baseline downstream_nodes
                (token_idx (downstream e)))%Q →
  ∃ g v, downstream_token_idx g = token_idx (downstream e) ∧
         dget (token_importance result) g = Some v ∧ (v == 1)%Q.
Proof.
  intros Hnd Hsearch Herrors He Hablated Hinc.
  destruct (search_token_table _ _ _ _ _ _ _ _ Hnd Hsearch Herrors)
    as (T & tb & Hkeys & Himp & Hpair).
  set (ut := token_idx (upstream e)) in *. set (dt := token_idx (downstream e)) in *.
  (* the pair of [e] has an importance, which names the maximum at [dt] ... *)
  assert (is_Some (dget (token_importance result)
                     (mkEdgeGroup (upstream_layer_of downstream_nodes) ut dt)))
    as [v0 Hv0].
  { apply dget_is_Some, Hkeys. split; [done|]. exists e.
    by rewrite elem_of_causal_edges. }
  apply Himp in Hv0 as (x & b & m & Hx & Hb & Hm & _). simpl in Hx, Hb, Hm.
  destruct (Hpair _ _ _ _ Hx Hb) as (est & _ & Hest & _ & _ & _ & Hxb).
  rewrite Hablated in Hest. injection Hest as <-.
  pose proof Hm as [(ut' & x' & Hx' & ->) Hmax].
  pose proof (Hmax _ _ Hx) as Hge.
  (* ... which the pair of an upstream token [ut'] attains *)
  destruct (Hpair _ _ _ _ Hx' Hb) as (_ & e' & _ & He' & Hut' & Hdt' & _).
  assert (is_Some (dget (token_importance result)
                     (mkEdgeGroup (upstream_layer_of downstream_nodes) ut' dt)))
    as [v Hv].
  { apply dget_is_Some, Hkeys. split; [done|]. by exists e'. }
  exists (mkEdgeGroup (upstream_layer_of downstream_nodes) ut' dt), v.
  split_and!; [done..|].
  apply Himp in Hv as (x1 & b1 & m1 & Hx1 & Hb1 & Hm1 & Hv).
  simpl in Hx1, Hb1, Hm1.
  rewrite Hx' in Hx1. injection Hx1 as <-. rewrite Hb in Hb1. injection Hb1 as <-.
  pose proof (token_sibling_maximum_unique _ _ _ _ _ Hm Hm1) as Hmm.
  apply py_div_Ok in Hv as [_ ->].
  rewrite <- (py_max_floor_Qeq _ _ Hmm).
  rewrite !py_max_l by (unfold epsilon in *; lra).
  field. unfold epsilon in *. lra.
Qed.

(** X20. In a result of [search], the importance of an edge group is 0 exactly
    when the ablation of its upstream token does not increase the error at its
    downstream token, averaged over the downstream nodes there. *)
Theorem search_token_importance_zero
    (tokens : list Z) (upstream_nodes downstream_nodes : list Node)
    (target_token_idx : Z) (w : World self) (result : EdgeSearchResult)
    (baseline : list (Node * Q)) (estimates : list (Z * list (Node * Q)))
    (g : EdgeGroup) (v : Q) (ablated : list (Node * Q)) :
  NoDup downstream_nodes →
  (search tokens upstream_nodes downstream_nodes target_token_idx w).1 = Ok result →
  (token_ablation_errors tokens upstream_nodes downstream_nodes
     target_token_idx w).1 = Ok (baseline, estimates) →
  dget (token_importance result) g = Some v →
  dget estimates (upstream_token_idx g) = Some ablated →
  (v == 0)%Q ↔
  (token_increase ablated baseline downstream_nodes (downstream_token_idx g) <= 0)%Q.
Proof.
  intros Hnd Hsearch Herrors Hv Hablated.
  destruct (search_token_table _ _ _ _ _ _ _ _ Hnd Hsearch Herrors)
    as (T & tb & _ & Himp & Hpair).
  apply Himp in Hv as (x & b & m & Hx & Hb & _ & Hv).
  destruct (Hpair _ _ _ _ Hx Hb) as (est & _ & Hest & _ & _ & _ & Hxb).
  rewrite Hablated in Hest. injection Hest as <-.
  apply py_div_Ok in Hv as [_ ->]. by rewrite normalized_zero, Hxb.
Qed.

(** X21. In a result of [search], the edge groups into one downstream token
    are ranked by the increase that the ablation of their upstream token
    causes there: a larger increase gives an importance that is not smaller. *)
Theorem search_token_importance_monotone
    (tokens : list Z) (upstream_nodes downstream_nodes : list Node)
    (target_token_idx : Z) (w : World self) (result : EdgeSearchResult)
    (baseline : list (Node * Q)) (estimates : list (Z * list (Node * Q)))
    (g1 g2 : EdgeGroup) (v1 v2 : Q) (ablated1 ablated2 : list (Node * Q)) :
  NoDup downstream_nodes →
  (search tokens upstream_nodes downstream_nodes target_token_idx w).1 = Ok result →
  (token_ablation_errors tokens upstream_nodes downstream_nodes
     target_token_idx w).1 = Ok (baseline, estimates) →
  downstream_token_idx g1 = downstream_token_idx g2 →
  dget (token_importance result) g1 = Some v1 →
  dget (token_importance result) g2 = Some v2 →
  dget estimates (upstream_token_idx g1) = Some ablated1 →
  dget estimates (upstream_token_idx g2) = Some ablated2 →
  (token_increase ablated1 baseline downstream_nodes (downstream_token_idx g1)
   <= token_increase ablated2 baseline downstream_nodes (downstream_token_idx g2))%Q →
  (v1 <= v2)%Q.
Proof.
  intros Hnd Hsearch Herrors Hdt Hv1 Hv2 Hablated1 Hablated2 Hle.
  destruct (search_token_table _ _ _ _ _ _ _ _ Hnd Hsearch Herrors)
    as (T & tb & _ & Himp & Hpair).
  apply Himp in Hv1 as (x1 & b1 & m1 & Hx1 & Hb1 & Hm1 & Hv1).
  apply Himp in Hv2 as (x2 & b2 & m2 & Hx2 & Hb2 & Hm2 & Hv2).
  destruct (Hpair _ _ _ _ Hx1 Hb1) as (est1 & _ & Hest1 & _ & _ & _ & Hxb1).
  destruct (Hpair _ _ _ _ Hx2 Hb2) as (est2 & _ & Hest2 & _ & _ & _ & Hxb2).
  rewrite Hablated1 in Hest1. injection Hest1 as <-.
  rewrite Hablated2 in Hest2. injection Hest2 as <-.
  rewrite Hdt in Hb1, Hm1. rewrite Hb1 in Hb2. injection Hb2 as <-.
  apply py_div_Ok in Hv1 as [_ ->]. apply py_div_Ok in Hv2 as [_ ->].
  rewrite (py_max_floor_Qeq m1 m2) by (by eapply token_sibling_maximum_unique).
  apply Qdiv_le_compat; [apply py_max_floor_pos|].
  apply py_max_0_le. lra.
Qed.
End TokenSiblings.

Lemma search_token_maximality_witness :
  ∃ g v, downstream_token_idx g = 1 ∧
         dget (token_importance Demo.unit_result) g = Some v ∧ (v == 1)%Q.
Proof.
  apply (search_token_maximality (self := Demo.unit_engine) Demo.tokens
           Demo.upstream_nodes Demo.downstream_nodes 2
           (Demo.start Demo.unit_engine 0%nat) Demo.unit_result
           Demo.unit_token_errors.1 Demo.unit_token_errors.2
           (mkEdge (mkNode 0 1 0) (mkNode 1 1 0))
           (default [] (dget Demo.unit_token_errors.2 1))).
  - apply (bool_decide_unpack _). vm_compute. exact I.
  - vm_compute. reflexivity.
  - vm_compute. reflexivity.
  - apply (bool_decide_unpack _). vm_compute. exact I.
  - vm_compute. reflexivity.
  - vm_compute. discriminate.
Defined.

Lemma search_token_importance_zero_witness :
  ∃ v, dget (token_importance Demo.unit_result) (mkEdgeGroup 0 0 1) = Some v ∧
       ((v == 0)%Q ↔
        (token_increase (default [] (dget Demo.unit_token_errors.2 0%Z))
           Demo.unit_token_errors.1 Demo.downstream_nodes 1%Z <= 0)%Q).
Proof.
  eexists. split; [vm_compute; reflexivity|].
  apply (search_token_importance_zero (self := Demo.unit_engine) Demo.tokens
           Demo.upstream_nodes Demo.downstream_nodes 2
           (Demo.start Demo.unit_engine 0%nat) Demo.unit_result
           Demo.unit_token_errors.1 Demo.unit_token_errors.2
           (mkEdgeGroup 0 0 1)).
  - apply (bool_decide_unpack _). vm_compute. exact I.
  - vm_compute. reflexivity.
  - vm_compute. reflexivity.
  - vm_compute. reflexivity.
  - vm_compute. reflexivity.
Defined.

Lemma search_token_importance_monotone_witness :
  ∃ v1 v2,
    dget (token_importance Demo.unit_result) (mkEdgeGroup 0 0 1) = Some v1 ∧
    dget (token_importance Demo.unit_result) (mkEdgeGroup 0 1 1) = Some v2 ∧
    (v1 <= v2)%Q.
Proof.
  do 2 eexists. split_and!; [vm_compute; reflexivity..|].
  apply (search_token_importance_monotone (self := Demo.unit_engine) Demo.tokens
           Demo.upstream_nodes Demo.downstream_nodes 2
           (Demo.start Demo.unit_engine 0%nat) Demo.unit_result
           Demo.unit_token_errors.1 Demo.unit_token_errors.2
           (mkEdgeGroup 0 0 1) (mkEdgeGroup 0 1 1) _ _
           (default [] (dget Demo.unit_token_errors.2 0))
           (default [] (dget Demo.unit_token_errors.2 1))).
  - apply (bool_decide_unpack _). vm_compute. exact I.
  - vm_compute. reflexivity.
  - vm_compute. reflexivity.
  - reflexivity.
  - vm_compute. reflexivity.
  - vm_compute. reflexivity.
  - vm_compute. reflexivity.
  - vm_compute. reflexivity.
  - vm_compute. discriminate.
Defined.

(** ** The divisions of the normalizations *)

Lemma rbind_Raise {A B} (c : Result A) (f : A -> Result B) e :
  rbind c f = Raise e → c = Raise e ∨ ∃ a, c = Ok a ∧ f a = Raise e.
Proof. destruct c; simpl; naive_solver. Qed.

Lemma of_option_Raise {A} (e e' : Err) (o : option A) :
  of_option e o = Raise e' → e' = e.
Proof. destruct o; simpl; congruence. Qed.

Lemma rfold_Raise {A B} (f : B -> A -> Result B) l b e :
  rfold f l b = Raise e → ∃ b0 x, x ∈ l ∧ f b0 x = Raise e.
Proof.
  revert b. induction l as [|x l IH]; intros b; simpl; [done|].
  intros [Hx|(b' & _ & (b0 & y & Hy & Hf)%IH)]%rbind_Raise.
  - exists b, x. split; [apply list_elem_of_here|done].
  - exists b0, y. split; [by apply list_elem_of_further|done].
Qed.

Lemma rmap_Raise {A B} (f : A -> Result B) l e :
  rmap f l = Raise e → ∃ x, x ∈ l ∧ f x = Raise e.
Proof.
  induction l as [|x l IH]; simpl; [done|].
  intros [Hx|(y & _ & Hrest)]%rbind_Raise.
  - exists x. split; [apply list_elem_of_here|done].
  - apply rbind_Raise in Hrest as [(x' & ? & ?)%IH|(ys & _ & [=])].
    exists x'. split; [by apply list_elem_of_further|done].
Qed.

Lemma py_div_floor a m e : py_div a (py_max m epsilon) ≠ Raise e.
Proof.
  unfold py_div. destruct (Qeq_bool _ _) eqn:Heq; [|done].
  apply Qeq_bool_iff in Heq. pose proof (py_max_floor_pos m). lra.
Qed.

(** X22. The two normalizations never divide by zero: the floor 1e-6 of the
    divisor keeps it positive.  The only error that the statements after the
    ablations can raise, in [compute_edge_importance] as in
    [compute_token_importance], is the [KeyError] of a missing entry. *)
Theorem normalizations_raise_only_KeyError
    (downstream_nodes : list Node)
    (ablation_mses : list (Edge * Q)) (baseline_mses : list (Node * Q))
    (upstream_layer : Z) (downstream_token_idxs : list Z)
    (token_baseline_mses : list (Z * Q))
    (token_ablation_mses : list (Z * list (Z * Q))) (e : Err) :
  (normalize_edge_mses downstream_nodes ablation_mses baseline_mses = Raise e →
   e = KeyError) ∧
  (normalize_token_mses upstream_layer downstream_token_idxs token_baseline_mses
     token_ablation_mses = Raise e →
   e = KeyError).
Proof.
  split.
  - unfold normalize_edge_mses.
    intros [Hinc|(inc & _ & Hrest)]%rbind_Raise.
    { apply rfold_Raise in Hinc as (d & [edge mse] & _ & Hstep).
      apply rbind_Raise in Hstep as [?%of_option_Raise|(? & _ & [=])]. done. }
    apply rbind_Raise in Hrest as [Hstats|([mins maxs] & _ & Hrest)].
    { apply rfold_Raise in Hstats as ([mins maxs] & node & _ & Hstep).
      apply rbind_Raise in Hstep as [Hmap|(? & _ & [=])].
      apply rmap_Raise in Hmap as (edge & _ & ?%of_option_Raise). done. }
    apply rbind_Raise in Hrest as [Hprint|([] & _ & Himp)].
    { apply rfold_Raise in Hprint as ([] & node & _ & Hstep).
      apply rbind_Raise in Hstep as [?%of_option_Raise|(? & _ & Hstep)]; [done|].
      apply rbind_Raise in Hstep as [?%of_option_Raise|(? & _ & Hstep)]; [done|].
      apply rbind_Raise in Hstep as [?%of_option_Raise|(? & _ & [=])]. done. }
    apply rfold_Raise in Himp as (imp & [edge inc0] & _ & Hstep).
    apply rbind_Raise in Hstep as [?%of_option_Raise|(m & _ & Hstep)]; [done|].
    apply rbind_Raise in Hstep as [Hdiv|(? & _ & [=])].
    by apply py_div_floor in Hdiv.
  - unfold normalize_token_mses.
    intros [Hinc|(inc & _ & Hrest)]%rbind_Raise.
    { apply rfold_Raise in Hinc as (d & [dt inner] & _ & Hstep).
      apply rfold_Raise in Hstep as (d' & [ut mse] & _ & Hstep).
      apply rbind_Raise in Hstep as [?%of_option_Raise|(? & _ & [=])]. done. }
    destruct (fold_left _ _ _) as [[inc' mins] maxs].
    apply rbind_Raise in Hrest as [Hprint|([] & _ & Himp)].
    { apply rfold_Raise in Hprint as ([] & dt & _ & Hstep).
      apply rbind_Raise in Hstep as [?%of_option_Raise|(? & _ & Hstep)]; [done|].
      apply rbind_Raise in Hstep as [?%of_option_Raise|(? & _ & Hstep)]; [done|].
      apply rbind_Raise in Hstep as [?%of_option_Raise|(? & _ & [=])]. done. }
    apply rfold_Raise in Himp as (imp & [dt inner] & _ & Hstep).
    apply rfold_Raise in Hstep as (imp' & [ut inc0] & _ & Hstep).
    apply rbind_Raise in Hstep as [?%of_option_Raise|(m & _ & Hstep)]; [done|].
    apply rbind_Raise in Hstep as [Hdiv|(? & _ & [=])].
    by apply py_div_floor in Hdiv.
Qed.
